(** * CTR experiment service: assignment engine and Wilson aggregator

    A shallow embedding of the two pure functions of [app.py],
    [assign_variant_and_placement] and [wilson_interval], together with the
    Python primitives they call, and of the ranking of the results in
    [api_search], taken from the tokens of the query and the values of
    [random.random()] on.

    Conventions of the embedding:
    - a Python [int] is a [Z];
    - a Python [float] is an IEEE-754 binary64 value, Rocq's primitive
      [float]; its operations are the correctly rounded ones, specified bit
      for bit by [SpecFloat] through the [FloatAxioms] of the library;
    - a Python [str] is a [string] holding the UTF-8 bytes of its code
      points; a lone surrogate, which a [str] can hold (the JSON text
      [\ud800] gives one, and so does a byte of the environment that is
      not UTF-8) but UTF-8 cannot, is held as the three bytes
      [ED A0..BF 80..BF] that the same scheme gives its code point;
      [str.encode()] is the list of the bytes, and raises on a surrogate;
    - [bytes] are lists of integers in [0, 256);
    - a call that may raise returns a [result]. *)

From Stdlib Require Import ZArith List String Ascii Bool Lia.
From Stdlib Require Import QArith Qround.
From Stdlib Require Import Reals Lra.
From Stdlib Require Import Floats.
From Stdlib Require Import Permutation Sorted.
Import ListNotations.

Local Open Scope Z_scope.

(** ** Python values and exceptions *)

Module Py.

Inductive exn : Type :=
| ValueError
| ZeroDivisionError
| OverflowError
| IndexError
| UnicodeEncodeError.

Inductive result (A : Type) : Type :=
| Ok (a : A)
| Raise (e : exn).

Arguments Ok {A} a.
Arguments Raise {A} e.

Definition bind {A B : Type} (r : result A) (k : A -> result B) : result B :=
  match r with
  | Ok a => k a
  | Raise e => Raise e
  end.

End Py.

Import Py.

Declare Scope py_scope.
Delimit Scope py_scope with py.
Notation "x <- c ;; k" := (bind c (fun x => k))
  (at level 61, c at next level, right associativity) : py_scope.
Notation "' p <- c ;; k" := (bind c (fun p => k))
  (at level 61, p pattern, c at next level, right associativity) : py_scope.
Local Open Scope py_scope.

(** ** Floats: the numeric primitives of Python used by the source *)

Module PyFloat.

(** An integer as an unrounded binary float: mantissa [|n|], exponent 0. *)
Definition Z2SF_raw (n : Z) : spec_float :=
  match n with
  | Z0 => S754_zero false
  | Zpos p => S754_finite false p 0
  | Zneg p => S754_finite true p 0
  end.

Definition SF_is_infinity (x : spec_float) : bool :=
  match x with
  | S754_infinity _ => true
  | _ => false
  end.

(** [float(n)] for an [int]: round to nearest, ties to even;
    [OverflowError] when the integer is too large for a double. *)
Definition float_of_int (n : Z) : result float :=
  let r := binary_normalize prec emax n 0 false in
  if SF_is_infinity r then Raise OverflowError else Ok (SF2Prim r).

(** [a / b] on two [int]s (true division): the correctly rounded quotient of
    the two integers, whatever their size. *)
Definition int_truediv (a b : Z) : result float :=
  if b =? 0 then Raise ZeroDivisionError
  else
    let r := SFdiv prec emax (Z2SF_raw a) (Z2SF_raw b) in
    if SF_is_infinity r then Raise OverflowError else Ok (SF2Prim r).

(** [a / b] on two [float]s. *)
Definition float_truediv (a b : float) : result float :=
  if (b =? 0)%float then Raise ZeroDivisionError else Ok (a / b)%float.

(** [a / n] for a [float] and an [int]: the integer is converted first. *)
Definition float_truediv_int (a : float) (n : Z) : result float :=
  b <- float_of_int n ;; float_truediv a b.

(** [z ** 2], the [pow] of the C library at the exponent [2.0]. It is
    taken to return the correctly rounded square, which it does at [1.96]
    and at [0.0], the two quantiles at which a result below depends on its
    value; at other arguments a C library may return a neighbour of that
    double. An overflow of a finite base raises. *)
Definition float_pow2 (z : float) : result float :=
  let r := (z * z)%float in
  if is_infinity r && is_finite z then Raise OverflowError else Ok r.

(** [math.sqrt]: a NaN result from a non-NaN argument is a domain error. *)
Definition math_sqrt (x : float) : result float :=
  let r := PrimFloat.sqrt x in
  if is_nan r && negb (is_nan x) then Raise ValueError else Ok r.

(** The builtins [max(a, b)] and [min(a, b)]: the first argument is kept
    unless the second compares strictly beyond it. *)
Definition py_max (a b : float) : float := if (a <? b)%float then b else a.
Definition py_min (a b : float) : float := if (b <? a)%float then b else a.

(** The integer part of a finite float, rounding towards zero. *)
Definition SF_trunc (x : spec_float) : Z :=
  match x with
  | S754_finite s m e =>
      let a := match e with
               | Zneg p => Z.shiftr (Zpos m) (Zpos p)
               | _ => Z.shiftl (Zpos m) e
               end in
      if s then - a else a
  | _ => 0
  end.

(** [int(x)] for a [float]. *)
Definition py_int (x : float) : result Z :=
  if is_nan x then Raise ValueError
  else if is_infinity x then Raise OverflowError
  else Ok (SF_trunc (Prim2SF x)).

End PyFloat.

Import PyFloat.

(** ** Integers, strings and lists *)

Module PyData.

(** [a % b] on [int]s: the sign of the result follows the divisor. *)
Definition py_mod (a b : Z) : result Z :=
  if b =? 0 then Raise ZeroDivisionError else Ok (a mod b).

(** [l[i]]: a negative index counts from the end. *)
Definition py_index {A : Type} (l : list A) (i : Z) : result A :=
  let n := Z.of_nat (List.length l) in
  let j := if i <? 0 then i + n else i in
  if (j <? 0) || (n <=? j) then Raise IndexError
  else match nth_error l (Z.to_nat j) with
       | Some x => Ok x
       | None => Raise IndexError
       end.

Definition py_len {A : Type} (l : list A) : Z := Z.of_nat (List.length l).

(** [s[i:j]] for [0 <= i <= j]: out-of-range bounds are clamped. *)
Fixpoint str_slice (i j : nat) (s : string) : string :=
  match j with
  | O => EmptyString
  | S j' =>
      match s with
      | EmptyString => EmptyString
      | String c s' =>
          match i with
          | O => String c (str_slice O j' s')
          | S i' => str_slice i' j' s'
          end
      end
  end.

(** The bytes that hold a [str]. *)
Definition str_bytes (s : string) : list Z :=
  map (fun c => Z.of_N (N_of_ascii c)) (list_ascii_of_string s).

(** [chr(c)] for [0 <= c <= 0x10FFFF]: the [str] of one code point. *)
Definition byte_char (b : Z) : ascii := ascii_of_N (Z.to_N b).

Definition py_chr (c : Z) : string :=
  if c <? 0x80 then String (byte_char c) EmptyString
  else if c <? 0x800 then
    String (byte_char (0xC0 + c / 64))
      (String (byte_char (0x80 + c mod 64)) EmptyString)
  else if c <? 0x10000 then
    String (byte_char (0xE0 + c / 4096))
      (String (byte_char (0x80 + c / 64 mod 64))
         (String (byte_char (0x80 + c mod 64)) EmptyString))
  else
    String (byte_char (0xF0 + c / 262144))
      (String (byte_char (0x80 + c / 4096 mod 64))
         (String (byte_char (0x80 + c / 64 mod 64))
            (String (byte_char (0x80 + c mod 64)) EmptyString))).

(** Whether a [str] holds a surrogate, a code point from [U+D800] to
    [U+DFFF]: the byte [ED] followed by one from [A0] to [BF]. No other
    code point has [ED] before such a byte, and [ED] is never a second,
    third or fourth byte. *)
Fixpoint has_surrogate (s : string) : bool :=
  match s with
  | EmptyString => false
  | String c s' =>
      match s' with
      | EmptyString => false
      | String d _ =>
          ((N_of_ascii c =? 237) && (160 <=? N_of_ascii d)
           && (N_of_ascii d <=? 191))%N
          || has_surrogate s'
      end
  end.

(** [str.encode()], to UTF-8: a surrogate cannot be encoded and raises
    [UnicodeEncodeError] (in Python a kind of [ValueError]; the source
    has no handler around the call). *)
Definition encode (s : string) : result (list Z) :=
  if has_surrogate s then Raise UnicodeEncodeError else Ok (str_bytes s).

Definition hex_digit_value (c : ascii) : option Z :=
  let n := Z.of_N (N_of_ascii c) in
  if (48 <=? n) && (n <=? 57) then Some (n - 48)
  else if (97 <=? n) && (n <=? 102) then Some (n - 87)
  else if (65 <=? n) && (n <=? 70) then Some (n - 55)
  else None.

Fixpoint int16_from (acc : Z) (s : string) : result Z :=
  match s with
  | EmptyString => Ok acc
  | String c s' =>
      match hex_digit_value c with
      | Some d => int16_from (16 * acc + d) s'
      | None => Raise ValueError
      end
  end.

(** [int(s, 16)] on a string of hexadecimal digits (no sign, prefix,
    underscore or blank, none of which a hex digest contains). *)
Definition int16 (s : string) : result Z :=
  match s with
  | EmptyString => Raise ValueError
  | _ => int16_from 0 s
  end.

End PyData.

Import PyData.

(** ** SHA-256 and HMAC (FIPS 180-4, RFC 2104), as [hashlib] and [hmac]
    compute them *)

Module SHA256.

Definition mask32 : Z := 0xFFFFFFFF.
Definition add32 (x y : Z) : Z := (x + y) mod 0x100000000.
Definition rotr (n x : Z) : Z :=
  Z.lor (Z.shiftr x n) (Z.land (Z.shiftl x (32 - n)) mask32).
Definition not32 (x : Z) : Z := Z.lxor x mask32.

Definition Ch (x y z : Z) : Z := Z.lxor (Z.land x y) (Z.land (not32 x) z).
Definition Maj (x y z : Z) : Z :=
  Z.lxor (Z.lxor (Z.land x y) (Z.land x z)) (Z.land y z).
Definition Sigma0 (x : Z) : Z := Z.lxor (Z.lxor (rotr 2 x) (rotr 13 x)) (rotr 22 x).
Definition Sigma1 (x : Z) : Z := Z.lxor (Z.lxor (rotr 6 x) (rotr 11 x)) (rotr 25 x).
Definition sigma0 (x : Z) : Z := Z.lxor (Z.lxor (rotr 7 x) (rotr 18 x)) (Z.shiftr x 3).
Definition sigma1 (x : Z) : Z := Z.lxor (Z.lxor (rotr 17 x) (rotr 19 x)) (Z.shiftr x 10).

(** The round constants, read from their hexadecimal digits, eight digits
    to a word. *)
Fixpoint hex_words (count : nat) (s : string) : list Z :=
  match count with
  | O => []
  | S c =>
      match int16 (str_slice 0 8 s) with
      | Ok x => x :: hex_words c (str_slice 8 (String.length s) s)
      | Raise _ => []
      end
  end.

Definition K : list Z :=
  Eval vm_compute in
    hex_words 64
      ("428a2f9871374491b5c0fbcfe9b5dba53956c25b59f111f1923f82a4ab1c5ed5"
       ++ "d807aa9812835b01243185be550c7dc372be5d7480deb1fe9bdc06a7c19bf174"
       ++ "e49b69c1efbe47860fc19dc6240ca1cc2de92c6f4a7484aa5cb0a9dc76f988da"
       ++ "983e5152a831c66db00327c8bf597fc7c6e00bf3d5a7914706ca635114292967"
       ++ "27b70a852e1b21384d2c6dfc53380d13650a7354766a0abb81c2c92e92722c85"
       ++ "a2bfe8a1a81a664bc24b8b70c76c51a3d192e819d6990624f40e3585106aa070"
       ++ "19a4c1161e376c082748774c34b0bcb5391c0cb34ed8aa4a5b9cca4f682e6ff3"
       ++ "748f82ee78a5636f84c878148cc7020890befffaa4506cebbef9a3f7c67178f2")%string.

(** The eight working words. *)
Record regs : Type := Regs {
  ra : Z; rb : Z; rc : Z; rd : Z; re : Z; rf : Z; rg : Z; rh : Z
}.

Definition H0 : regs :=
  Regs 0x6a09e667 0xbb67ae85 0x3c6ef372 0xa54ff53a
       0x510e527f 0x9b05688c 0x1f83d9ab 0x5be0cd19.

(** Big-endian words and bytes. *)
Definition word_of_bytes (bs : list Z) : Z :=
  fold_left (fun acc b => 256 * acc + b) bs 0.

Definition bytes_of_word (x : Z) : list Z :=
  [ (x / 0x1000000) mod 256; (x / 0x10000) mod 256; (x / 0x100) mod 256; x mod 256 ].

Fixpoint chunks {A : Type} (size count : nat) (l : list A) : list (list A) :=
  match count with
  | O => []
  | S c => firstn size l :: chunks size c (skipn size l)
  end.

(** Padding: a one bit, zeros up to 56 modulo 64, the bit length on 8 bytes. *)
Definition pad (msg : list Z) : list Z :=
  let len := Z.of_nat (List.length msg) in
  let zeros := Z.to_nat ((55 - len) mod 64) in
  let bits := 8 * len in
  msg ++ [0x80] ++ repeat 0 zeros
      ++ bytes_of_word ((bits / 0x100000000) mod 0x100000000)
      ++ bytes_of_word (bits mod 0x100000000).

(** The message schedule, most recent word first while it is extended. *)
Fixpoint extend (n : nat) (rev_w : list Z) : list Z :=
  match n with
  | O => rev_w
  | S n' =>
      let wt := add32 (add32 (sigma1 (nth 1 rev_w 0)) (nth 6 rev_w 0))
                      (add32 (sigma0 (nth 14 rev_w 0)) (nth 15 rev_w 0)) in
      extend n' (wt :: rev_w)
  end.

Definition schedule (block : list Z) : list Z :=
  rev (extend 48 (rev (map word_of_bytes (chunks 4 16 block)))).

Definition round (s : regs) (kw : Z * Z) : regs :=
  let '(k, w) := kw in
  let t1 := add32 (add32 (add32 (add32 (rh s) (Sigma1 (re s))) (Ch (re s) (rf s) (rg s))) k) w in
  let t2 := add32 (Sigma0 (ra s)) (Maj (ra s) (rb s) (rc s)) in
  Regs (add32 t1 t2) (ra s) (rb s) (rc s) (add32 (rd s) t1) (re s) (rf s) (rg s).

Definition compress (h : regs) (block : list Z) : regs :=
  let s := fold_left round (combine K (schedule block)) h in
  Regs (add32 (ra h) (ra s)) (add32 (rb h) (rb s)) (add32 (rc h) (rc s))
       (add32 (rd h) (rd s)) (add32 (re h) (re s)) (add32 (rf h) (rf s))
       (add32 (rg h) (rg s)) (add32 (rh h) (rh s)).

Definition bytes_of_regs (s : regs) : list Z :=
  bytes_of_word (ra s) ++ bytes_of_word (rb s) ++ bytes_of_word (rc s)
    ++ bytes_of_word (rd s) ++ bytes_of_word (re s) ++ bytes_of_word (rf s)
    ++ bytes_of_word (rg s) ++ bytes_of_word (rh s).

Definition final_regs (msg : list Z) : regs :=
  let p := pad msg in
  fold_left compress (chunks 64 (List.length p / 64) p) H0.

(** [hashlib.sha256(msg).digest()]. *)
Definition sha256 (msg : list Z) : list Z := bytes_of_regs (final_regs msg).

End SHA256.

Module HMAC.

Definition block_size : nat := 64.

Definition block_key (key : list Z) : list Z :=
  let k := if (block_size <? List.length key)%nat then SHA256.sha256 key else key in
  k ++ repeat 0 (block_size - List.length k).

Definition inner (key msg : list Z) : list Z :=
  SHA256.sha256 (map (Z.lxor 0x36) (block_key key) ++ msg).

(** The eight words of the outer hash: the digest before serialisation. *)
Definition hmac_regs (key msg : list Z) : SHA256.regs :=
  SHA256.final_regs (map (Z.lxor 0x5c) (block_key key) ++ inner key msg).

(** [hmac.new(key, msg, hashlib.sha256).digest()]. *)
Definition digest (key msg : list Z) : list Z :=
  SHA256.bytes_of_regs (hmac_regs key msg).

Definition hex_char (d : Z) : ascii :=
  ascii_of_N (Z.to_N (if d <? 10 then 48 + d else 87 + d)).

Fixpoint hex_of_bytes (bs : list Z) : string :=
  match bs with
  | [] => EmptyString
  | b :: bs' => String (hex_char (b / 16)) (String (hex_char (b mod 16)) (hex_of_bytes bs'))
  end.

(** [hmac.new(key, msg, hashlib.sha256).hexdigest()]. *)
Definition hexdigest (key msg : list Z) : string := hex_of_bytes (digest key msg).

End HMAC.

(** ** The application *)

Module App.

(** The module-level names of [app.py] that its functions read. *)
Record Globals : Type := {
  DB_PATH : string;
  SECRET : string;
  VARIANTS : list string;
  PLACEMENTS : list string
}.

(** [os.environ.get(name, default)]: the value of the variable, a [str]
    that the interpreter has decoded from the bytes of the environment, a
    byte that is not UTF-8 to a lone surrogate. *)
Definition environ_get (v : option string) (default : string) : string :=
  match v with
  | Some s => s
  | None => default
  end.

(** The globals as the module initialises them, from the two environment
    variables it consults. *)
Definition module_globals (env_db_path env_secret : option string) : Globals :=
  {| DB_PATH := environ_get env_db_path "ctr.db";
     SECRET := environ_get env_secret "changeme";
     VARIANTS := ["A"; "B"; "C"]%string;
     PLACEMENTS := ["P1"; "P2"; "P3"]%string |}.

(** Lines 68 and 69: the two buckets of a hexadecimal digest. *)
Definition buckets_of_hexdigest (digest : string) : result (float * float) :=
  i1 <- int16 (str_slice 0 8 digest) ;;
  bucket1 <- int_truediv i1 0xFFFFFFFF ;;
  i2 <- int16 (str_slice 8 16 digest) ;;
  bucket2 <- int_truediv i2 0xFFFFFFFF ;;
  Ok (bucket1, bucket2).

(** Lines 70 and 71, once for each list:
    [choices[int(bucket * len(choices)) % len(choices)]]. *)
Definition pick (choices : list string) (bucket : float) : result string :=
  n <- float_of_int (py_len choices) ;;
  i <- py_int (bucket * n)%float ;;
  j <- py_mod i (py_len choices) ;;
  py_index choices j.

Definition assign_variant_and_placement (g : Globals) (user_id : string)
  : result (string * string) :=
  key <- encode (SECRET g) ;;
  msg <- encode user_id ;;
  let digest := HMAC.hexdigest key msg in
  '(bucket1, bucket2) <- buckets_of_hexdigest digest ;;
  v <- pick (VARIANTS g) bucket1 ;;
  p <- pick (PLACEMENTS g) bucket2 ;;
  Ok (v, p).

(** The default of the parameter [z]: the double nearest to [1.96]. *)
Definition z_default : float := 0x1.f5c28f5c28f5cp+0%float.

Definition wilson_interval (k n : Z) (z : float) : result (float * float * float) :=
  if n =? 0 then Ok (0%float, 0%float, 0%float)
  else
    phat <- int_truediv k n ;;
    z2 <- float_pow2 z ;;
    q <- float_truediv_int z2 n ;;
    let denom := (1 + q)%float in
    a <- float_truediv_int (z * z)%float (2 * n) ;;
    center <- float_truediv (phat + a)%float denom ;;
    b <- float_truediv_int (z * z)%float (4 * n) ;;
    r <- float_truediv_int (phat * (1 - phat) + b)%float n ;;
    s <- math_sqrt r ;;
    half <- float_truediv (z * s)%float denom ;;
    Ok (phat, py_max 0%float (center - half)%float,
              py_min 1%float (center + half)%float).

End App.

Import App.

(** ** The ranking of the search results *)

Module ApiSearch.

Local Open Scope string_scope.

(** An entry of [MOCK_DOCS]: a dictionary with four string values. *)
Record Doc : Type := {
  id : string;
  title : string;
  desc : string;
  domain : string
}.

Definition MOCK_DOCS : list Doc := [
  {| id := "r1";
     title := "무선 이어폰 가성비 TOP10";
     desc := "가격대별 추천과 배터리 비교";
     domain := "soundpick.example" |};
  {| id := "r2";
     title := "블루투스 이어폰 할인 모음";
     desc := "이번 주 특가 한눈에 보기";
     domain := "salehub.example" |};
  {| id := "r3";
     title := "노이즈캔슬링 입문 가이드";
     desc := "ANC 기본 원리와 추천 모델";
     domain := "techwiki.example" |};
  {| id := "r4";
     title := "땀에도 강한 운동용 이어폰";
     desc := "방수 등급 IPX와 착용감";
     domain := "fitgear.example" |};
  {| id := "r5";
     title := "친구 선물 베스트 20";
     desc := "예산 3~5만원 선물 추천";
     domain := "giftmap.example" |};
  {| id := "r6";
     title := "이어폰 배터리 오래 쓰는 법";
     desc := "충전 팁과 보관 요령";
     domain := "caretips.example" |};
  {| id := "r7";
     title := "최신 코드리스 비교표";
     desc := "칩셋/코덱/지연시간 비교";
     domain := "specs.example" |};
  {| id := "r8";
     title := "오픈형 vs 커널형";
     desc := "장단점, 상황별 선택";
     domain := "audio101.example" |}
].

(** [str.lower()] on text whose only cased characters are ASCII letters, as
    in the documents: their other characters are Hangul, digits and
    punctuation, which have no lower case. *)
Definition lower_char (c : ascii) : ascii :=
  let n := N_of_ascii c in
  if ((65 <=? n) && (n <=? 90))%N then ascii_of_N (n + 32) else c.

Fixpoint lower (s : string) : string :=
  match s with
  | EmptyString => EmptyString
  | String c s' => String (lower_char c) (lower s')
  end.

(** [t in text] on strings. On the UTF-8 bytes the test is the one on the
    characters, since no encoded character starts inside another. *)
Fixpoint contains (t text : string) : bool :=
  if String.prefix t text then true
  else match text with
       | EmptyString => false
       | String _ text' => contains t text'
       end.

(** [sum(1 for t in toks if t in text)], for the text of a document. *)
Definition matches (toks : list string) (doc : Doc) : Z :=
  let text := lower (title doc ++ " " ++ desc doc) in
  py_len (filter (fun t => contains t text) toks).

(** The literal [0.01]. *)
Definition hundredth : float := 0x1.47ae147ae147bp-7%float.

(** [score(doc)], given the value that [random.random()] returns in it:
    the integer [base] is converted for the sum with a float. *)
Definition score (toks : list string) (draw : float) (doc : Doc) : result float :=
  let base := 1 + matches toks doc in
  b <- float_of_int base ;;
  Ok (b + draw * hundredth)%float.

(** The keys of [sorted]: [score] is called once on each document, in the
    order of the list; [draw i] is the [i]-th value of [random.random()]
    in the call. *)
Fixpoint keys (toks : list string) (draw : nat -> float) (i : nat)
         (docs : list Doc) : result (list (float * Doc)) :=
  match docs with
  | [] => Ok []
  | d :: ds =>
      k <- score toks (draw i) d ;;
      rest <- keys toks draw (S i) ds ;;
      Ok ((k, d) :: rest)
  end.

(** [sorted(..., reverse=True)]: the sort is stable, also in reverse. On
    keys that are numbers, as [score] returns them for the draws of
    [random.random()], its result is determined: descending keys, and among
    equal keys the order of the list. It is computed here by insertion, the
    keys compared with [<] as the sort compares them. *)
Fixpoint insert_desc (x : float * Doc) (l : list (float * Doc))
  : list (float * Doc) :=
  match l with
  | [] => [x]
  | y :: l' =>
      if (fst x <? fst y)%float then y :: insert_desc x l' else x :: l
  end.

Definition sorted_desc (l : list (float * Doc)) : list (float * Doc) :=
  fold_right insert_desc [] l.

(** Lines 123 to 129, from the tokens of the query on:
    [sorted(MOCK_DOCS, key=score, reverse=True)[:8]]. *)
Definition api_search_docs (toks : list string) (draw : nat -> float)
  : result (list Doc) :=
  ks <- keys toks draw 0 MOCK_DOCS ;;
  Ok (firstn 8 (map snd (sorted_desc ks))).

End ApiSearch.

(** ** The reference algorithm of the specification *)

Module Spec.

(** The reference follows the words of the specification (section 4.1),
    in exact arithmetic: the first four and the next four bytes of the digest, read
    as big-endian unsigned integers, are divided by the largest value of
    that width; the cell is [VARIANTS[floor(bucket1 * Nv) mod Nv]] and
    [PLACEMENTS[floor(bucket2 * Np) mod Np]]. *)

Definition be_uint (bs : list Z) : Z :=
  fold_left (fun acc b => 256 * acc + b) bs 0.

Definition max_uint32 : Z := 2 ^ 32 - 1.

Definition normalize (i : Z) : Q := (inject_Z i / inject_Z max_uint32)%Q.

Definition select (choices : list string) (bucket : Q) : option string :=
  let n := Z.of_nat (List.length choices) in
  nth_error choices (Z.to_nat (Qfloor (bucket * inject_Z n)%Q mod n)).

Definition assign (secretKey : list Z) (variants placements : list string)
           (identifier : list Z) : option (string * string) :=
  let digest := HMAC.digest secretKey identifier in
  let bucket1 := normalize (be_uint (firstn 4 digest)) in
  let bucket2 := normalize (be_uint (firstn 4 (skipn 4 digest))) in
  match select variants bucket1, select placements bucket2 with
  | Some v, Some p => Some (v, p)
  | _, _ => None
  end.

(** The Wilson score interval in the words of the specification
    (section 4.2), over the reals. *)
Definition wilson_center (clicks impressions z : R) : R :=
  ((clicks / impressions + z * z / (2 * impressions))
   / (1 + z * z / impressions))%R.

Definition wilson_half (clicks impressions z : R) : R :=
  (z * R_sqrt.sqrt ((clicks / impressions * (1 - clicks / impressions)
              + z * z / (4 * impressions)) / impressions)
   / (1 + z * z / impressions))%R.

Definition wilson_lower (clicks impressions z : R) : R :=
  Rmax 0 (wilson_center clicks impressions z - wilson_half clicks impressions z).

Definition wilson_upper (clicks impressions z : R) : R :=
  Rmin 1 (wilson_center clicks impressions z + wilson_half clicks impressions z).

End Spec.

(** ** Reading a result to four decimal places *)

Module Decimal.

(** The value of a finite double as an exact rational. *)
Definition SF2Q (x : spec_float) : Q :=
  match x with
  | S754_finite s m e =>
      let q := match e with
               | Zneg p => Qmake (Zpos m) (2 ^ p)
               | _ => inject_Z (Zpos m * 2 ^ e)
               end in
      if s then Qopp q else q
  | _ => 0%Q
  end.

(** The nearest multiple of [10^-4], as a number of ten-thousandths. *)
Definition round4 (x : float) : Z :=
  Qfloor (SF2Q (Prim2SF x) * inject_Z 10000 + Qmake 1 2)%Q.

End Decimal.

(** ** Real-number semantics of binary64 values *)

Module FloatSem.

Local Open Scope R_scope.

Definition bpow (e : Z) : R := powerRZ 2 e.

Definition F2R (m e : Z) : R := IZR m * bpow e.

Arguments bpow e : simpl never.
Arguments F2R m e : simpl never.

(** The value of a finite float; zeros, infinities and NaN are sent to 0. *)
Definition SF2R (x : spec_float) : R :=
  match x with
  | S754_finite s m e => F2R (cond_Zopp s (Zpos m)) e
  | _ => 0
  end.

Definition B2R (x : float) : R := SF2R (Prim2SF x).

(** Zero or finite: a float that denotes a real number. *)
Definition SF_is_real (x : spec_float) : bool :=
  match x with
  | S754_zero _ | S754_finite _ _ _ => true
  | _ => false
  end.

Definition is_real (x : float) : bool := SF_is_real (Prim2SF x).

(** The binary64 grid with no upper bound on the exponent: at most [prec]
    significant bits, exponent at least [emin]. *)
Definition format (x : R) : Prop :=
  exists m e : Z, x = F2R m e /\ (Z.abs m < 2 ^ prec)%Z /\ (emin <= e)%Z.

(** [r] is a point of the grid closest to [x]. *)
Definition nearest (x r : R) : Prop :=
  format r /\ forall f : R, format f -> Rabs (r - x) <= Rabs (f - x).

(** What the three fields of a shift record say of the real [x] they
    locate, in units of [2^e]: the integer part, the half bit, and whether
    anything is left below. *)
Definition rec_loc (x : R) (mrs : shr_record) (e : Z) : Prop :=
  exists d : R,
    x = (IZR (shr_m mrs) + (if shr_r mrs then / 2 else 0) + d) * bpow e
    /\ (if shr_s mrs then 0 < d < / 2 else d = 0).

Definition loc_of (x : R) (m e : Z) (l : location) : Prop :=
  rec_loc x (shr_record_of_loc m l) e.

(** The float [z] is a correct rounding of the real [y]: a nearest point of
    the grid, or an infinity when that point is beyond the largest double. *)
Definition rounds_to (y : R) (z : spec_float) : Prop :=
  match z with
  | S754_nan => False
  | S754_zero _ => nearest y 0
  | S754_finite s m e => bounded prec emax m e = true /\ nearest y (SF2R z)
  | S754_infinity s =>
      exists r : R, nearest y r /\ bpow emax <= Rabs r /\ (0 < r <-> s = false)
  end.

(** The same for a magnitude [x >= 0] rounded under the sign [sx]. *)
Definition rounds_abs (sx : bool) (x : R) (z : spec_float) : Prop :=
  match z with
  | S754_nan => False
  | S754_zero s => s = sx /\ nearest x 0
  | S754_finite s m e =>
      s = sx /\ bounded prec emax m e = true /\ nearest x (F2R (Zpos m) e)
  | S754_infinity s =>
      s = sx /\ exists r : R, nearest x r /\ bpow emax <= r
  end.

(** The meaning of the outcome of a comparison. *)
Definition cmp_real (c : option comparison) (u v : R) : Prop :=
  match c with
  | Some Lt => u < v
  | Some Eq => u = v
  | Some Gt => v < u
  | None => False
  end.

End FloatSem.

Import FloatSem.

(** * Lemmas *)

(** ** Powers of two *)

Section Bpow.

Local Open Scope R_scope.

Lemma bpow_pos (e : Z) : 0 < bpow e.
Proof. apply powerRZ_lt. lra. Qed.

Lemma bpow_add (a b : Z) : bpow (a + b) = bpow a * bpow b.
Proof. apply powerRZ_add. lra. Qed.

Lemma bpow_0 : bpow 0 = 1.
Proof. reflexivity. Qed.

Lemma bpow_1 : bpow 1 = 2.
Proof. unfold bpow. simpl. lra. Qed.

Lemma bpow_succ (a : Z) : bpow (a + 1) = 2 * bpow a.
Proof. rewrite bpow_add, bpow_1. lra. Qed.

Lemma bpow_opp (a : Z) : bpow (- a) = / bpow a.
Proof. apply powerRZ_neg'. Qed.

Lemma bpow_IZR (k : Z) : (0 <= k)%Z -> bpow k = IZR (2 ^ k).
Proof.
  intros Hk. destruct k as [|p|p].
  - reflexivity.
  - unfold bpow. change (2 ^ Z.pos p)%Z with (Z.pow_pos 2 p).
    now rewrite Zpower_pos_powerRZ.
  - lia.
Qed.

Lemma bpow_ge_1 (k : Z) : (0 <= k)%Z -> 1 <= bpow k.
Proof.
  intros Hk. rewrite bpow_IZR by assumption.
  apply IZR_le. assert (0 < 2 ^ k)%Z by (apply Z.pow_pos_nonneg; lia). lia.
Qed.

Lemma bpow_gt_1 (k : Z) : (0 < k)%Z -> 1 < bpow k.
Proof.
  intros Hk. replace k with ((k - 1) + 1)%Z by lia. rewrite bpow_succ.
  assert (1 <= bpow (k - 1)) by (apply bpow_ge_1; lia). lra.
Qed.

Lemma bpow_le (a b : Z) : (a <= b)%Z -> bpow a <= bpow b.
Proof.
  intros H. replace b with (a + (b - a))%Z by lia. rewrite bpow_add.
  assert (1 <= bpow (b - a)) by (apply bpow_ge_1; lia).
  pose proof (bpow_pos a). nra.
Qed.

Lemma bpow_lt (a b : Z) : (a < b)%Z -> bpow a < bpow b.
Proof.
  intros H. replace b with (a + (b - a))%Z by lia. rewrite bpow_add.
  assert (1 < bpow (b - a)) by (apply bpow_gt_1; lia).
  pose proof (bpow_pos a). nra.
Qed.

Lemma F2R_0 (e : Z) : F2R 0 e = 0.
Proof. unfold F2R. lra. Qed.

Lemma F2R_opp (m e : Z) : F2R (- m) e = - F2R m e.
Proof. unfold F2R. rewrite opp_IZR. lra. Qed.

Lemma F2R_shift (m e k : Z) : (0 <= k)%Z -> F2R (m * 2 ^ k) (e - k) = F2R m e.
Proof.
  intros Hk. unfold F2R. rewrite mult_IZR, <- bpow_IZR by assumption.
  replace e with ((e - k) + k)%Z at 2 by lia. rewrite bpow_add. lra.
Qed.

End Bpow.

(** ** The number of binary digits *)

Section Digits.

Lemma digits2_pos_bounds (p : positive) :
  2 ^ (Zpos (digits2_pos p) - 1) <= Zpos p < 2 ^ Zpos (digits2_pos p).
Proof.
  induction p as [p IH|p IH|]; simpl digits2_pos.
  - rewrite Pos2Z.inj_succ.
    replace (Z.succ (Z.pos (digits2_pos p)) - 1) with ((Z.pos (digits2_pos p) - 1) + 1) by lia.
    rewrite Z.pow_add_r, Z.pow_succ_r by lia. lia.
  - rewrite Pos2Z.inj_succ.
    replace (Z.succ (Z.pos (digits2_pos p)) - 1) with ((Z.pos (digits2_pos p) - 1) + 1) by lia.
    rewrite Z.pow_add_r, Z.pow_succ_r by lia. lia.
  - simpl. lia.
Qed.

Lemma Zdigits2_bounds (m : Z) :
  0 < m -> 2 ^ (Zdigits2 m - 1) <= m < 2 ^ Zdigits2 m.
Proof.
  destruct m as [|p|p]; try lia. intros _. apply digits2_pos_bounds.
Qed.

Lemma Zdigits2_nonneg (m : Z) : 0 <= Zdigits2 m.
Proof. destruct m; simpl; lia. Qed.

Lemma Zdigits2_pos (m : Z) : 0 < m -> 0 < Zdigits2 m.
Proof. destruct m; simpl; lia. Qed.

(** The number of digits is determined by the two powers of two around. *)
Lemma Zdigits2_unique (m d : Z) :
  2 ^ (d - 1) <= m < 2 ^ d -> 0 < m -> Zdigits2 m = d.
Proof.
  intros [Hlo Hhi] Hm.
  destruct (Zdigits2_bounds m Hm) as [Hlo' Hhi'].
  pose proof (Zdigits2_nonneg m) as Hn.
  assert (Hd : 0 <= d).
  { destruct (Z_lt_le_dec d 0) as [Hneg|]; [|assumption].
    rewrite (Z.pow_neg_r 2 d) in Hhi by assumption. lia. }
  destruct (Z.lt_trichotomy (Zdigits2 m) d) as [Hlt|[Heq|Hgt]]; [|assumption|].
  - assert (2 ^ Zdigits2 m <= 2 ^ (d - 1)) by (apply Z.pow_le_mono_r; lia). lia.
  - assert (2 ^ d <= 2 ^ (Zdigits2 m - 1)) by (apply Z.pow_le_mono_r; lia). lia.
Qed.

End Digits.

(** ** Shifting a located value to the right *)

Section Shr.

Local Open Scope R_scope.

Lemma rec_loc_bounds (x : R) (mrs : shr_record) (e : Z) :
  rec_loc x mrs e ->
  IZR (shr_m mrs) * bpow e <= x < (IZR (shr_m mrs) + 1) * bpow e.
Proof.
  intros [d [Hx Hd]]. pose proof (bpow_pos e) as Hb.
  assert (0 <= (if shr_r mrs then / 2 else 0) + d < 1) as Hr.
  { destruct (shr_r mrs), (shr_s mrs); lra. }
  subst x. split; nra.
Qed.

Lemma shr_1_loc (x : R) (mrs : shr_record) (e : Z) :
  (0 <= shr_m mrs)%Z -> rec_loc x mrs e ->
  rec_loc x (shr_1 mrs) (e + 1) /\ (0 <= shr_m (shr_1 mrs))%Z.
Proof.
  destruct mrs as [m r s]. unfold rec_loc. cbn [shr_m shr_r shr_s].
  intros Hm [d [Hx Hd]].
  assert (Hd' : if r || s then 0 < ((if r then / 2 else 0) + d) / 2 < / 2
                else ((if r then / 2 else 0) + d) / 2 = 0).
  { destruct r, s; simpl; lra. }
  destruct m as [|[p|p|]|p]; try lia; cbn [shr_1 shr_m shr_r shr_s];
    (split; [|lia]);
    exists (((if r then / 2 else 0) + d) / 2); (split; [|exact Hd']);
    rewrite Hx, bpow_succ.
  - field.
  - rewrite Pos2Z.inj_xI, plus_IZR, mult_IZR. field.
  - rewrite Pos2Z.inj_xO, mult_IZR. field.
  - field.
Qed.

Lemma iter_shr_1_loc (x : R) (n : positive) :
  forall (mrs : shr_record) (e : Z),
    (0 <= shr_m mrs)%Z -> rec_loc x mrs e ->
    rec_loc x (iter_pos shr_1 n mrs) (e + Zpos n)
    /\ (0 <= shr_m (iter_pos shr_1 n mrs))%Z.
Proof.
  induction n as [n IH|n IH|]; intros mrs e Hm Hl; simpl iter_pos.
  - destruct (shr_1_loc x mrs e Hm Hl) as [H1 H1'].
    destruct (IH _ _ H1' H1) as [H2 H2'].
    destruct (IH _ _ H2' H2) as [H3 H3'].
    split; [|assumption].
    replace (e + Z.pos n~1)%Z with (e + 1 + Z.pos n + Z.pos n)%Z by lia.
    assumption.
  - destruct (IH _ _ Hm Hl) as [H2 H2'].
    destruct (IH _ _ H2' H2) as [H3 H3'].
    split; [|assumption].
    replace (e + Z.pos n~0)%Z with (e + Z.pos n + Z.pos n)%Z by lia.
    assumption.
  - apply shr_1_loc; assumption.
Qed.

Lemma shr_loc (x : R) (mrs : shr_record) (e n : Z) :
  (0 <= shr_m mrs)%Z -> rec_loc x mrs e ->
  rec_loc x (fst (shr mrs e n)) (snd (shr mrs e n))
  /\ (0 <= shr_m (fst (shr mrs e n)))%Z
  /\ snd (shr mrs e n) = (e + Z.max 0 n)%Z.
Proof.
  intros Hm Hl. destruct n as [|p|p]; simpl.
  - repeat split; try assumption. lia.
  - destruct (iter_shr_1_loc x p mrs e Hm Hl) as [H1 H2].
    repeat split; assumption.
  - repeat split; try assumption. lia.
Qed.

Lemma shr_m_of_loc (m : Z) (l : location) : shr_m (shr_record_of_loc m l) = m.
Proof. destruct l as [|[| |]]; reflexivity. Qed.

(** The first step of rounding: the value is brought to its canonical
    exponent, with its position kept. *)
Lemma shr_fexp_loc (x : R) (m e : Z) (l : location) :
  (0 <= m)%Z -> loc_of x m e l ->
  (e <= fexp prec emax (Zdigits2 m + e))%Z ->
  rec_loc x (fst (shr_fexp prec emax m e l)) (fexp prec emax (Zdigits2 m + e))
  /\ (0 <= shr_m (fst (shr_fexp prec emax m e l)))%Z
  /\ snd (shr_fexp prec emax m e l) = fexp prec emax (Zdigits2 m + e).
Proof.
  intros Hm Hl He. unfold shr_fexp.
  assert (Hm' : (0 <= shr_m (shr_record_of_loc m l))%Z) by now rewrite shr_m_of_loc.
  destruct (shr_loc x _ e (fexp prec emax (Zdigits2 m + e) - e) Hm' Hl) as [H1 [H2 H3]].
  assert (H4 : snd (shr (shr_record_of_loc m l) e (fexp prec emax (Zdigits2 m + e) - e))
               = fexp prec emax (Zdigits2 m + e)) by lia.
  rewrite H4 in H1. repeat split; assumption.
Qed.

End Shr.

(** ** The binary64 grid *)

Section Grid.

Local Open Scope R_scope.

Lemma fexp_eq (z : Z) : fexp prec emax z = Z.max (z - 53) (-1074).
Proof. reflexivity. Qed.

Lemma format_F2R (m e : Z) :
  (Z.abs m < 2 ^ prec)%Z -> (emin <= e)%Z -> format (F2R m e).
Proof. intros Hm He. exists m, e. auto. Qed.

Lemma format_0 : format 0.
Proof.
  replace 0 with (F2R 0 0) by apply F2R_0.
  apply format_F2R; [reflexivity | unfold emin; simpl; lia].
Qed.

Lemma format_opp (x : R) : format x -> format (- x).
Proof.
  intros [m [e [Hx [Hm He]]]]. exists (- m)%Z, e.
  rewrite F2R_opp, Hx. repeat split; [lia | assumption].
Qed.

Lemma format_pow2 (m e : Z) :
  (Z.abs m <= 2 ^ prec)%Z -> (emin <= e)%Z -> format (F2R m e).
Proof.
  intros Hm He.
  destruct (Z.eq_dec (Z.abs m) (2 ^ prec)) as [Heq|Hne].
  - assert (Hm2 : m = (m / 2 * 2 ^ 1)%Z).
    { change (2 ^ prec)%Z with 9007199254740992%Z in Heq.
      change (2 ^ 1)%Z with 2%Z.
      assert (m = 9007199254740992 \/ m = - 9007199254740992)%Z as [-> | ->] by lia;
        reflexivity. }
    rewrite Hm2. replace e with ((e + 1) - 1)%Z by lia.
    rewrite F2R_shift by lia. apply format_F2R; [|lia].
    change (2 ^ prec)%Z with 9007199254740992%Z in *.
    assert (m = 9007199254740992 \/ m = - 9007199254740992)%Z as [-> | ->] by lia;
      reflexivity.
  - apply format_F2R; [lia | assumption].
Qed.

(** Between two neighbours of the grid at the canonical exponent of a value
    there is no other point of the grid. *)
Lemma grid_gap (m1 e1 : Z) (f : R) :
  (0 <= m1)%Z -> (emin <= e1)%Z -> (e1 = emin \/ 2 ^ (prec - 1) <= m1)%Z ->
  format f -> F2R m1 e1 < f -> F2R (m1 + 1) e1 <= f.
Proof.
  intros Hm He Hn [M [E [Hf [HM HE]]]] Hlt.
  pose proof (bpow_pos e1) as Hb1. pose proof (bpow_pos E) as HbE.
  destruct (Z_le_gt_dec e1 E) as [Hle|Hgt].
  - (* [f] is a multiple of [2^e1] *)
    assert (Hf' : f = F2R (M * 2 ^ (E - e1)) e1).
    { rewrite Hf. replace e1 with (E - (E - e1))%Z at 2 by lia.
      symmetry. apply F2R_shift. lia. }
    rewrite Hf' in *. unfold F2R in *.
    assert (IZR m1 < IZR (M * 2 ^ (E - e1))) by nra.
    apply lt_IZR in H.
    assert (IZR (m1 + 1) <= IZR (M * 2 ^ (E - e1))) by (apply IZR_le; lia).
    nra.
  - (* [f] is below the normal range of [e1] *)
    exfalso. destruct Hn as [Hn|Hn]; [lia|].
    assert (HM' : IZR M < bpow prec).
    { rewrite bpow_IZR by (unfold prec; lia). apply IZR_lt. lia. }
    assert (Hm1 : bpow (prec - 1) <= IZR m1).
    { rewrite bpow_IZR by (unfold prec; lia). apply IZR_le. assumption. }
    assert (HE1 : bpow (prec + E) <= bpow (prec - 1 + e1)) by (apply bpow_le; lia).
    rewrite !bpow_add in HE1.
    rewrite Hf in Hlt. unfold F2R in Hlt.
    pose proof (bpow_pos prec). pose proof (bpow_pos (prec - 1)).
    nra.
Qed.

Lemma round_nearest_even_spec (x : R) (mrs : shr_record) (e : Z) :
  rec_loc x mrs e ->
  let m2 := round_nearest_even (shr_m mrs) (loc_of_shr_record mrs) in
  (m2 = shr_m mrs \/ m2 = (shr_m mrs + 1)%Z)
  /\ Rabs (F2R m2 e - x) <= Rabs (F2R (shr_m mrs) e - x)
  /\ Rabs (F2R m2 e - x) <= Rabs (F2R (shr_m mrs + 1) e - x).
Proof.
  intros [d [Hx Hd]]. destruct mrs as [m r s]. cbn [shr_m shr_r shr_s] in *.
  pose proof (bpow_pos e) as Hb.
  assert (Ha : F2R m e - x = - ((if r then / 2 else 0) + d) * bpow e).
  { unfold F2R. rewrite Hx. ring. }
  assert (Hb' : F2R (m + 1) e - x = (1 - ((if r then / 2 else 0) + d)) * bpow e).
  { unfold F2R. rewrite Hx, plus_IZR. ring. }
  assert (Habs1 : Rabs (F2R m e - x) = ((if r then / 2 else 0) + d) * bpow e).
  { rewrite Ha. rewrite Rabs_left1; [ring|]. destruct r, s; nra. }
  assert (Habs2 : Rabs (F2R (m + 1) e - x) = (1 - ((if r then / 2 else 0) + d)) * bpow e).
  { rewrite Hb'. rewrite Rabs_right; [ring|]. destruct r, s; nra. }
  destruct r, s; cbn [loc_of_shr_record round_nearest_even].
  - (* above the middle *)
    split; [right; reflexivity|]. rewrite Habs1, Habs2. split; nra.
  - (* the middle *)
    destruct (Z.even m).
    + split; [left; reflexivity|]. rewrite Habs1, Habs2. split; nra.
    + split; [right; reflexivity|]. rewrite Habs1, Habs2. split; nra.
  - split; [left; reflexivity|]. rewrite Habs1, Habs2. split; nra.
  - split; [left; reflexivity|]. rewrite Habs1, Habs2. split; nra.
Qed.

(** A value between two neighbours of the grid is rounded to a nearest
    point of the whole grid when it is rounded to the nearer neighbour. *)
Lemma nearest_of_neighbours (x : R) (m1 m2 e1 : Z) :
  (0 <= m1 < 2 ^ prec)%Z -> (emin <= e1)%Z ->
  (e1 = emin \/ 2 ^ (prec - 1) <= m1)%Z ->
  F2R m1 e1 <= x < F2R (m1 + 1) e1 ->
  (m2 = m1 \/ m2 = (m1 + 1)%Z) ->
  Rabs (F2R m2 e1 - x) <= Rabs (F2R m1 e1 - x) ->
  Rabs (F2R m2 e1 - x) <= Rabs (F2R (m1 + 1) e1 - x) ->
  nearest x (F2R m2 e1).
Proof.
  intros Hm He Hn Hx Hm2 Hd1 Hd2. split.
  - apply format_pow2; [|assumption]. lia.
  - intros f Hf.
    destruct (Rle_or_lt f (F2R m1 e1)) as [Hle|Hgt].
    + eapply Rle_trans; [exact Hd1|].
      rewrite Rabs_left1 by lra. rewrite Rabs_left1 by lra. lra.
    + pose proof (grid_gap m1 e1 f (proj1 Hm) He Hn Hf Hgt) as Hge.
      eapply Rle_trans; [exact Hd2|].
      rewrite Rabs_right by lra. rewrite Rabs_right by lra. lra.
Qed.

End Grid.

(** ** Rounding a located value *)

Section RoundAux.

Local Open Scope R_scope.

Lemma shr_fexp_exact_small (m e : Z) :
  (0 <= m < 2 ^ prec)%Z -> (emin <= e)%Z ->
  shr_fexp prec emax m e loc_Exact = (Build_shr_record m false false, e).
Proof.
  intros Hm He. unfold shr_fexp, shr. cbn [shr_record_of_loc].
  assert (Hn : (fexp prec emax (Zdigits2 m + e) - e <= 0)%Z).
  { rewrite fexp_eq. unfold emin in He. simpl in He.
    destruct (Z.eq_dec m 0) as [->|Hm0].
    - simpl Zdigits2. lia.
    - assert (Hd : (Zdigits2 m <= 53)%Z).
      { destruct (Zdigits2_bounds m ltac:(lia)) as [Hlo _].
        destruct (Z_le_gt_dec (Zdigits2 m) 53) as [|Hgt]; [assumption|].
        assert (2 ^ 53 <= 2 ^ (Zdigits2 m - 1))%Z by (apply Z.pow_le_mono_r; lia).
        change prec with 53%Z in Hm. lia. }
      lia. }
  destruct (fexp prec emax (Zdigits2 m + e) - e)%Z; try reflexivity. lia.
Qed.

Lemma shr_fexp_exact_pow (e : Z) :
  (emin <= e)%Z ->
  shr_fexp prec emax (2 ^ prec) e loc_Exact
  = (Build_shr_record (2 ^ (prec - 1)) false false, (e + 1)%Z).
Proof.
  intros He. unfold shr_fexp, shr. cbn [shr_record_of_loc].
  change (Zdigits2 (2 ^ prec)) with 54%Z.
  rewrite fexp_eq. unfold emin in He. simpl in He.
  replace (Z.max (54 + e - 53) (-1074) - e)%Z with 1%Z by lia.
  reflexivity.
Qed.

Lemma canonical_small (p : positive) (e : Z) :
  (Zpos p < 2 ^ prec)%Z -> (e = emin \/ 2 ^ (prec - 1) <= Zpos p)%Z ->
  (emin <= e)%Z ->
  canonical_mantissa prec emax p e = true.
Proof.
  intros Hp Hn He. unfold canonical_mantissa. apply Z.eqb_eq.
  rewrite fexp_eq. unfold emin in *. simpl in He.
  change (Z.pos (digits2_pos p)) with (Zdigits2 (Zpos p)).
  destruct (Zdigits2_bounds (Zpos p) ltac:(lia)) as [Hlo Hhi].
  assert (Hd : (Zdigits2 (Zpos p) <= 53)%Z).
  { destruct (Z_le_gt_dec (Zdigits2 (Zpos p)) 53) as [|Hgt]; [assumption|].
    assert (2 ^ 53 <= 2 ^ (Zdigits2 (Zpos p) - 1))%Z by (apply Z.pow_le_mono_r; lia).
    change prec with 53%Z in Hp. lia. }
  destruct Hn as [Hn|Hn].
  - simpl in Hn. lia.
  - assert (Hd' : (53 <= Zdigits2 (Zpos p))%Z).
    { destruct (Z_le_gt_dec 53 (Zdigits2 (Zpos p))) as [|Hgt]; [assumption|].
      assert (2 ^ Zdigits2 (Zpos p) <= 2 ^ 52)%Z by (apply Z.pow_le_mono_r; lia).
      change (prec - 1)%Z with 52%Z in Hn. lia. }
    lia.
Qed.

(** The heart of every operation: a magnitude located at or below its
    canonical exponent is rounded to a nearest double. *)
Theorem binary_round_aux_correct (sx : bool) (x : R) (mx ex : Z) (lx : location) :
  (0 <= mx)%Z -> loc_of x mx ex lx ->
  (ex <= fexp prec emax (Zdigits2 mx + ex))%Z ->
  rounds_abs sx x (binary_round_aux prec emax sx mx ex lx).
Proof.
  intros Hm Hl He.
  destruct (shr_fexp_loc x mx ex lx Hm Hl He) as [H1 [H1m H1e]].
  unfold binary_round_aux.
  destruct (shr_fexp prec emax mx ex lx) as [mrs1 e1'] eqn:E1.
  cbn [fst snd] in H1, H1m, H1e. subst e1'.
  set (e1 := fexp prec emax (Zdigits2 mx + ex)) in *.
  set (m1 := shr_m mrs1) in *.
  pose proof (rec_loc_bounds x _ _ H1) as Hx1. fold m1 in Hx1.
  pose proof (rec_loc_bounds x _ _ Hl) as Hx0. rewrite shr_m_of_loc in Hx0.
  pose proof (bpow_pos e1) as Hb1. pose proof (bpow_pos ex) as Hbx.
  assert (He1 : (emin <= e1)%Z).
  { unfold e1. rewrite fexp_eq. unfold emin. simpl. lia. }
  (* the value is below [2^(digits + ex)] *)
  assert (Hup : x < bpow (Zdigits2 mx + ex)).
  { rewrite bpow_add.
    assert (IZR mx + 1 <= bpow (Zdigits2 mx)).
    { destruct (Z.eq_dec mx 0) as [->|Hm0].
      - change (Zdigits2 0) with 0%Z. rewrite bpow_0. lra.
      - destruct (Zdigits2_bounds mx ltac:(lia)) as [_ Hhi].
        rewrite bpow_IZR by apply Zdigits2_nonneg.
        rewrite <- plus_IZR. apply IZR_le. lia. }
    nra. }
  assert (HA : (m1 < 2 ^ prec)%Z).
  { apply lt_IZR. rewrite <- bpow_IZR by (unfold prec; lia).
    assert (bpow (Zdigits2 mx + ex) <= bpow prec * bpow e1).
    { rewrite <- bpow_add. apply bpow_le. unfold e1. rewrite fexp_eq.
      change prec with 53%Z. lia. }
    apply (Rmult_lt_reg_r (bpow e1)); [assumption | lra]. }
  assert (HB : (e1 = emin \/ 2 ^ (prec - 1) <= m1)%Z).
  { destruct (Z.eq_dec e1 emin) as [|Hne]; [left; assumption|right].
    assert (He1' : e1 = (Zdigits2 mx + ex - prec)%Z).
    { unfold e1 in *. rewrite fexp_eq in *. unfold emin in *. simpl in Hne.
      change prec with 53%Z. lia. }
    assert (Hmx : (0 < mx)%Z).
    { destruct (Z.eq_dec mx 0) as [Hm0|]; [|lia].
      rewrite Hm0 in He1'. simpl in He1'. change prec with 53%Z in He1'.
      fold e1 in He. lia. }
    destruct (Zdigits2_bounds mx Hmx) as [Hlo _].
    assert (Hlo' : bpow (Zdigits2 mx - 1) <= IZR mx).
    { pose proof (Zdigits2_pos mx Hmx).
      rewrite bpow_IZR by lia. apply IZR_le. assumption. }
    assert (Hx2 : bpow (prec - 1) * bpow e1 <= x).
    { rewrite <- bpow_add.
      replace (prec - 1 + e1)%Z with ((Zdigits2 mx - 1) + ex)%Z by lia.
      rewrite bpow_add. nra. }
    assert (bpow (prec - 1) < IZR m1 + 1).
    { apply (Rmult_lt_reg_r (bpow e1)); [assumption | lra]. }
    rewrite bpow_IZR in H by (unfold prec; lia).
    rewrite <- plus_IZR in H. apply lt_IZR in H. lia. }
  destruct (round_nearest_even_spec x mrs1 e1 H1) as [Hm2 [Hd1 Hd2]].
  fold m1 in Hm2, Hd1, Hd2.
  set (m2 := round_nearest_even m1 (loc_of_shr_record mrs1)) in *.
  assert (Hx1' : F2R m1 e1 <= x < F2R (m1 + 1) e1).
  { unfold F2R. rewrite plus_IZR. exact Hx1. }
  assert (Hnear : nearest x (F2R m2 e1)).
  { apply (nearest_of_neighbours x m1 m2 e1); auto. }
  destruct (Z.eq_dec m2 (2 ^ prec)) as [Hpow|Hnpow].
  - (* the mantissa was rounded up to [2^prec] *)
    rewrite Hpow, shr_fexp_exact_pow by assumption. cbn [shr_m].
    change (2 ^ (prec - 1))%Z with (Zpos 4503599627370496).
    assert (Hv : F2R m2 e1 = F2R (Z.pos 4503599627370496) (e1 + 1)).
    { rewrite Hpow. change (2 ^ prec)%Z with (4503599627370496 * 2 ^ 1)%Z.
      replace e1 with ((e1 + 1) - 1)%Z at 1 by lia. apply F2R_shift. lia. }
    rewrite Hv in Hnear.
    destruct (e1 + 1 <=? emax - prec)%Z eqn:Hov; cbn [rounds_abs].
    + split; [reflexivity|]. split; [|assumption].
      unfold bounded. rewrite Hov, andb_true_r.
      apply canonical_small; [reflexivity | right; simpl; lia | lia].
    + split; [reflexivity|]. eexists. split; [exact Hnear|].
      apply Z.leb_gt in Hov. unfold F2R.
      change (IZR (Z.pos 4503599627370496)) with (IZR (2 ^ 52)).
      rewrite <- bpow_IZR by lia. rewrite <- bpow_add.
      apply bpow_le. change prec with 53%Z in Hov. lia.
  - rewrite shr_fexp_exact_small by lia. cbn [shr_m].
    destruct m2 as [|p|p] eqn:Em2; [| |lia].
    + cbn [rounds_abs]. split; [reflexivity|].
      rewrite F2R_0 in Hnear. assumption.
    + assert (Hp : (Zpos p < 2 ^ prec)%Z) by lia.
      assert (Hn : (e1 = emin \/ 2 ^ (prec - 1) <= Zpos p)%Z) by lia.
      destruct (e1 <=? emax - prec)%Z eqn:Hov; cbn [rounds_abs].
      * split; [reflexivity|]. split; [|assumption].
        unfold bounded. rewrite Hov, andb_true_r.
        apply canonical_small; assumption.
      * split; [reflexivity|]. eexists. split; [exact Hnear|].
        apply Z.leb_gt in Hov.
        destruct Hn as [Hn|Hn].
        { rewrite Hn in Hov. unfold emin in Hov. simpl in Hov. lia. }
        unfold F2R.
        assert (bpow (prec - 1) <= IZR (Z.pos p)).
        { rewrite bpow_IZR by (unfold prec; lia). apply IZR_le. assumption. }
        assert (bpow emax <= bpow (prec - 1) * bpow e1).
        { rewrite <- bpow_add. apply bpow_le. change prec with 53%Z in *. lia. }
        pose proof (bpow_pos (prec - 1)). nra.
Qed.

End RoundAux.

(** ** Consequences of rounding to nearest *)

Section Nearest.

Local Open Scope R_scope.

Lemma nearest_le (x r f : R) : nearest x r -> format f -> x <= f -> r <= f.
Proof.
  intros [_ Hn] Hf Hxf. specialize (Hn f Hf).
  destruct (Rle_or_lt r f) as [|Hgt]; [assumption|exfalso].
  rewrite (Rabs_right (f - x)) in Hn by lra.
  rewrite (Rabs_right (r - x)) in Hn by lra. lra.
Qed.

Lemma nearest_ge (x r f : R) : nearest x r -> format f -> f <= x -> f <= r.
Proof.
  intros [_ Hn] Hf Hxf. specialize (Hn f Hf).
  destruct (Rle_or_lt f r) as [|Hgt]; [assumption|exfalso].
  rewrite (Rabs_left1 (f - x)) in Hn by lra.
  rewrite (Rabs_left1 (r - x)) in Hn by lra. lra.
Qed.

Lemma nearest_exact (x r : R) : format x -> nearest x r -> r = x.
Proof.
  intros Hx Hn. apply Rle_antisym.
  - apply (nearest_le x r x); auto; lra.
  - apply (nearest_ge x r x); auto; lra.
Qed.

Lemma nearest_refl (x : R) : format x -> nearest x x.
Proof.
  intros Hx. split; [assumption|]. intros f _.
  replace (x - x) with 0 by ring. rewrite Rabs_R0. apply Rabs_pos.
Qed.

(** Rounding to nearest is monotone. *)
Lemma nearest_mono (x y rx ry : R) :
  nearest x rx -> nearest y ry -> x < y -> rx <= ry.
Proof.
  intros [Hfx Hnx] [Hfy Hny] Hxy.
  specialize (Hnx ry Hfy). specialize (Hny rx Hfx).
  destruct (Rle_or_lt rx ry) as [|Hgt]; [assumption|exfalso].
  unfold Rabs in Hnx, Hny.
  destruct (Rcase_abs (rx - x)), (Rcase_abs (ry - x)),
    (Rcase_abs (ry - y)), (Rcase_abs (rx - y)); lra.
Qed.

Lemma nearest_opp (x r : R) : nearest x r -> nearest (- x) (- r).
Proof.
  intros [Hf Hn]. split; [apply format_opp; assumption|].
  intros f Hf'. specialize (Hn (- f) (format_opp f Hf')).
  replace (- r - - x) with (- (r - x)) by ring.
  replace (f - - x) with (- (- f - x)) by ring.
  rewrite !Rabs_Ropp. assumption.
Qed.

Lemma SF2R_cond_opp (s : bool) (m : positive) (e : Z) :
  SF2R (S754_finite s m e) = if s then - F2R (Zpos m) e else F2R (Zpos m) e.
Proof.
  destruct s; simpl; [|reflexivity].
  change (Z.neg m) with (- Z.pos m)%Z. apply F2R_opp.
Qed.

Lemma F2R_pos (m : positive) (e : Z) : 0 < F2R (Zpos m) e.
Proof.
  unfold F2R. apply Rmult_lt_0_compat; [|apply bpow_pos].
  apply IZR_lt. lia.
Qed.

(** From a magnitude and a sign to the signed value. *)
Lemma rounds_abs_to (sx : bool) (x : R) (z : spec_float) :
  0 <= x -> rounds_abs sx x z -> rounds_to (if sx then - x else x) z.
Proof.
  intros Hx0. destruct z as [s|s| |s m e]; cbn [rounds_abs rounds_to].
  - intros [-> Hn]. destruct sx; [|assumption].
    replace 0 with (- 0) by ring. apply nearest_opp. assumption.
  - intros [-> [r [Hn Hr]]]. pose proof (bpow_pos emax) as Hb.
    destruct sx.
    + exists (- r). split; [apply nearest_opp; assumption|].
      rewrite Rabs_Ropp, Rabs_right by lra. split; [assumption|].
      split; [lra | discriminate].
    + exists r. split; [assumption|]. rewrite Rabs_right by lra.
      split; [assumption|]. split; [reflexivity | lra].
  - tauto.
  - intros [-> [Hb Hn]]. split; [assumption|].
    rewrite SF2R_cond_opp. destruct sx; [apply nearest_opp|]; assumption.
Qed.

(** Membership in the grid of the value of a valid float. *)
Lemma bounded_digits (m : positive) (e : Z) :
  bounded prec emax m e = true ->
  (Zpos m < 2 ^ prec)%Z /\ (emin <= e <= emax - prec)%Z
  /\ (e = emin \/ 2 ^ (prec - 1) <= Zpos m)%Z.
Proof.
  unfold bounded, canonical_mantissa. intros H.
  apply andb_true_iff in H. destruct H as [Hc He].
  apply Z.eqb_eq in Hc. apply Z.leb_le in He. rewrite fexp_eq in Hc.
  change (Z.pos (digits2_pos m)) with (Zdigits2 (Zpos m)) in Hc.
  destruct (Zdigits2_bounds (Zpos m) ltac:(lia)) as [Hlo Hhi].
  unfold emin. change prec with 53%Z in *. change emax with 1024%Z in *.
  simpl Z.sub.
  assert (Hd : (Zdigits2 (Zpos m) <= 53)%Z) by lia.
  assert (2 ^ Zdigits2 (Zpos m) <= 2 ^ 53)%Z by (apply Z.pow_le_mono_r; lia).
  split; [lia|]. split; [lia|].
  destruct (Z.eq_dec e (-1074)) as [|Hne]; [left; assumption|right].
  assert (Zdigits2 (Zpos m) = 53)%Z by lia.
  rewrite H0 in Hlo. exact Hlo.
Qed.

Lemma format_bounded (s : bool) (m : positive) (e : Z) :
  bounded prec emax m e = true -> format (SF2R (S754_finite s m e)).
Proof.
  intros H. destruct (bounded_digits m e H) as [Hm [He _]].
  unfold SF2R. apply format_F2R; [|lia].
  destruct s; cbn [cond_Zopp Z.opp Z.abs]; exact Hm.
Qed.

Lemma bounded_lt_emax (s : bool) (m : positive) (e : Z) :
  bounded prec emax m e = true ->
  Rabs (SF2R (S754_finite s m e)) < bpow emax.
Proof.
  intros H. destruct (bounded_digits m e H) as [Hm [He _]].
  rewrite SF2R_cond_opp. pose proof (F2R_pos m e) as Hp.
  assert (F2R (Zpos m) e < bpow emax).
  { unfold F2R.
    assert (IZR (Zpos m) < bpow prec).
    { rewrite bpow_IZR by (unfold prec; lia). apply IZR_lt. assumption. }
    assert (bpow prec * bpow e <= bpow emax).
    { rewrite <- bpow_add. apply bpow_le. lia. }
    pose proof (bpow_pos e). nra. }
  destruct s; [rewrite Rabs_Ropp|]; rewrite Rabs_right; lra.
Qed.

(** A correct rounding of a value between two points of the grid that are
    doubles is a double between them. *)
Lemma rounds_to_bounds (y lo hi : R) (z : spec_float) :
  rounds_to y z -> format lo -> format hi -> lo <= y <= hi ->
  - bpow emax < lo -> hi < bpow emax ->
  SF_is_real z = true /\ lo <= SF2R z <= hi.
Proof.
  intros Hr Hlo Hhi Hy Hlo' Hhi'.
  destruct z as [s|s| |s m e]; cbn [rounds_to] in Hr.
  - split; [reflexivity|]. simpl.
    split; [apply (nearest_ge y 0 lo) | apply (nearest_le y 0 hi)]; tauto.
  - exfalso. destruct Hr as [r [Hn [Hr _]]].
    pose proof (nearest_le y r hi Hn Hhi (proj2 Hy)).
    pose proof (nearest_ge y r lo Hn Hlo (proj1 Hy)).
    unfold Rabs in Hr. destruct (Rcase_abs r); lra.
  - tauto.
  - destruct Hr as [Hb Hn]. split; [reflexivity|].
    split; [apply (nearest_ge y _ lo) | apply (nearest_le y _ hi)]; tauto.
Qed.

End Nearest.

(** ** Division *)

Section Division.

Local Open Scope R_scope.

Lemma new_location_loc (x : R) (q n k e : Z) :
  (0 < n)%Z -> (0 <= k < n)%Z ->
  x = (IZR q + IZR k / IZR n) * bpow e ->
  loc_of x q e (new_location n k).
Proof.
  intros Hn Hk Hx. unfold loc_of, rec_loc.
  set (t := IZR k / IZR n) in *.
  assert (HN : 0 < IZR n) by (apply IZR_lt; assumption).
  assert (Ht : t * IZR n = IZR k) by (unfold t; field; lra).
  assert (Hlt : forall a b : Z, (a < b)%Z -> IZR a < IZR b) by (intros; now apply IZR_lt).
  assert (Hk0 : 0 <= IZR k) by (apply IZR_le; lia).
  assert (Hkn : IZR k < IZR n) by (apply IZR_lt; lia).
  assert (Ht1 : 0 <= t < 1).
  { split.
    - apply (Rmult_le_reg_r (IZR n)); [assumption|]. lra.
    - apply (Rmult_lt_reg_r (IZR n)); [assumption|]. lra. }
  assert (Hkpos : k <> 0%Z -> 0 < t).
  { intros Hk0'. apply (Rmult_lt_reg_r (IZR n)); [assumption|].
    rewrite Ht, Rmult_0_l. apply IZR_lt. lia. }
  assert (Hzero : k = 0%Z -> t = 0).
  { intros Hk0'. rewrite Hk0' in Ht. nra. }
  unfold new_location.
  destruct (Z.even n) eqn:Hev; [unfold new_location_even | unfold new_location_odd];
    destruct (Z.eqb_spec k 0) as [Hk0'|Hk0'].
  - exists 0. cbn [shr_record_of_loc shr_m shr_r shr_s].
    split; [rewrite Hx, (Hzero Hk0'); ring | reflexivity].
  - specialize (Hkpos Hk0').
    destruct (Z.compare_spec (2 * k) n) as [Heq|Hlt2|Hgt2].
    + exists 0. cbn [shr_record_of_loc shr_m shr_r shr_s].
      split; [|reflexivity].
      assert (t = / 2).
      { apply (Rmult_eq_reg_r (IZR n)); [|lra].
        rewrite Ht, <- Heq, mult_IZR. lra. }
      rewrite Hx, H. ring.
    + exists t. cbn [shr_record_of_loc shr_m shr_r shr_s].
      split; [rewrite Hx; ring|]. split; [assumption|].
      apply (Rmult_lt_reg_r (IZR n)); [assumption|].
      apply Hlt in Hlt2. rewrite mult_IZR in Hlt2. lra.
    + exists (t - / 2). cbn [shr_record_of_loc shr_m shr_r shr_s].
      split; [rewrite Hx; ring|]. split; [|lra].
      apply (Rmult_lt_reg_r (IZR n)); [assumption|].
      apply Hlt in Hgt2. rewrite mult_IZR in Hgt2. lra.
  - exists 0. cbn [shr_record_of_loc shr_m shr_r shr_s].
    split; [rewrite Hx, (Hzero Hk0'); ring | reflexivity].
  - specialize (Hkpos Hk0').
    assert (Hodd : (2 * k <> n)%Z).
    { intros Heq. rewrite <- Heq, Z.even_mul in Hev. discriminate. }
    destruct (Z.compare_spec (2 * k + 1) n) as [Heq|Hlt2|Hgt2].
    + exists t. cbn [shr_record_of_loc shr_m shr_r shr_s].
      split; [rewrite Hx; ring|]. split; [assumption|].
      apply (Rmult_lt_reg_r (IZR n)); [assumption|].
      rewrite Ht, <- Heq, plus_IZR, mult_IZR. lra.
    + exists t. cbn [shr_record_of_loc shr_m shr_r shr_s].
      split; [rewrite Hx; ring|]. split; [assumption|].
      apply (Rmult_lt_reg_r (IZR n)); [assumption|].
      apply Hlt in Hlt2. rewrite plus_IZR, mult_IZR in Hlt2. lra.
    + exists (t - / 2). cbn [shr_record_of_loc shr_m shr_r shr_s].
      split; [rewrite Hx; ring|]. split; [|lra].
      apply (Rmult_lt_reg_r (IZR n)); [assumption|].
      assert (n < 2 * k)%Z by lia.
      apply Hlt in H. rewrite mult_IZR in H. lra.
Qed.

Lemma SFdiv_core_loc (m1 m2 : positive) (e1 e2 : Z) :
  let '(q, e', l) := SFdiv_core_binary prec emax (Zpos m1) e1 (Zpos m2) e2 in
  loc_of (F2R (Zpos m1) e1 / F2R (Zpos m2) e2) q e' l
  /\ (0 <= q)%Z
  /\ (e' <= fexp prec emax (Zdigits2 q + e'))%Z.
Proof.
  unfold SFdiv_core_binary.
  set (d1 := Zdigits2 (Zpos m1)). set (d2 := Zdigits2 (Zpos m2)).
  set (e' := Z.min (fexp prec emax (d1 + e1 - (d2 + e2))) (e1 - e2)).
  set (s := (e1 - e2 - e')%Z).
  assert (Hs : (0 <= s)%Z) by (unfold s, e'; lia).
  assert (Hm' : match s with
                | Zpos _ => Z.shiftl (Zpos m1) s
                | Z0 => Zpos m1
                | Zneg _ => 0%Z
                end = (Zpos m1 * 2 ^ s)%Z).
  { destruct s as [|p|p] eqn:Es; [lia | | lia].
    apply Z.shiftl_mul_pow2. lia. }
  rewrite Hm'. clear Hm'.
  pose proof (Z_div_mod (Zpos m1 * 2 ^ s) (Zpos m2) ltac:(lia)) as Hdiv.
  destruct (Z.div_eucl (Zpos m1 * 2 ^ s) (Zpos m2)) as [q r].
  destruct Hdiv as [Heq Hr].
  assert (Hp2 : (0 < 2 ^ s)%Z) by (apply Z.pow_pos_nonneg; lia).
  assert (Hq : (0 <= q)%Z) by nia.
  split; [|split; [assumption|]].
  - apply new_location_loc; [lia | assumption |].
    assert (HR : IZR (Zpos m1) * bpow s = IZR (Zpos m2) * IZR q + IZR r).
    { rewrite bpow_IZR by assumption.
      rewrite <- mult_IZR, <- mult_IZR, <- plus_IZR. now f_equal. }
    assert (He1 : bpow e1 = bpow s * bpow e2 * bpow e').
    { rewrite <- !bpow_add. f_equal. unfold s. lia. }
    unfold F2R. rewrite He1.
    assert (0 < IZR (Zpos m2)) by (apply IZR_lt; lia).
    pose proof (bpow_pos e2). pose proof (bpow_pos e'). pose proof (bpow_pos s).
    apply (Rmult_eq_reg_r (IZR (Z.pos m2))); [|lra].
    transitivity (IZR (Z.pos m1) * bpow s * bpow e'); [field; lra|].
    rewrite HR. field. lra.
  - rewrite fexp_eq.
    destruct (Z_le_gt_dec e' (-1074)) as [Hsmall|Hbig]; [lia|].
    (* a normal quotient: it carries at least [prec] bits *)
    assert (He' : (e' <= d1 + e1 - (d2 + e2) - 53)%Z).
    { unfold e'. unfold e' in Hbig. rewrite fexp_eq in *. lia. }
    destruct (Zdigits2_bounds (Zpos m1) ltac:(lia)) as [Hl1 Hh1].
    destruct (Zdigits2_bounds (Zpos m2) ltac:(lia)) as [Hl2 Hh2].
    fold d1 in Hl1, Hh1. fold d2 in Hl2, Hh2.
    pose proof (Zdigits2_pos (Zpos m1) ltac:(lia)) as Hd1. fold d1 in Hd1.
    pose proof (Zdigits2_pos (Zpos m2) ltac:(lia)) as Hd2. fold d2 in Hd2.
    set (t := (d1 - 1 + s - d2)%Z).
    assert (Ht : (52 <= t)%Z) by (unfold t, s; lia).
    assert (Hpow : (2 ^ (d1 - 1) * 2 ^ s = 2 ^ d2 * 2 ^ t)%Z).
    { rewrite <- !Z.pow_add_r by lia. f_equal. unfold t. lia. }
    assert (Hpt : (0 < 2 ^ t)%Z) by (apply Z.pow_pos_nonneg; lia).
    assert (H52 : (2 ^ 52 <= 2 ^ t)%Z) by (apply Z.pow_le_mono_r; lia).
    assert (Hq1 : (2 ^ t < q + 1)%Z).
    { apply (Z.mul_lt_mono_pos_l (Zpos m2)); [lia|]. nia. }
    assert (Hq52 : (2 ^ 52 <= q)%Z) by lia.
    assert (Hqpos : (0 < q)%Z) by lia.
    destruct (Zdigits2_bounds q Hqpos) as [_ Hhq].
    assert (Hdq : (53 <= Zdigits2 q)%Z).
    { destruct (Z_le_gt_dec 53 (Zdigits2 q)) as [|Hgt]; [assumption|].
      assert (2 ^ Zdigits2 q <= 2 ^ 52)%Z.
      { apply Z.pow_le_mono_r; lia. }
      lia. }
    lia.
Qed.

Lemma SFdiv_finite_rounds (sx : bool) (mx : positive) (ex : Z)
      (sy : bool) (my : positive) (ey : Z) :
  rounds_to (SF2R (S754_finite sx mx ex) / SF2R (S754_finite sy my ey))
            (SFdiv prec emax (S754_finite sx mx ex) (S754_finite sy my ey)).
Proof.
  cbn [SFdiv].
  pose proof (SFdiv_core_loc mx my ex ey) as Hc.
  destruct (SFdiv_core_binary prec emax (Zpos mx) ex (Zpos my) ey) as [[q e'] l].
  destruct Hc as [Hl [Hq He]].
  pose proof (F2R_pos mx ex) as Hx. pose proof (F2R_pos my ey) as Hy.
  pose proof (binary_round_aux_correct (xorb sx sy) _ q e' l Hq Hl He) as Hr.
  apply rounds_abs_to in Hr.
  - rewrite !SF2R_cond_opp.
    replace ((if sx then - F2R (Z.pos mx) ex else F2R (Z.pos mx) ex)
             / (if sy then - F2R (Z.pos my) ey else F2R (Z.pos my) ey))
      with (if xorb sx sy then - (F2R (Z.pos mx) ex / F2R (Z.pos my) ey)
            else F2R (Z.pos mx) ex / F2R (Z.pos my) ey); [assumption|].
    destruct sx, sy; simpl; field; lra.
  - apply Rlt_le. apply Rdiv_lt_0_compat; assumption.
Qed.

End Division.

(** ** Rounding an exact value: conversion, addition, multiplication *)

Section Exact.

Local Open Scope R_scope.

Lemma pos_iter_xO (m d : positive) :
  Zpos (Pos.iter xO m d) = (Zpos m * 2 ^ Zpos d)%Z.
Proof.
  rewrite <- Z.shiftl_mul_pow2 by lia. cbn [Z.shiftl].
  apply (Pos.iter_swap_gen _ _ Zpos xO (Z.mul 2)). intros a. reflexivity.
Qed.

Lemma loc_of_exact (m e : Z) : loc_of (F2R m e) m e loc_Exact.
Proof.
  exists 0. cbn [shr_record_of_loc shr_m shr_r shr_s].
  split; [unfold F2R; ring | reflexivity].
Qed.

(** What [shl_align] returns: the same value, at the smaller exponent. *)
Lemma shl_align_spec (m : positive) (e e' : Z) :
  let '(m', e'') := shl_align m e e' in
  F2R (Zpos m') e'' = F2R (Zpos m) e
  /\ e'' = Z.min e e'
  /\ Zpos m' = (Zpos m * 2 ^ (e - e''))%Z.
Proof.
  unfold shl_align. destruct (e' - e)%Z as [|d|d] eqn:Ed.
  - repeat split; [lia|]. replace (e - e)%Z with 0%Z by lia. simpl. lia.
  - repeat split; [lia|]. replace (e - e)%Z with 0%Z by lia. simpl. lia.
  - assert (Hd : (e - e' = Zpos d)%Z) by lia.
    rewrite Hd, pos_iter_xO. repeat split; [|lia].
    replace e' with (e - Zpos d)%Z by lia. apply F2R_shift. lia.
Qed.

Lemma Zdigits2_shift (m : positive) (k : Z) :
  (0 <= k)%Z -> Zdigits2 (Zpos m * 2 ^ k) = (Zdigits2 (Zpos m) + k)%Z.
Proof.
  intros Hk. assert (0 < 2 ^ k)%Z by (apply Z.pow_pos_nonneg; lia).
  destruct (Zdigits2_bounds (Zpos m) ltac:(lia)) as [Hlo Hhi].
  pose proof (Zdigits2_pos (Zpos m) ltac:(lia)) as Hd.
  apply Zdigits2_unique; [|lia].
  replace (Zdigits2 (Z.pos m) + k - 1)%Z with ((Zdigits2 (Z.pos m) - 1) + k)%Z by lia.
  rewrite !Z.pow_add_r by lia. nia.
Qed.

Lemma binary_round_correct (sx : bool) (mx : positive) (ex : Z) :
  rounds_abs sx (F2R (Zpos mx) ex) (binary_round prec emax sx mx ex).
Proof.
  unfold binary_round.
  pose proof (shl_align_spec mx ex (fexp prec emax (Zpos (digits2_pos mx) + ex))) as Hs.
  destruct (shl_align mx ex (fexp prec emax (Zpos (digits2_pos mx) + ex))) as [mz ez].
  destruct Hs as [Hv [He Hm]]. rewrite <- Hv.
  apply binary_round_aux_correct; [lia | apply loc_of_exact |].
  change (Z.pos (digits2_pos mx)) with (Zdigits2 (Zpos mx)) in *.
  rewrite Hm, Zdigits2_shift by lia.
  replace (Zdigits2 (Z.pos mx) + (ex - ez) + ez)%Z with (Zdigits2 (Z.pos mx) + ex)%Z by lia.
  lia.
Qed.

Lemma binary_normalize_rounds (m e : Z) (szero : bool) :
  rounds_to (F2R m e) (binary_normalize prec emax m e szero).
Proof.
  destruct m as [|p|p]; cbn [binary_normalize].
  - rewrite F2R_0. cbn [rounds_to]. apply nearest_refl, format_0.
  - apply (rounds_abs_to false); [apply Rlt_le, F2R_pos|].
    apply binary_round_correct.
  - change (Z.neg p) with (- Z.pos p)%Z. rewrite F2R_opp.
    apply (rounds_abs_to true (F2R (Z.pos p) e)); [apply Rlt_le, F2R_pos|].
    apply binary_round_correct.
Qed.

Lemma shl_align_min (sx : bool) (mx : positive) (ex ez : Z) :
  (ez <= ex)%Z ->
  F2R (cond_Zopp sx (Zpos (fst (shl_align mx ex ez)))) ez
  = SF2R (S754_finite sx mx ex).
Proof.
  intros Hz. pose proof (shl_align_spec mx ex ez) as Hs.
  destruct (shl_align mx ex ez) as [m' e'']. destruct Hs as [Hv [He _]].
  cbn [fst]. assert (Hmin : Z.min ex ez = ez) by lia.
  rewrite He, Hmin in Hv. clear He.
  rewrite SF2R_cond_opp, <- Hv. destruct sx; cbn [cond_Zopp]; [|reflexivity].
  apply F2R_opp.
Qed.

Lemma F2R_plus (a b e : Z) : F2R (a + b) e = F2R a e + F2R b e.
Proof. unfold F2R. rewrite plus_IZR. ring. Qed.

Lemma F2R_minus (a b e : Z) : F2R (a - b) e = F2R a e - F2R b e.
Proof. unfold F2R. rewrite minus_IZR. ring. Qed.

Lemma SFadd_finite_rounds (sx : bool) (mx : positive) (ex : Z)
      (sy : bool) (my : positive) (ey : Z) :
  rounds_to (SF2R (S754_finite sx mx ex) + SF2R (S754_finite sy my ey))
            (SFadd prec emax (S754_finite sx mx ex) (S754_finite sy my ey)).
Proof.
  cbn [SFadd].
  rewrite <- (shl_align_min sx mx ex (Z.min ex ey)) by lia.
  rewrite <- (shl_align_min sy my ey (Z.min ex ey)) by lia.
  rewrite <- F2R_plus. apply binary_normalize_rounds.
Qed.

Lemma SFsub_finite_rounds (sx : bool) (mx : positive) (ex : Z)
      (sy : bool) (my : positive) (ey : Z) :
  rounds_to (SF2R (S754_finite sx mx ex) - SF2R (S754_finite sy my ey))
            (SFsub prec emax (S754_finite sx mx ex) (S754_finite sy my ey)).
Proof.
  cbn [SFsub].
  rewrite <- (shl_align_min sx mx ex (Z.min ex ey)) by lia.
  rewrite <- (shl_align_min sy my ey (Z.min ex ey)) by lia.
  rewrite <- F2R_minus. apply binary_normalize_rounds.
Qed.

Lemma Zdigits2_mul_ge (mx my : positive) :
  (Zdigits2 (Zpos mx) + Zdigits2 (Zpos my) - 1 <= Zdigits2 (Zpos (mx * my)))%Z.
Proof.
  destruct (Zdigits2_bounds (Zpos mx) ltac:(lia)) as [Hlx _].
  destruct (Zdigits2_bounds (Zpos my) ltac:(lia)) as [Hly _].
  destruct (Zdigits2_bounds (Zpos (mx * my)) ltac:(lia)) as [_ Hh].
  pose proof (Zdigits2_pos (Zpos mx) ltac:(lia)) as Hdx.
  pose proof (Zdigits2_pos (Zpos my) ltac:(lia)) as Hdy.
  set (dx := Zdigits2 (Zpos mx)) in *. set (dy := Zdigits2 (Zpos my)) in *.
  set (d := Zdigits2 (Zpos (mx * my))) in *.
  assert (Hp : (2 ^ (dx - 1) * 2 ^ (dy - 1) = 2 ^ (dx + dy - 2))%Z).
  { rewrite <- Z.pow_add_r by lia. f_equal. lia. }
  assert (Hxy : (2 ^ (dx + dy - 2) <= Zpos (mx * my))%Z).
  { rewrite Pos2Z.inj_mul, <- Hp.
    assert (0 < 2 ^ (dx - 1))%Z by (apply Z.pow_pos_nonneg; lia).
    assert (0 < 2 ^ (dy - 1))%Z by (apply Z.pow_pos_nonneg; lia).
    nia. }
  destruct (Z_le_gt_dec (dx + dy - 1) d) as [|Hgt]; [assumption|].
  assert (2 ^ d <= 2 ^ (dx + dy - 2))%Z by (apply Z.pow_le_mono_r; lia).
  lia.
Qed.

Lemma SFmul_finite_rounds (sx : bool) (mx : positive) (ex : Z)
      (sy : bool) (my : positive) (ey : Z) :
  bounded prec emax mx ex = true -> bounded prec emax my ey = true ->
  rounds_to (SF2R (S754_finite sx mx ex) * SF2R (S754_finite sy my ey))
            (SFmul prec emax (S754_finite sx mx ex) (S754_finite sy my ey)).
Proof.
  intros Hbx Hby. cbn [SFmul].
  pose proof (F2R_pos mx ex) as Hx. pose proof (F2R_pos my ey) as Hy.
  assert (Hv : F2R (Zpos (mx * my)) (ex + ey) = F2R (Zpos mx) ex * F2R (Zpos my) ey).
  { unfold F2R. rewrite Pos2Z.inj_mul, mult_IZR, bpow_add. ring. }
  assert (Hr : rounds_abs (xorb sx sy) (F2R (Zpos (mx * my)) (ex + ey))
                 (binary_round_aux prec emax (xorb sx sy) (Zpos (mx * my)) (ex + ey) loc_Exact)).
  { apply binary_round_aux_correct; [lia | apply loc_of_exact |].
    pose proof (Zdigits2_mul_ge mx my) as Hd.
    unfold bounded, canonical_mantissa in Hbx, Hby.
    apply andb_true_iff in Hbx, Hby. destruct Hbx as [Hcx _], Hby as [Hcy _].
    apply Z.eqb_eq in Hcx, Hcy. rewrite fexp_eq in *.
    change (Z.pos (digits2_pos mx)) with (Zdigits2 (Zpos mx)) in Hcx.
    change (Z.pos (digits2_pos my)) with (Zdigits2 (Zpos my)) in Hcy.
    pose proof (Zdigits2_pos (Zpos mx) ltac:(lia)).
    pose proof (Zdigits2_pos (Zpos my) ltac:(lia)).
    lia. }
  apply rounds_abs_to in Hr; [|apply Rlt_le, F2R_pos].
  rewrite Hv in Hr. rewrite !SF2R_cond_opp.
  replace ((if sx then - F2R (Z.pos mx) ex else F2R (Z.pos mx) ex)
           * (if sy then - F2R (Z.pos my) ey else F2R (Z.pos my) ey))
    with (if xorb sx sy then - (F2R (Z.pos mx) ex * F2R (Z.pos my) ey)
          else F2R (Z.pos mx) ex * F2R (Z.pos my) ey); [assumption|].
  destruct sx, sy; simpl; ring.
Qed.

End Exact.

(** ** Comparison of doubles *)

Section Compare.

Local Open Scope R_scope.

Lemma bounded_exp_lt (m1 m2 : positive) (e1 e2 : Z) :
  bounded prec emax m1 e1 = true -> bounded prec emax m2 e2 = true ->
  (e1 < e2)%Z -> F2R (Zpos m1) e1 < F2R (Zpos m2) e2.
Proof.
  intros H1 H2 He.
  destruct (bounded_digits m1 e1 H1) as [Hm1 [He1 _]].
  destruct (bounded_digits m2 e2 H2) as [Hm2 [He2 Hn2]].
  destruct Hn2 as [Hn2|Hn2]; [lia|].
  unfold F2R.
  assert (A1 : IZR (Zpos m1) < bpow prec).
  { rewrite bpow_IZR by (unfold prec; lia). apply IZR_lt. assumption. }
  assert (A2 : bpow (prec - 1) <= IZR (Zpos m2)).
  { rewrite bpow_IZR by (unfold prec; lia). apply IZR_le. assumption. }
  assert (A3 : bpow prec * bpow e1 <= bpow (prec - 1) * bpow e2).
  { rewrite <- !bpow_add. apply bpow_le. lia. }
  pose proof (bpow_pos e1). pose proof (bpow_pos e2).
  pose proof (bpow_pos prec). pose proof (bpow_pos (prec - 1)).
  apply Rlt_le_trans with (bpow prec * bpow e1); [nra|].
  apply Rle_trans with (bpow (prec - 1) * bpow e2); [assumption|nra].
Qed.

Lemma compare_pos_real (m1 m2 : positive) (e1 e2 : Z) :
  bounded prec emax m1 e1 = true -> bounded prec emax m2 e2 = true ->
  cmp_real (Some match Z.compare e1 e2 with
                 | Lt => Lt
                 | Gt => Gt
                 | Eq => Pos.compare_cont Eq m1 m2
                 end) (F2R (Zpos m1) e1) (F2R (Zpos m2) e2).
Proof.
  intros H1 H2. destruct (Z.compare_spec e1 e2) as [He|He|He]; cbn [cmp_real].
  - subst e2. change (Pos.compare_cont Eq m1 m2) with (Pos.compare m1 m2).
    pose proof (bpow_pos e1). unfold F2R.
    destruct (Pos.compare_spec m1 m2) as [Hm|Hm|Hm].
    + now subst m2.
    + apply Rmult_lt_compat_r; [assumption|]. apply IZR_lt. lia.
    + apply Rmult_lt_compat_r; [assumption|]. apply IZR_lt. lia.
  - apply bounded_exp_lt; assumption.
  - apply bounded_exp_lt; assumption.
Qed.

(** On doubles that denote reals, [SFcompare] is the order of the reals. *)
Lemma SFcompare_real (x y : spec_float) :
  valid_binary x = true -> valid_binary y = true ->
  SF_is_real x = true -> SF_is_real y = true ->
  cmp_real (SFcompare x y) (SF2R x) (SF2R y).
Proof.
  intros Hvx Hvy Hrx Hry.
  destruct x as [sx|sx| |sx mx ex]; try discriminate;
    destruct y as [sy|sy| |sy my ey]; try discriminate;
    cbn [valid_binary] in Hvx, Hvy.
  - reflexivity.
  - cbn [SFcompare]. rewrite SF2R_cond_opp. pose proof (F2R_pos my ey).
    destruct sy; simpl; lra.
  - cbn [SFcompare]. rewrite SF2R_cond_opp. pose proof (F2R_pos mx ex).
    destruct sx; simpl; lra.
  - pose proof (F2R_pos mx ex). pose proof (F2R_pos my ey).
    pose proof (compare_pos_real mx my ex ey Hvx Hvy) as Hc.
    rewrite !SF2R_cond_opp. cbn [SFcompare].
    destruct sx, sy; cbn [cmp_real]; try lra.
    + destruct (ex ?= ey)%Z; cbn [cmp_real] in *; try lra.
      destruct (Pos.compare_cont Eq mx my); cbn [CompOpp cmp_real] in *; lra.
    + exact Hc.
Qed.

Lemma SFltb_real (x y : spec_float) :
  valid_binary x = true -> valid_binary y = true ->
  SF_is_real x = true -> SF_is_real y = true ->
  (SFltb x y = true <-> SF2R x < SF2R y).
Proof.
  intros Hvx Hvy Hrx Hry.
  pose proof (SFcompare_real x y Hvx Hvy Hrx Hry) as Hc. unfold SFltb.
  destruct (SFcompare x y) as [[| |]|]; cbn [cmp_real] in Hc;
    split; intros; try discriminate; try reflexivity; try lra; tauto.
Qed.

Lemma SFleb_real (x y : spec_float) :
  valid_binary x = true -> valid_binary y = true ->
  SF_is_real x = true -> SF_is_real y = true ->
  (SFleb x y = true <-> SF2R x <= SF2R y).
Proof.
  intros Hvx Hvy Hrx Hry.
  pose proof (SFcompare_real x y Hvx Hvy Hrx Hry) as Hc. unfold SFleb.
  destruct (SFcompare x y) as [[| |]|]; cbn [cmp_real] in Hc;
    split; intros; try discriminate; try reflexivity; try lra; tauto.
Qed.

(** Two finite doubles of the same value are the same double. *)
Lemma SF2R_finite_inj (s1 s2 : bool) (m1 m2 : positive) (e1 e2 : Z) :
  bounded prec emax m1 e1 = true -> bounded prec emax m2 e2 = true ->
  SF2R (S754_finite s1 m1 e1) = SF2R (S754_finite s2 m2 e2) ->
  S754_finite s1 m1 e1 = S754_finite s2 m2 e2.
Proof.
  intros H1 H2 Hv.
  pose proof (F2R_pos m1 e1). pose proof (F2R_pos m2 e2).
  pose proof (compare_pos_real m1 m2 e1 e2 H1 H2) as Hc.
  rewrite !SF2R_cond_opp in Hv.
  assert (Hs : s1 = s2) by (destruct s1, s2; try reflexivity; lra).
  subst s2.
  assert (Hv' : F2R (Zpos m1) e1 = F2R (Zpos m2) e2) by (destruct s1; lra).
  destruct (Z.compare_spec e1 e2) as [He|He|He]; cbn [cmp_real] in Hc; try lra.
  subst e2. change (Pos.compare_cont Eq m1 m2) with (Pos.compare m1 m2) in Hc.
  destruct (Pos.compare_spec m1 m2) as [Hm|Hm|Hm]; try lra.
  now subst m2.
Qed.

End Compare.

(** ** The operations on doubles that denote reals *)

Section Operations.

Local Open Scope R_scope.

Lemma rounds_to_valid (y : R) (z : spec_float) :
  rounds_to y z -> valid_binary z = true.
Proof. destruct z; cbn [rounds_to valid_binary]; tauto. Qed.

Lemma rounds_to_self (x : spec_float) :
  valid_binary x = true -> SF_is_real x = true -> rounds_to (SF2R x) x.
Proof.
  destruct x as [s|s| |s m e]; try discriminate; cbn [valid_binary rounds_to].
  - intros _ _. apply nearest_refl, format_0.
  - intros Hb _. split; [assumption|]. apply nearest_refl, format_bounded. assumption.
Qed.

Lemma SFadd_rounds (x y : spec_float) :
  valid_binary x = true -> valid_binary y = true ->
  SF_is_real x = true -> SF_is_real y = true ->
  rounds_to (SF2R x + SF2R y) (SFadd prec emax x y).
Proof.
  intros Hvx Hvy Hrx Hry.
  destruct x as [sx|sx| |sx mx ex]; try discriminate;
    destruct y as [sy|sy| |sy my ey]; try discriminate.
  - cbn [SFadd SF2R]. rewrite Rplus_0_l.
    destruct sx, sy; cbn [rounds_to]; apply nearest_refl, format_0.
  - cbn [SFadd]. replace (SF2R (S754_zero sx)) with 0 by reflexivity.
    rewrite Rplus_0_l. apply rounds_to_self; assumption.
  - cbn [SFadd]. replace (SF2R (S754_zero sy)) with 0 by reflexivity.
    rewrite Rplus_0_r. apply rounds_to_self; assumption.
  - apply SFadd_finite_rounds.
Qed.

Lemma SFsub_rounds (x y : spec_float) :
  valid_binary x = true -> valid_binary y = true ->
  SF_is_real x = true -> SF_is_real y = true ->
  rounds_to (SF2R x - SF2R y) (SFsub prec emax x y).
Proof.
  intros Hvx Hvy Hrx Hry.
  destruct x as [sx|sx| |sx mx ex]; try discriminate;
    destruct y as [sy|sy| |sy my ey]; try discriminate.
  - cbn [SFsub SF2R]. rewrite Rminus_0_r.
    destruct sx, sy; cbn [rounds_to]; apply nearest_refl, format_0.
  - cbn [SFsub]. replace (SF2R (S754_zero sx)) with 0 by reflexivity.
    rewrite Rminus_0_l.
    replace (- SF2R (S754_finite sy my ey)) with (SF2R (S754_finite (negb sy) my ey)).
    + apply rounds_to_self; [exact Hvy | reflexivity].
    + rewrite !SF2R_cond_opp. destruct sy; simpl; ring.
  - cbn [SFsub]. replace (SF2R (S754_zero sy)) with 0 by reflexivity.
    rewrite Rminus_0_r. apply rounds_to_self; assumption.
  - apply SFsub_finite_rounds.
Qed.

Lemma SFmul_rounds (x y : spec_float) :
  valid_binary x = true -> valid_binary y = true ->
  SF_is_real x = true -> SF_is_real y = true ->
  rounds_to (SF2R x * SF2R y) (SFmul prec emax x y).
Proof.
  intros Hvx Hvy Hrx Hry.
  destruct x as [sx|sx| |sx mx ex]; try discriminate;
    destruct y as [sy|sy| |sy my ey]; try discriminate.
  - cbn [SFmul SF2R rounds_to]. rewrite Rmult_0_l. apply nearest_refl, format_0.
  - cbn [SFmul rounds_to]. replace (SF2R (S754_zero sx)) with 0 by reflexivity.
    rewrite Rmult_0_l. apply nearest_refl, format_0.
  - cbn [SFmul rounds_to]. replace (SF2R (S754_zero sy)) with 0 by reflexivity.
    rewrite Rmult_0_r. apply nearest_refl, format_0.
  - apply SFmul_finite_rounds; assumption.
Qed.

Lemma SFdiv_rounds (x y : spec_float) :
  SF_is_real x = true -> SF_is_real y = true -> SF2R y <> 0 ->
  rounds_to (SF2R x / SF2R y) (SFdiv prec emax x y).
Proof.
  intros Hrx Hry Hy0.
  destruct x as [sx|sx| |sx mx ex]; try discriminate;
    destruct y as [sy|sy| |sy my ey]; try discriminate.
  - exfalso. apply Hy0. reflexivity.
  - cbn [SFdiv rounds_to]. replace (SF2R (S754_zero sx)) with 0 by reflexivity.
    unfold Rdiv. rewrite Rmult_0_l. apply nearest_refl, format_0.
  - exfalso. apply Hy0. reflexivity.
  - apply SFdiv_finite_rounds.
Qed.

Lemma SF2R_raw (n : Z) : SF2R (Z2SF_raw n) = IZR n.
Proof.
  destruct n as [|p|p]; cbn [Z2SF_raw SF2R cond_Zopp]; unfold F2R;
    rewrite ?bpow_0; try ring.
  change (- Z.pos p)%Z with (Z.neg p). ring.
Qed.

Lemma Z2SF_raw_real (n : Z) : SF_is_real (Z2SF_raw n) = true.
Proof. destruct n; reflexivity. Qed.

Lemma int_div_rounds (a b : Z) :
  b <> 0%Z ->
  rounds_to (IZR a / IZR b) (SFdiv prec emax (Z2SF_raw a) (Z2SF_raw b)).
Proof.
  intros Hb. rewrite <- !SF2R_raw.
  apply SFdiv_rounds; try apply Z2SF_raw_real.
  rewrite SF2R_raw. intros H. apply eq_IZR in H. contradiction.
Qed.

Lemma int_conv_rounds (n : Z) :
  rounds_to (IZR n) (binary_normalize prec emax n 0 false).
Proof.
  replace (IZR n) with (F2R n 0) by (unfold F2R; rewrite bpow_0; ring).
  apply binary_normalize_rounds.
Qed.

End Operations.

(** ** Primitive floats through their specification *)

Section Prim.

Local Open Scope R_scope.

Lemma SFcompare_refl (x : spec_float) :
  x <> S754_nan -> SFcompare x x = Some Eq.
Proof.
  destruct x as [s|s| |s m e]; intros H; try congruence; cbn [SFcompare].
  - reflexivity.
  - destruct s; reflexivity.
  - rewrite Z.compare_refl.
    change (Pos.compare_cont Eq m m) with (Pos.compare m m).
    rewrite Pos.compare_refl. destruct s; reflexivity.
Qed.

Lemma is_nan_spec (f : float) :
  is_nan f = match Prim2SF f with S754_nan => true | _ => false end.
Proof.
  unfold is_nan. rewrite eqb_spec. unfold SFeqb.
  destruct (Prim2SF f) as [s|s| |s m e] eqn:E; try reflexivity;
    rewrite SFcompare_refl by discriminate; reflexivity.
Qed.

Lemma is_infinity_spec (f : float) :
  is_infinity f = SF_is_infinity (Prim2SF f).
Proof.
  unfold is_infinity. rewrite eqb_spec, abs_spec.
  change (Prim2SF infinity) with (S754_infinity false).
  destruct (Prim2SF f) as [s|s| |s m e]; reflexivity.
Qed.

Lemma eqb_zero_spec (f : float) :
  (f =? 0)%float = match Prim2SF f with S754_zero _ => true | _ => false end.
Proof.
  rewrite eqb_spec. change (Prim2SF 0%float) with (S754_zero false).
  destruct (Prim2SF f) as [s|s| |s m e]; try reflexivity;
    destruct s; reflexivity.
Qed.

Lemma is_real_not_nan (f : float) : is_real f = true -> is_nan f = false.
Proof.
  unfold is_real. rewrite is_nan_spec.
  destruct (Prim2SF f); simpl; congruence.
Qed.

Lemma is_real_not_inf (f : float) : is_real f = true -> is_infinity f = false.
Proof.
  unfold is_real. rewrite is_infinity_spec.
  destruct (Prim2SF f); simpl; congruence.
Qed.

Lemma B2R_format (f : float) : is_real f = true -> format (B2R f).
Proof.
  unfold is_real, B2R. pose proof (Prim2SF_valid f) as Hv.
  destruct (Prim2SF f) as [s|s| |s m e]; try discriminate; intros _.
  - apply format_0.
  - apply format_bounded. exact Hv.
Qed.

Lemma B2R_lt_emax (f : float) : is_real f = true -> Rabs (B2R f) < bpow emax.
Proof.
  unfold is_real, B2R. pose proof (Prim2SF_valid f) as Hv.
  destruct (Prim2SF f) as [s|s| |s m e]; try discriminate; intros _.
  - change (SF2R (S754_zero s)) with 0. rewrite Rabs_R0. apply bpow_pos.
  - apply bounded_lt_emax. exact Hv.
Qed.

Lemma B2R_range (f : float) :
  is_real f = true -> - bpow emax < B2R f < bpow emax.
Proof.
  intros H. pose proof (B2R_lt_emax f H) as Hb.
  unfold Rabs in Hb. destruct (Rcase_abs (B2R f)); lra.
Qed.

Lemma add_rounds (a b : float) :
  is_real a = true -> is_real b = true ->
  rounds_to (B2R a + B2R b) (Prim2SF (a + b)).
Proof.
  intros Ha Hb. rewrite add_spec.
  apply SFadd_rounds; auto using Prim2SF_valid.
Qed.

Lemma sub_rounds (a b : float) :
  is_real a = true -> is_real b = true ->
  rounds_to (B2R a - B2R b) (Prim2SF (a - b)).
Proof.
  intros Ha Hb. rewrite sub_spec.
  apply SFsub_rounds; auto using Prim2SF_valid.
Qed.

Lemma mul_rounds (a b : float) :
  is_real a = true -> is_real b = true ->
  rounds_to (B2R a * B2R b) (Prim2SF (a * b)).
Proof.
  intros Ha Hb. rewrite mul_spec.
  apply SFmul_rounds; auto using Prim2SF_valid.
Qed.

Lemma div_rounds (a b : float) :
  is_real a = true -> is_real b = true -> B2R b <> 0 ->
  rounds_to (B2R a / B2R b) (Prim2SF (a / b)).
Proof.
  intros Ha Hb Hb0. rewrite div_spec. apply SFdiv_rounds; assumption.
Qed.

Lemma ltb_real (a b : float) :
  is_real a = true -> is_real b = true ->
  ((a <? b)%float = true <-> B2R a < B2R b).
Proof.
  intros Ha Hb. rewrite ltb_spec. apply SFltb_real; auto using Prim2SF_valid.
Qed.

Lemma leb_real (a b : float) :
  is_real a = true -> is_real b = true ->
  ((a <=? b)%float = true <-> B2R a <= B2R b).
Proof.
  intros Ha Hb. rewrite leb_spec. apply SFleb_real; auto using Prim2SF_valid.
Qed.

Lemma eqb_zero_real (a : float) :
  is_real a = true -> B2R a <> 0 -> (a =? 0)%float = false.
Proof.
  intros Ha H0. rewrite eqb_zero_spec. unfold B2R in H0.
  destruct (Prim2SF a); try reflexivity. exfalso. apply H0. reflexivity.
Qed.

(** A rounding that stays between two doubles is a double between them. *)
Lemma prim_bounds (y lo hi : R) (c : float) :
  rounds_to y (Prim2SF c) -> format lo -> format hi -> lo <= y <= hi ->
  - bpow emax < lo -> hi < bpow emax ->
  is_real c = true /\ lo <= B2R c <= hi.
Proof. apply rounds_to_bounds. Qed.

(** Two real doubles of the same non-zero value are the same double. *)
Lemma B2R_inj (a b : float) :
  is_real a = true -> is_real b = true ->
  B2R a = B2R b -> B2R a <> 0 -> a = b.
Proof.
  unfold is_real, B2R. intros Ha Hb Hv H0. apply Prim2SF_inj.
  pose proof (Prim2SF_valid a) as Hva. pose proof (Prim2SF_valid b) as Hvb.
  destruct (Prim2SF a) as [sa|sa| |sa ma ea]; try discriminate.
  - exfalso. apply H0. reflexivity.
  - destruct (Prim2SF b) as [sb|sb| |sb mb eb]; try discriminate.
    + exfalso. apply H0. rewrite Hv. reflexivity.
    + apply SF2R_finite_inj; assumption.
Qed.

(** Monotonicity of a correctly rounded result in the exact value. *)
Lemma rounds_to_mono (x y : R) (a b : float) :
  rounds_to x (Prim2SF a) -> rounds_to y (Prim2SF b) ->
  is_real a = true -> is_real b = true ->
  x < y -> B2R a <= B2R b.
Proof.
  unfold is_real, B2R. intros Hx Hy Ha Hb Hlt.
  assert (Nx : nearest x (SF2R (Prim2SF a))).
  { destruct (Prim2SF a); try discriminate; cbn [rounds_to] in Hx; tauto. }
  assert (Ny : nearest y (SF2R (Prim2SF b))).
  { destruct (Prim2SF b); try discriminate; cbn [rounds_to] in Hy; tauto. }
  exact (nearest_mono x y _ _ Nx Ny Hlt).
Qed.

End Prim.

(** ** The Python primitives on values that denote reals *)

Section PyPrim.

Local Open Scope R_scope.

Lemma F2R_int (j k : Z) : (0 <= k)%Z -> F2R (j * 2 ^ k) (- k) = IZR j.
Proof.
  intros Hk. replace (- k)%Z with (0 - k)%Z by lia.
  rewrite F2R_shift by assumption. unfold F2R. rewrite bpow_0. ring.
Qed.

Lemma format_IZR (j : Z) : (Z.abs j < 2 ^ prec)%Z -> format (IZR j).
Proof.
  intros Hj. replace (IZR j) with (F2R j 0) by (unfold F2R; rewrite bpow_0; ring).
  apply format_F2R; [assumption | unfold emin; simpl; lia].
Qed.

Lemma format_bpow (e : Z) : (emin <= e)%Z -> format (bpow e).
Proof.
  intros He. replace (bpow e) with (F2R 1 e) by (unfold F2R; ring).
  apply format_F2R; [reflexivity | assumption].
Qed.

Lemma IZR_lt_emax (j : Z) : (j < 2 ^ emax)%Z -> IZR j < bpow emax.
Proof.
  intros Hj. rewrite bpow_IZR by (unfold emax; lia). apply IZR_lt. assumption.
Qed.

Lemma int_truediv_bounds (a b : Z) (lo hi : R) :
  b <> 0%Z -> format lo -> format hi -> lo <= IZR a / IZR b <= hi ->
  - bpow emax < lo -> hi < bpow emax ->
  exists f : float,
    int_truediv a b = Ok f /\ is_real f = true /\ lo <= B2R f <= hi
    /\ rounds_to (IZR a / IZR b) (Prim2SF f).
Proof.
  intros Hb Hlo Hhi Hv Hlo' Hhi'. unfold int_truediv.
  destruct (Z.eqb_spec b 0) as [|_]; [contradiction|].
  pose proof (int_div_rounds a b Hb) as Hr.
  destruct (rounds_to_bounds _ lo hi _ Hr Hlo Hhi Hv Hlo' Hhi') as [Hreal Hbd].
  pose proof (rounds_to_valid _ _ Hr) as Hval.
  set (r := SFdiv prec emax (Z2SF_raw a) (Z2SF_raw b)) in *.
  assert (Hinf : SF_is_infinity r = false) by (destruct r; simpl in *; congruence).
  rewrite Hinf. exists (SF2Prim r).
  unfold is_real, B2R. rewrite Prim2SF_SF2Prim by assumption. auto.
Qed.

Lemma float_of_int_bounds (n : Z) (lo hi : R) :
  format lo -> format hi -> lo <= IZR n <= hi ->
  - bpow emax < lo -> hi < bpow emax ->
  exists f : float,
    float_of_int n = Ok f /\ is_real f = true /\ lo <= B2R f <= hi
    /\ rounds_to (IZR n) (Prim2SF f).
Proof.
  intros Hlo Hhi Hv Hlo' Hhi'. unfold float_of_int.
  pose proof (int_conv_rounds n) as Hr.
  destruct (rounds_to_bounds _ lo hi _ Hr Hlo Hhi Hv Hlo' Hhi') as [Hreal Hbd].
  pose proof (rounds_to_valid _ _ Hr) as Hval.
  set (r := binary_normalize prec emax n 0 false) in *.
  assert (Hinf : SF_is_infinity r = false) by (destruct r; simpl in *; congruence).
  rewrite Hinf. exists (SF2Prim r).
  unfold is_real, B2R. rewrite Prim2SF_SF2Prim by assumption. auto.
Qed.

(** The integer part of a non-negative double. *)
Lemma SF_trunc_spec (x : spec_float) :
  SF_is_real x = true -> 0 <= SF2R x ->
  IZR (SF_trunc x) <= SF2R x < IZR (SF_trunc x) + 1.
Proof.
  destruct x as [s|s| |s m e]; try discriminate; intros _ H0.
  - simpl. lra.
  - pose proof (F2R_pos m e) as Hp. rewrite SF2R_cond_opp in *.
    destruct s; [lra|]. cbn [SF_trunc].
    destruct e as [|p|p].
    + rewrite Z.shiftl_0_r. unfold F2R. rewrite bpow_0. lra.
    + rewrite Z.shiftl_mul_pow2 by lia. unfold F2R.
      rewrite mult_IZR, <- bpow_IZR by lia. lra.
    + rewrite Z.shiftr_div_pow2 by lia.
      assert (Hpos : (0 < 2 ^ Zpos p)%Z) by (apply Z.pow_pos_nonneg; lia).
      pose proof (Z.div_mod (Zpos m) (2 ^ Zpos p) ltac:(lia)) as Hdm.
      pose proof (Z.mod_pos_bound (Zpos m) (2 ^ Zpos p) Hpos) as Hmod.
      set (q := (Zpos m / 2 ^ Zpos p)%Z) in *.
      set (r := (Zpos m mod 2 ^ Zpos p)%Z) in *.
      unfold F2R. change (Z.neg p) with (- Z.pos p)%Z.
      rewrite bpow_opp, bpow_IZR by lia.
      assert (HP : 0 < IZR (2 ^ Z.pos p)) by (apply IZR_lt; assumption).
      rewrite Hdm, plus_IZR, mult_IZR.
      assert (0 <= IZR r) by (apply IZR_le; lia).
      assert (IZR r < IZR (2 ^ Z.pos p)) by (apply IZR_lt; lia).
      split.
      * apply (Rmult_le_reg_r (IZR (2 ^ Z.pos p))); [assumption|].
        field_simplify; [|lra]. lra.
      * apply (Rmult_lt_reg_r (IZR (2 ^ Z.pos p))); [assumption|].
        field_simplify; [|lra]. lra.
Qed.

Lemma py_int_real (f : float) (j : Z) :
  is_real f = true -> IZR j <= B2R f < IZR j + 1 -> (0 <= j)%Z ->
  py_int f = Ok j.
Proof.
  intros Hf Hj Hj0. unfold py_int.
  rewrite (is_real_not_nan f Hf), (is_real_not_inf f Hf). f_equal.
  assert (H0 : 0 <= B2R f).
  { apply Rle_trans with (IZR j); [apply IZR_le; assumption | tauto]. }
  pose proof (SF_trunc_spec (Prim2SF f) Hf H0) as Ht. unfold B2R in Hj.
  set (t := SF_trunc (Prim2SF f)) in *.
  assert (IZR t < IZR (j + 1)) by (rewrite plus_IZR; lra).
  assert (IZR j < IZR (t + 1)) by (rewrite plus_IZR; lra).
  apply lt_IZR in H, H1. lia.
Qed.

End PyPrim.

(** ** The digest as the source reads it *)

Section Digest.

Lemma hex_digit_roundtrip (d : Z) :
  0 <= d < 16 -> hex_digit_value (HMAC.hex_char d) = Some d.
Proof.
  intros Hd.
  assert (d = 0 \/ d = 1 \/ d = 2 \/ d = 3 \/ d = 4 \/ d = 5 \/ d = 6 \/ d = 7
          \/ d = 8 \/ d = 9 \/ d = 10 \/ d = 11 \/ d = 12 \/ d = 13 \/ d = 14
          \/ d = 15) as H by lia.
  repeat (destruct H as [-> | H]; [reflexivity|]). subst d. reflexivity.
Qed.

Lemma int16_from_byte (acc b : Z) (s : string) :
  0 <= b < 256 ->
  int16_from acc (String (HMAC.hex_char (b / 16))
                    (String (HMAC.hex_char (b mod 16)) s))
  = int16_from (256 * acc + b) s.
Proof.
  intros Hb. cbn [int16_from].
  rewrite !hex_digit_roundtrip by (Z.div_mod_to_equations; lia).
  f_equal. Z.div_mod_to_equations. lia.
Qed.

(** The first eight digits of a hexadecimal digest are its first four
    bytes, most significant first. *)
Lemma int16_first_word (b0 b1 b2 b3 : Z) (rest : list Z) :
  0 <= b0 < 256 -> 0 <= b1 < 256 -> 0 <= b2 < 256 -> 0 <= b3 < 256 ->
  int16 (str_slice 0 8 (HMAC.hex_of_bytes (b0 :: b1 :: b2 :: b3 :: rest)))
  = Ok (Spec.be_uint [b0; b1; b2; b3]).
Proof.
  intros H0 H1 H2 H3. cbn [HMAC.hex_of_bytes str_slice].
  unfold int16.
  rewrite !int16_from_byte by assumption. reflexivity.
Qed.

Lemma str_slice_skip_byte (i j : nat) (b : Z) (bs : list Z) :
  str_slice (S (S i)) (S (S j)) (HMAC.hex_of_bytes (b :: bs))
  = str_slice i j (HMAC.hex_of_bytes bs).
Proof. reflexivity. Qed.

Lemma int16_second_word (a0 a1 a2 a3 b0 b1 b2 b3 : Z) (rest : list Z) :
  0 <= b0 < 256 -> 0 <= b1 < 256 -> 0 <= b2 < 256 -> 0 <= b3 < 256 ->
  int16 (str_slice 8 16 (HMAC.hex_of_bytes
           (a0 :: a1 :: a2 :: a3 :: b0 :: b1 :: b2 :: b3 :: rest)))
  = Ok (Spec.be_uint [b0; b1; b2; b3]).
Proof.
  intros H0 H1 H2 H3. rewrite !str_slice_skip_byte.
  apply int16_first_word; assumption.
Qed.

Lemma bytes_of_word_range (x : Z) :
  Forall (fun b => 0 <= b < 256) (SHA256.bytes_of_word x).
Proof.
  unfold SHA256.bytes_of_word.
  repeat constructor; apply Z.mod_pos_bound; lia.
Qed.

Lemma be_uint_bytes_of_word (x : Z) :
  Spec.be_uint (SHA256.bytes_of_word x) = x mod 2 ^ 32.
Proof.
  unfold Spec.be_uint, SHA256.bytes_of_word. cbn [fold_left].
  change (2 ^ 32) with 4294967296. Z.div_mod_to_equations. lia.
Qed.

Lemma be_uint_range (x : Z) :
  0 <= Spec.be_uint (SHA256.bytes_of_word x) <= 0xFFFFFFFF.
Proof.
  rewrite be_uint_bytes_of_word.
  pose proof (Z.mod_pos_bound x (2 ^ 32) ltac:(lia)). simpl in *. lia.
Qed.

(** The two integers the source parses out of a digest are the first two
    words of the hash. *)
Lemma buckets_of_digest (h : SHA256.regs) :
  buckets_of_hexdigest (HMAC.hex_of_bytes (SHA256.bytes_of_regs h))
  = (bucket1 <- int_truediv (Spec.be_uint (SHA256.bytes_of_word (SHA256.ra h))) 0xFFFFFFFF ;;
     bucket2 <- int_truediv (Spec.be_uint (SHA256.bytes_of_word (SHA256.rb h))) 0xFFFFFFFF ;;
     Ok (bucket1, bucket2)).
Proof.
  unfold buckets_of_hexdigest, SHA256.bytes_of_regs.
  pose proof (bytes_of_word_range (SHA256.ra h)) as Ha.
  pose proof (bytes_of_word_range (SHA256.rb h)) as Hb.
  unfold SHA256.bytes_of_word in *. cbn [app].
  repeat match goal with
         | H : Forall _ (_ :: _) |- _ => inversion H; clear H; subst
         end.
  rewrite int16_first_word by assumption.
  rewrite int16_second_word by assumption.
  reflexivity.
Qed.

Lemma firstn_4_digest (h : SHA256.regs) :
  firstn 4 (SHA256.bytes_of_regs h) = SHA256.bytes_of_word (SHA256.ra h).
Proof. reflexivity. Qed.

Lemma second_4_digest (h : SHA256.regs) :
  firstn 4 (skipn 4 (SHA256.bytes_of_regs h)) = SHA256.bytes_of_word (SHA256.rb h).
Proof. reflexivity. Qed.

End Digest.

(** ** Buckets and the choice of a cell *)

Section Buckets.

Local Open Scope R_scope.

Lemma one_lt_emax : 1 < bpow emax.
Proof. apply (IZR_lt_emax 1). reflexivity. Qed.

Lemma zero_gt_emax : - bpow emax < 0.
Proof. pose proof (bpow_pos emax). lra. Qed.

Lemma format_1 : format 1.
Proof. apply (format_IZR 1). reflexivity. Qed.

(** A bucket is a double of the closed unit interval. *)
Lemma bucket_real (i : Z) :
  (0 <= i <= 0xFFFFFFFF)%Z ->
  exists b : float,
    int_truediv i 0xFFFFFFFF = Ok b /\ is_real b = true /\ 0 <= B2R b <= 1
    /\ rounds_to (IZR i / 4294967295) (Prim2SF b).
Proof.
  intros Hi.
  apply (int_truediv_bounds i 0xFFFFFFFF 0 1);
    [discriminate | apply format_0 | apply format_1 | | apply zero_gt_emax
     | apply one_lt_emax].
  assert (0 <= IZR i) by (apply IZR_le; lia).
  assert (IZR i <= 4294967295) by (apply IZR_le; lia).
  split.
  - apply Rmult_le_pos; lra.
  - apply (Rmult_le_reg_r 4294967295); [lra|]. field_simplify. lra.
Qed.

Lemma B2R_3 : B2R 3%float = 3.
Proof.
  unfold B2R. change (Prim2SF 3%float) with (S754_finite false (3 * 2 ^ 51) (-51)).
  cbn [SF2R cond_Zopp]. apply (F2R_int 3 51). lia.
Qed.

Lemma B2R_1 : B2R 1%float = 1.
Proof.
  unfold B2R. change (Prim2SF 1%float) with (S754_finite false (1 * 2 ^ 52) (-52)).
  cbn [SF2R cond_Zopp]. apply (F2R_int 1 52). lia.
Qed.

Lemma B2R_0 : B2R 0%float = 0.
Proof. reflexivity. Qed.

(** Three times a bucket is a double of [0, 3], so that [int] returns. *)
Lemma triple_real (b : float) :
  is_real b = true -> 0 <= B2R b <= 1 ->
  is_real (b * 3)%float = true /\ 0 <= B2R (b * 3)%float <= 3
  /\ rounds_to (B2R b * 3) (Prim2SF (b * 3)%float).
Proof.
  intros Hb Hv.
  assert (H3 : is_real 3%float = true) by reflexivity.
  pose proof (mul_rounds b 3%float Hb H3) as Hr. rewrite B2R_3 in Hr.
  destruct (prim_bounds _ 0 3 _ Hr) as [Hreal Hbd];
    [apply format_0 | apply (format_IZR 3); reflexivity | lra
     | apply zero_gt_emax | apply (IZR_lt_emax 3); reflexivity |].
  auto.
Qed.

Lemma py_index_three (c0 c1 c2 : string) (j : Z) :
  (0 <= j < 3)%Z ->
  exists c, py_index [c0; c1; c2] j = Ok c /\ In c [c0; c1; c2]
            /\ nth_error [c0; c1; c2] (Z.to_nat j) = Some c.
Proof.
  intros Hj.
  assert (j = 0 \/ j = 1 \/ j = 2)%Z as [-> | [-> | ->]] by lia;
    [exists c0 | exists c1 | exists c2]; (split; [reflexivity|]);
    (split; [simpl; tauto | reflexivity]).
Qed.

(** The choice among three: the index is the integer part of three times
    the bucket, reduced modulo three. *)
Lemma pick_three (c0 c1 c2 : string) (b : float) :
  is_real b = true -> 0 <= B2R b <= 1 ->
  exists (j : Z) (c : string),
    (0 <= j <= 3)%Z /\ IZR j <= B2R (b * 3)%float < IZR j + 1
    /\ pick [c0; c1; c2] b = Ok c
    /\ nth_error [c0; c1; c2] (Z.to_nat (j mod 3)) = Some c
    /\ In c [c0; c1; c2].
Proof.
  intros Hb Hv. destruct (triple_real b Hb Hv) as [Hreal [Hbd _]].
  pose proof (SF_trunc_spec (Prim2SF (b * 3)%float) Hreal (proj1 Hbd)) as Ht.
  fold (B2R (b * 3)%float) in Ht.
  set (j := SF_trunc (Prim2SF (b * 3)%float)) in *.
  assert (Hj : (0 <= j <= 3)%Z).
  { assert (IZR (-1) < IZR j) by (simpl; lra).
    assert (IZR j < IZR 4) by (simpl; lra).
    apply lt_IZR in H, H0. lia. }
  assert (Hm : (0 <= j mod 3 < 3)%Z) by (apply Z.mod_pos_bound; lia).
  destruct (py_index_three c0 c1 c2 (j mod 3)%Z Hm) as [c [Hc [Hin Hnth]]].
  exists j, c. repeat split; try tauto; try lia.
  unfold pick.
  change (float_of_int (py_len [c0; c1; c2])) with (Ok 3%float).
  cbn [bind]. rewrite (py_int_real (b * 3)%float j Hreal Ht (proj1 Hj)).
  cbn [bind]. change (py_len [c0; c1; c2]) with 3%Z.
  unfold py_mod. cbn [Z.eqb bind]. exact Hc.
Qed.

End Buckets.

Section BucketWords.

Local Open Scope R_scope.

Lemma bucket_of_word (x : Z) :
  exists b : float,
    int_truediv (Spec.be_uint (SHA256.bytes_of_word x)) 0xFFFFFFFF = Ok b
    /\ is_real b = true /\ 0 <= B2R b <= 1
    /\ rounds_to (IZR (Spec.be_uint (SHA256.bytes_of_word x)) / 4294967295)
                 (Prim2SF b).
Proof. apply bucket_real. apply be_uint_range. Qed.

Lemma bucket_below_one (i : Z) (b : float) :
  (0 <= i < 0xFFFFFFFF)%Z -> is_real b = true ->
  rounds_to (IZR i / 4294967295) (Prim2SF b) ->
  B2R b < 1.
Proof.
  intros Hi Hb Hr.
  assert (Hn : nearest (IZR i / 4294967295) (B2R b)).
  { unfold is_real, B2R in *. destruct (Prim2SF b); try discriminate;
      cbn [rounds_to] in Hr; tauto. }
  assert (Hf : format (F2R (2 ^ 32 - 1) (-32))).
  { apply format_F2R; [reflexivity | unfold emin; simpl; lia]. }
  assert (Hv : F2R (2 ^ 32 - 1) (-32) = 4294967295 / 4294967296).
  { unfold F2R. change (-32)%Z with (- (32))%Z.
    rewrite bpow_opp, bpow_IZR by lia.
    change (2 ^ 32 - 1)%Z with 4294967295%Z. change (2 ^ 32)%Z with 4294967296%Z.
    reflexivity. }
  assert (Hle : IZR i / 4294967295 <= F2R (2 ^ 32 - 1) (-32)).
  { rewrite Hv. assert (IZR i <= 4294967294) by (apply IZR_le; lia).
    apply (Rmult_le_reg_r 4294967295); [lra|]. field_simplify. lra. }
  pose proof (nearest_le _ _ _ Hn Hf Hle). lra.
Qed.

End BucketWords.

(** ** The float computation of an index against the exact one *)

Section ExactIndex.

Local Open Scope R_scope.

Lemma div_le_F2R (i M a k : Z) :
  (0 < M)%Z -> (0 <= k)%Z -> (i * 2 ^ k <= a * M)%Z ->
  IZR i / IZR M <= F2R a (- k).
Proof.
  intros HM Hk H. unfold F2R. rewrite bpow_opp, bpow_IZR by assumption.
  assert (0 < IZR M) by (apply IZR_lt; assumption).
  assert (0 < IZR (2 ^ k)) by (apply IZR_lt, Z.pow_pos_nonneg; lia).
  apply IZR_le in H. rewrite !mult_IZR in H.
  apply (Rmult_le_reg_r (IZR M * IZR (2 ^ k))); [nra|].
  field_simplify; lra.
Qed.

Lemma F2R_le_div (i M a k : Z) :
  (0 < M)%Z -> (0 <= k)%Z -> (a * M <= i * 2 ^ k)%Z ->
  F2R a (- k) <= IZR i / IZR M.
Proof.
  intros HM Hk H. unfold F2R. rewrite bpow_opp, bpow_IZR by assumption.
  assert (0 < IZR M) by (apply IZR_lt; assumption).
  assert (0 < IZR (2 ^ k)) by (apply IZR_lt, Z.pow_pos_nonneg; lia).
  apply IZR_le in H. rewrite !mult_IZR in H.
  apply (Rmult_le_reg_r (IZR M * IZR (2 ^ k))); [nra|].
  field_simplify; lra.
Qed.

Lemma F2R_lt_IZR (a k j : Z) :
  (0 <= k)%Z -> (a < j * 2 ^ k)%Z -> F2R a (- k) < IZR j.
Proof.
  intros Hk H. unfold F2R. rewrite bpow_opp, bpow_IZR by assumption.
  assert (0 < IZR (2 ^ k)) by (apply IZR_lt, Z.pow_pos_nonneg; lia).
  apply IZR_lt in H. rewrite mult_IZR in H.
  apply (Rmult_lt_reg_r (IZR (2 ^ k))); [assumption|].
  field_simplify; lra.
Qed.

Lemma F2R_times_3 (a e : Z) : F2R a e * 3 = F2R (3 * a) e.
Proof. unfold F2R. rewrite mult_IZR. ring. Qed.

Lemma rounds_to_nearest (y : R) (b : float) :
  is_real b = true -> rounds_to y (Prim2SF b) -> nearest y (B2R b).
Proof.
  unfold is_real, B2R. destruct (Prim2SF b); try discriminate;
    cbn [rounds_to]; tauto.
Qed.

(** An upper bound on three times a bucket, through two points of the
    grid. *)
Lemma triple_upper (i a : Z) (b : float) (j : Z) :
  is_real b = true -> 0 <= B2R b <= 1 ->
  rounds_to (IZR i / 4294967295) (Prim2SF b) ->
  (i * 2 ^ 34 <= a * 4294967295)%Z ->
  (0 <= a)%Z -> (3 * a < 2 ^ 53)%Z -> (3 * a < j * 2 ^ 34)%Z ->
  B2R (b * 3)%float < IZR j.
Proof.
  intros Hb Hv Hr Hia Ha Hsmall Haj.
  pose proof (rounds_to_nearest _ _ Hb Hr) as Hn.
  destruct (triple_real b Hb Hv) as [Hreal [Hbd Hr3]].
  pose proof (rounds_to_nearest _ _ Hreal Hr3) as Hn3.
  assert (Hfa : format (F2R a (-34))).
  { apply format_F2R; [change prec with 53%Z; lia | unfold emin; simpl; lia]. }
  assert (Hf3 : format (F2R (3 * a) (-34))).
  { apply format_F2R; [change prec with 53%Z; lia | unfold emin; simpl; lia]. }
  assert (Hle : B2R b <= F2R a (-34)).
  { apply (nearest_le _ _ _ Hn Hfa).
    apply (div_le_F2R i 4294967295 a 34); lia. }
  assert (Hle3 : B2R (b * 3)%float <= F2R (3 * a) (-34)).
  { apply (nearest_le _ _ _ Hn3 Hf3). rewrite <- F2R_times_3. lra. }
  pose proof (F2R_lt_IZR (3 * a) 34 j ltac:(lia) Haj) as Hlt.
  cbn [Z.opp] in Hlt. lra.
Qed.

(** A lower bound on three times a bucket, through a double whose triple
    is known. *)
Lemma triple_lower (i : Z) (b c t : float) (m j : Z) :
  is_real b = true -> 0 <= B2R b <= 1 ->
  rounds_to (IZR i / 4294967295) (Prim2SF b) ->
  is_real c = true -> B2R c = F2R m (-54) -> (0 < m)%Z ->
  (m * 4294967295 <= i * 2 ^ 54)%Z ->
  (c * 3)%float = t -> B2R t = IZR j ->
  IZR j <= B2R (b * 3)%float.
Proof.
  intros Hb Hv Hr Hc Hcv Hm Hmi Hc3 Hjv.
  pose proof (rounds_to_nearest _ _ Hb Hr) as Hn.
  destruct (triple_real b Hb Hv) as [Hreal [Hbd Hr3]].
  assert (Hle : B2R c <= B2R b).
  { apply (nearest_ge _ _ _ Hn (B2R_format c Hc)). rewrite Hcv.
    apply (F2R_le_div i 4294967295 m 54); lia. }
  assert (Hc0 : 0 < B2R c).
  { rewrite Hcv. unfold F2R. apply Rmult_lt_0_compat; [|apply bpow_pos].
    apply IZR_lt. assumption. }
  destruct (Rle_lt_or_eq_dec _ _ Hle) as [Hlt|Heq].
  - assert (Hcv01 : 0 <= B2R c <= 1) by lra.
    destruct (triple_real c Hc Hcv01) as [Hrealc [_ Hrc]].
    rewrite <- Hjv, <- Hc3.
    apply (rounds_to_mono (B2R c * 3) (B2R b * 3)); auto. lra.
  - assert (c = b) by (apply B2R_inj; auto; lra).
    subst c. rewrite Hc3, Hjv. lra.
Qed.

Lemma B2R_2 : B2R 2%float = 2.
Proof.
  unfold B2R. change (Prim2SF 2%float) with (S754_finite false (2 * 2 ^ 51) (-51)).
  cbn [SF2R cond_Zopp]. apply (F2R_int 2 51). lia.
Qed.

Lemma int_between (j k : Z) (x : R) :
  IZR j <= x < IZR j + 1 -> IZR k <= x < IZR k + 1 -> j = k.
Proof.
  intros Hj Hk.
  assert (IZR j < IZR (k + 1)) by (rewrite plus_IZR; lra).
  assert (IZR k < IZR (j + 1)) by (rewrite plus_IZR; lra).
  apply lt_IZR in H, H0. lia.
Qed.

(** The integer part of three times the float bucket is the integer part
    of three times the exact quotient. *)
Lemma bucket_index_exact (i : Z) (b : float) (j : Z) :
  (0 <= i <= 0xFFFFFFFF)%Z ->
  int_truediv i 0xFFFFFFFF = Ok b ->
  is_real b = true -> 0 <= B2R b <= 1 ->
  rounds_to (IZR i / 4294967295) (Prim2SF b) ->
  IZR j <= B2R (b * 3)%float < IZR j + 1 ->
  j = (3 * i / 4294967295)%Z.
Proof.
  intros Hi Hdiv Hb Hv Hr Hj.
  destruct (triple_real b Hb Hv) as [Hreal [Hbd _]].
  set (third := 0x1.5555555555555p-2%float).
  set (two_thirds := 0x1.5555555555555p-1%float).
  assert (Hthird : B2R third = F2R 6004799503160661 (-54)) by reflexivity.
  assert (Htwo : B2R two_thirds = F2R 12009599006321322 (-54)).
  { unfold B2R.
    change (Prim2SF two_thirds) with (S754_finite false 6004799503160661 (-53)).
    cbn [SF2R cond_Zopp]. symmetry.
    apply (F2R_shift 6004799503160661 (-53) 1). lia. }
  assert (Hcases : (3 * i < 4294967295 \/ 4294967295 <= 3 * i < 2 * 4294967295
                    \/ 2 * 4294967295 <= 3 * i < 3 * 4294967295
                    \/ i = 4294967295)%Z) by lia.
  destruct Hcases as [HA|[HB|[HC|HD]]].
  - (* below one third *)
    assert (Hq : (3 * i / 4294967295 = 0)%Z) by (apply Z.div_small; lia).
    rewrite Hq. apply (int_between j 0 (B2R (b * 3)%float) Hj).
    split; [simpl; lra|].
    replace (IZR 0 + 1) with (IZR 1) by (simpl; lra).
    apply (triple_upper i 5726623061 b 1); auto; lia.
  - assert (Hq : (3 * i / 4294967295 = 1)%Z).
    { symmetry. apply (Z.div_unique _ _ 1 (3 * i - 4294967295)); lia. }
    rewrite Hq. apply (int_between j 1 (B2R (b * 3)%float) Hj). split.
    + apply (triple_lower i b third 1%float 6004799503160661 1); auto;
        try reflexivity; try lia. apply B2R_1.
    + replace (IZR 1 + 1) with (IZR 2) by (simpl; lra).
      apply (triple_upper i 11453246122 b 2); auto; lia.
  - assert (Hq : (3 * i / 4294967295 = 2)%Z).
    { symmetry. apply (Z.div_unique _ _ 2 (3 * i - 2 * 4294967295)); lia. }
    rewrite Hq. apply (int_between j 2 (B2R (b * 3)%float) Hj). split.
    + apply (triple_lower i b two_thirds 2%float 12009599006321322 2); auto;
        try reflexivity; try lia. apply B2R_2.
    + replace (IZR 2 + 1) with (IZR 3) by (simpl; lra).
      apply (triple_upper i 17179869180 b 3); auto; lia.
  - subst i.
    assert (Hone : int_truediv 0xFFFFFFFF 0xFFFFFFFF = Ok 1%float)
      by (vm_compute; reflexivity).
    rewrite Hone in Hdiv. injection Hdiv as <-.
    change (1 * 3)%float with 3%float in Hj. rewrite B2R_3 in Hj.
    change (3 * 4294967295 / 4294967295)%Z with 3%Z.
    apply (int_between j 3 3 Hj). simpl. lra.
Qed.

End ExactIndex.

(** ** The error of a rounding *)

Section Error.

Local Open Scope R_scope.

Lemma ln_2_pos : 0 < ln 2.
Proof. rewrite <- ln_1. apply ln_increasing; lra. Qed.

Lemma bpow_exp (e : Z) : bpow e = exp (IZR e * ln 2).
Proof. unfold bpow. rewrite powerRZ_Rpower by lra. reflexivity. Qed.

Lemma bpow_lt_inv (a b : Z) : bpow a < bpow b -> (a < b)%Z.
Proof.
  intros H. destruct (Z_lt_le_dec a b) as [|Hle]; [assumption|].
  apply bpow_le in Hle. lra.
Qed.

(** Every positive real lies in one binade. *)
Lemma mag_exists (y : R) :
  0 < y -> exists E : Z, bpow E <= y < bpow (E + 1).
Proof.
  intros Hy. pose proof ln_2_pos as H2.
  set (L := ln y / ln 2).
  assert (HL : L * ln 2 = ln y) by (unfold L; field; lra).
  exists (Zfloor L). pose proof (Zfloor_bound L) as [Hlo Hhi].
  assert (Hy' : y = exp (L * ln 2)) by (rewrite HL, exp_ln; auto).
  rewrite !bpow_exp, plus_IZR, Hy'.
  split.
  - destruct (Rle_lt_or_eq_dec _ _ Hlo) as [Hlt|Heq].
    + apply Rlt_le, exp_increasing. nra.
    + rewrite Heq. lra.
  - apply exp_increasing. nra.
Qed.

(** A nearest point of the grid is within half a unit of the exponent that
    holds the value. *)
Lemma nearest_abs_error (y r : R) (e : Z) :
  (emin <= e)%Z -> Rabs y <= bpow (e + prec) -> nearest y r ->
  Rabs (r - y) <= bpow e / 2.
Proof.
  intros He Hy [_ Hn]. pose proof (bpow_pos e) as Hb.
  set (t := y / bpow e).
  assert (Ht : y = t * bpow e) by (unfold t; field; lra).
  assert (Htb : Rabs t <= IZR (2 ^ prec)).
  { rewrite <- bpow_IZR by (unfold prec; lia).
    apply (Rmult_le_reg_r (bpow e)); [assumption|].
    rewrite <- bpow_add, (Z.add_comm prec e).
    rewrite <- (Rabs_right (bpow e)) at 1 by lra.
    rewrite <- Rabs_mult, <- Ht. assumption. }
  set (M := Zfloor (t + / 2)).
  pose proof (Zfloor_bound (t + / 2)) as [Hlo Hhi]. fold M in Hlo, Hhi.
  assert (HM : (Z.abs M <= 2 ^ prec)%Z).
  { assert (Ht12 : - IZR (2 ^ prec) <= t <= IZR (2 ^ prec))
      by (unfold Rabs in Htb; destruct (Rcase_abs t); lra).
    assert (H1 : IZR M < IZR (2 ^ prec + 1)) by (rewrite plus_IZR; lra).
    assert (H2 : IZR (- 2 ^ prec - 1) < IZR M)
      by (rewrite minus_IZR, opp_IZR; lra).
    apply lt_IZR in H1, H2. lia. }
  eapply Rle_trans; [apply (Hn (F2R M e)), format_pow2; assumption|].
  unfold F2R. rewrite Ht.
  replace (IZR M * bpow e - t * bpow e) with ((IZR M - t) * bpow e) by ring.
  rewrite Rabs_mult, (Rabs_right (bpow e)) by lra.
  assert (Rabs (IZR M - t) <= / 2) by (apply Rabs_le; lra).
  nra.
Qed.

(** In the normal range the error is relative. *)
Lemma nearest_rel_error (y r : R) :
  bpow (emin + prec - 1) <= y -> nearest y r ->
  Rabs (r - y) <= bpow (- prec) * y.
Proof.
  intros Hy Hn. pose proof (bpow_pos (emin + prec - 1)) as Hb.
  destruct (mag_exists y ltac:(lra)) as [E [HE1 HE2]].
  assert (HE : (emin + prec - 1 < E + 1)%Z).
  { apply bpow_lt_inv. lra. }
  eapply Rle_trans.
  - apply (nearest_abs_error y r (E + 1 - prec)); [lia| |assumption].
    replace (E + 1 - prec + prec)%Z with (E + 1)%Z by lia.
    rewrite Rabs_right by lra. lra.
  - replace (E + 1 - prec)%Z with (- prec + E + 1)%Z by lia.
    rewrite bpow_succ, bpow_add. pose proof (bpow_pos (- prec)). nra.
Qed.

End Error.

(** ** The square root *)

Section Sqrt.

Local Open Scope R_scope.

Lemma sqrt_bpow_double (e : Z) : R_sqrt.sqrt (bpow e * bpow e) = bpow e.
Proof. apply sqrt_square, Rlt_le, bpow_pos. Qed.

(** The integer square root with its remainder locates the real one. *)
Lemma sqrtrem_loc (n q r : Z) :
  (0 < n)%Z -> n = (q * q + r)%Z -> (0 <= r <= 2 * q)%Z ->
  rec_loc (R_sqrt.sqrt (IZR n))
          (shr_record_of_loc q
             (if (r =? 0)%Z then loc_Exact
              else loc_Inexact (if (r <=? q)%Z then Lt else Gt))) 0.
Proof.
  intros Hn Hqr Hr.
  set (t := R_sqrt.sqrt (IZR n)).
  assert (Ht0 : 0 <= t) by apply sqrt_pos.
  assert (Ht : t * t = IZR q * IZR q + IZR r).
  { unfold t. rewrite sqrt_sqrt by (apply IZR_le; lia).
    rewrite Hqr, plus_IZR, mult_IZR. reflexivity. }
  assert (Hq : 0 <= IZR q) by (apply IZR_le; lia).
  unfold rec_loc. rewrite bpow_0.
  destruct (Z.eqb_spec r 0) as [Hr0|Hr0].
  - exists 0. cbn [shr_record_of_loc shr_m shr_r shr_s]. split; [|reflexivity].
    rewrite Hr0 in Ht. assert (t = IZR q) by nra. lra.
  - assert (Hr1 : 1 <= IZR r) by (apply IZR_le; lia).
    assert (Hr2 : IZR r <= 2 * IZR q) by (rewrite <- mult_IZR; apply IZR_le; lia).
    destruct (Z.leb_spec r q) as [Hle|Hgt].
    + exists (t - IZR q). cbn [shr_record_of_loc shr_m shr_r shr_s].
      split; [ring|]. apply IZR_le in Hle. split; nra.
    + exists (t - IZR q - / 2). cbn [shr_record_of_loc shr_m shr_r shr_s].
      split; [field|].
      assert (IZR q + 1 <= IZR r) by (rewrite <- plus_IZR; apply IZR_le; lia).
      split; nra.
Qed.

Lemma rec_loc_scale (x : R) (mrs : shr_record) (e : Z) :
  rec_loc x mrs 0 -> rec_loc (x * bpow e) mrs e.
Proof.
  intros [d [Hx Hd]]. exists d. split; [|assumption].
  rewrite Hx, bpow_0. ring.
Qed.

Lemma SFsqrt_core_loc (m : positive) (e : Z) :
  let '(q, e', l) := SFsqrt_core_binary prec emax (Zpos m) e in
  loc_of (R_sqrt.sqrt (F2R (Zpos m) e)) q e' l
  /\ (0 <= q)%Z
  /\ (e' <= fexp prec emax (Zdigits2 q + e'))%Z.
Proof.
  unfold SFsqrt_core_binary.
  set (d := Zdigits2 (Zpos m)).
  set (e' := Z.min (fexp prec emax (Z.div2 (d + e + 1))) (Z.div2 e)).
  set (s := (e - 2 * e')%Z).
  assert (Hs : (0 <= s)%Z).
  { unfold s, e'. rewrite (Z.div2_div e). Z.div_mod_to_equations. lia. }
  set (m' := match s with
             | Z0 => Zpos m
             | Zpos _ => Z.shiftl (Zpos m) s
             | Zneg _ => 0%Z
             end).
  assert (Hm' : m' = (Zpos m * 2 ^ s)%Z).
  { unfold m'. destruct s as [|p|p] eqn:Es.
    - simpl. lia.
    - rewrite Z.shiftl_mul_pow2 by lia. reflexivity.
    - lia. }
  assert (Hpow : (0 < 2 ^ s)%Z) by (apply Z.pow_pos_nonneg; lia).
  assert (Hpos : (0 < m')%Z) by (rewrite Hm'; lia).
  pose proof (Z.sqrtrem_spec m' ltac:(lia)) as Hsr.
  destruct (Z.sqrtrem m') as [q r]. destruct Hsr as [Hqr Hr].
  assert (Hq : (0 < q)%Z) by nia.
  split; [|split; [lia|]].
  - assert (Hx : F2R (Zpos m) e = IZR m' * (bpow e' * bpow e')).
    { rewrite <- bpow_add. rewrite <- (F2R_shift (Zpos m) e s Hs), <- Hm'.
      unfold F2R. f_equal. f_equal. unfold s. lia. }
    rewrite Hx, sqrt_mult;
      [|apply IZR_le; lia
       |pose proof (bpow_pos e'); nra].
    rewrite sqrt_bpow_double. apply rec_loc_scale.
    apply sqrtrem_loc; assumption.
  - destruct (Zdigits2_bounds q Hq) as [Hlo Hhi].
    pose proof (Zdigits2_pos q Hq) as HD.
    set (D := Zdigits2 q) in *.
    assert (Hd : Zdigits2 m' = (d + s)%Z)
      by (rewrite Hm'; apply Zdigits2_shift; assumption).
    destruct (Zdigits2_bounds m' Hpos) as [Hlo' _]. rewrite Hd in Hlo'.
    assert (Hlt : (2 ^ (d + s - 1) < 2 ^ (2 * D))%Z).
    { replace (2 * D)%Z with (D + D)%Z by lia. rewrite Z.pow_add_r by lia. nia. }
    apply Z.pow_lt_mono_r_iff in Hlt; [|lia|lia].
    assert (Hdiv : (Z.div2 (d + e + 1) <= D + e')%Z).
    { rewrite Z.div2_div. unfold s in Hlt. Z.div_mod_to_equations. lia. }
    assert (He' : (e' <= fexp prec emax (Z.div2 (d + e + 1)))%Z)
      by (unfold e'; lia).
    rewrite fexp_eq in *. lia.
Qed.

Lemma SFsqrt_rounds (x : spec_float) :
  SF_is_real x = true -> 0 <= SF2R x ->
  rounds_to (R_sqrt.sqrt (SF2R x)) (SFsqrt prec emax x).
Proof.
  destruct x as [s|s| |s m e]; try discriminate; intros _ Hx.
  - cbn [SFsqrt rounds_to]. change (SF2R (S754_zero s)) with 0.
    rewrite sqrt_0. apply nearest_refl, format_0.
  - destruct s.
    + exfalso. cbn [SF2R cond_Zopp] in Hx.
      change (Z.opp (Zpos m)) with (- Zpos m)%Z in Hx. rewrite F2R_opp in Hx.
      pose proof (F2R_pos m e). lra.
    + cbn [SFsqrt SF2R cond_Zopp].
      pose proof (SFsqrt_core_loc m e) as Hc.
      destruct (SFsqrt_core_binary prec emax (Zpos m) e) as [[q e'] l].
      destruct Hc as [Hl [Hq He]].
      pose proof (binary_round_aux_correct false _ q e' l Hq Hl He) as Hr.
      apply rounds_abs_to in Hr; [assumption|apply sqrt_pos].
Qed.

End Sqrt.

(** ** The error of one operation on doubles *)

Section PrimError.

Local Open Scope R_scope.

Lemma sqrt_rounds (a : float) :
  is_real a = true -> 0 <= B2R a ->
  rounds_to (R_sqrt.sqrt (B2R a)) (Prim2SF (PrimFloat.sqrt a)).
Proof. intros Ha H0. rewrite sqrt_spec. apply SFsqrt_rounds; assumption. Qed.

(** A result of magnitude at most 8 is within [2^-51] of the exact value. *)
Lemma abs_error_8 (y : R) (c : float) :
  Rabs y <= 8 -> is_real c = true -> rounds_to y (Prim2SF c) ->
  Rabs (B2R c - y) <= bpow (-51).
Proof.
  intros Hy Hc Hr.
  pose proof (nearest_abs_error y (B2R c) (-50) ltac:(unfold emin; simpl; lia)) as H.
  replace (bpow (-50) / 2) with (bpow (-51)) in H.
  - apply H; [|apply rounds_to_nearest; assumption].
    change (-50 + prec)%Z with 3%Z. rewrite (bpow_IZR 3) by lia.
    change (2 ^ 3)%Z with 8%Z. assumption.
  - change (-50)%Z with (-51 + 1)%Z. rewrite bpow_succ. lra.
Qed.

(** A result in the normal range is within a relative [2^-53]. *)
Lemma rel_error (y : R) (c : float) :
  bpow (-1022) <= y -> is_real c = true -> rounds_to y (Prim2SF c) ->
  Rabs (B2R c - y) <= bpow (-53) * y.
Proof.
  intros Hy Hc Hr.
  apply (nearest_rel_error y (B2R c)); [assumption|].
  apply rounds_to_nearest; assumption.
Qed.

End PrimError.

(** ** The Wilson interval over the reals, with the errors of the steps *)

Section WilsonReal.

Local Open Scope R_scope.

Lemma Rabs_bound (x e : R) : Rabs x <= e -> - e <= x <= e.
Proof. unfold Rabs. destruct (Rcase_abs x); lra. Qed.

(** The distance from the estimate to the centre, when every step of the
    centre is within [eps] of its exact value. *)
Lemma centre_error (p t q d a pa c eps : R) :
  0 <= p <= 1 -> 0 <= t -> 1 <= d -> 0 <= eps ->
  Rabs (q - t) <= eps -> Rabs (d - (1 + q)) <= eps ->
  Rabs (a - t / 2) <= 3 * eps ->
  Rabs (pa - (p + a)) <= eps -> Rabs (c - pa / d) <= eps ->
  Rabs (p - c) <= t * Rabs (p - / 2) / d + 7 * eps.
Proof.
  intros Hp Ht Hd He Hq Hd' Ha Hpa Hc.
  apply Rabs_bound in Hq, Hd', Ha, Hpa, Hc.
  set (w := / d).
  assert (Hw : 0 < w <= 1).
  { unfold w. split; [apply Rinv_0_lt_compat; lra|].
    rewrite <- Rinv_1. apply Rinv_le_contravar; lra. }
  assert (Hdw : d * w = 1) by (unfold w; field; lra).
  set (X := t * Rabs (p - / 2)).
  assert (HX : - X <= p * t - t / 2 <= X).
  { unfold X, Rabs. destruct (Rcase_abs (p - / 2)); nra. }
  set (k := p * d - pa - (p * t - t / 2)).
  assert (Hk : - (6 * eps) <= k <= 6 * eps) by (unfold k; nra).
  assert (Heq : p - pa / d = w * (p * t - t / 2) + w * k).
  { unfold k, Rdiv. fold w. ring_simplify. nra. }
  unfold Rdiv in *. fold w in Hc |- *.
  apply Rabs_le. nra.
Qed.

(** The half-width covers that distance when its square is close to the
    exact radicand. *)
Lemma half_covers (p t Y eps : R) :
  0 <= p <= 1 -> 0 <= t -> 0 <= eps -> 0 <= Y ->
  t * (p * (1 - p) + t / 4) - 8 * eps * t <= Y * Y ->
  t * Rabs (p - / 2) <= Y + 32 * eps.
Proof.
  intros Hp Ht He HY Hsq.
  set (X := t * Rabs (p - / 2)).
  assert (HX0 : 0 <= X) by (unfold X; pose proof (Rabs_pos (p - / 2)); nra).
  assert (HX1 : X <= t / 2).
  { unfold X, Rabs. destruct (Rcase_abs (p - / 2)); nra. }
  assert (HX2 : X * X = t * t * ((p - / 2) * (p - / 2))).
  { unfold X, Rabs. destruct (Rcase_abs (p - / 2)); ring. }
  destruct (Rle_or_lt t (64 * eps)) as [Hsmall|Hbig]; [lra|].
  assert (Hpp : 0 <= t * (p * (1 - p))).
  { apply Rmult_le_pos; [assumption|]. apply Rmult_le_pos; lra. }
  assert (Het : 64 * (eps * t) <= t * t) by nra.
  assert (HY3 : t / 3 <= Y).
  { destruct (Rle_or_lt (t / 3) Y) as [|Hlt]; [assumption|exfalso].
    assert (Y * Y <= t / 3 * (t / 3)) by (apply Rmult_le_compat; lra).
    nra. }
  destruct (Rle_or_lt X (Y + 12 * eps)) as [|Hlt]; [lra|exfalso].
  assert (Hxx : X * X <= Y * Y + 8 * eps * t) by nra.
  assert (Hyy : (Y + 12 * eps) * (Y + 12 * eps) <= X * X)
    by (apply Rmult_le_compat; lra).
  nra.
Qed.

(** The computed radicand, times the square of the quantile, is not much
    below the exact one: the steps under the square root have relative
    errors [u], the estimate's product an absolute one. *)
Lemma radicand_error (p N f1 f4 zz z b pm s1 r u eps : R) :
  0 <= p <= 1 -> 1 <= N -> 0 <= u -> 4 * u <= eps -> eps <= / 1000 ->
  Rabs (f1 - N) <= u * N -> Rabs (f4 - 4 * N) <= u * (4 * N) ->
  2 <= zz <= 4 -> zz * (1 - 2 * u) <= z * z ->
  zz / f4 * (1 - u) <= b -> p * (1 - p) - 2 * eps <= pm -> 0 <= pm + b ->
  (pm + b) * (1 - u) <= s1 -> s1 / f1 * (1 - u) <= r ->
  let t := zz / f1 in
  t * (p * (1 - p) + t / 4) - 8 * eps * t <= z * z * r.
Proof.
  intros Hp HN Hu Hue He Hf1 Hf4 Hzz Hz Hb Hpm Hpmb Hs1 Hr t.
  apply Rabs_bound in Hf1, Hf4.
  assert (Hf1p : 0 < f1) by nra.
  assert (Hf4p : 0 < f4) by nra.
  set (w1 := / f1). assert (Hw1 : 0 < w1) by (apply Rinv_0_lt_compat; assumption).
  assert (Hfw : f1 * w1 = 1) by (unfold w1; field; lra).
  assert (Ht : t = zz * w1) by reflexivity.
  assert (Htf : t * f1 = zz) by (rewrite Ht; nra).
  assert (Ht0 : 0 < t) by (rewrite Ht; nra).
  assert (Ht4 : t <= 4 + 8 * u).
  { apply (Rmult_le_reg_r f1); [assumption|]. rewrite Htf. nra. }
  (* the quarter of the variance term *)
  set (B0 := zz / f4).
  assert (HB0 : B0 * f4 = zz) by (unfold B0; field; lra).
  assert (HB0p : 0 < B0) by (unfold B0; apply Rdiv_lt_0_compat; lra).
  assert (Hf41 : f4 * (1 - u) <= 4 * f1 * (1 + u)) by nra.
  assert (HB1 : t * (1 - u) <= B0 * (4 * (1 + u))).
  { apply (Rmult_le_reg_r f1); [assumption|].
    replace (t * (1 - u) * f1) with (t * f1 * (1 - u)) by ring.
    rewrite Htf, <- HB0. nra. }
  assert (HB2 : t / 4 * (1 - 3 * u) <= B0 * (1 - u)).
  { assert (t * (1 - u) * (1 - u) <= B0 * (4 * (1 + u)) * (1 - u))
      by (apply Rmult_le_compat_r; lra).
    assert (0 <= t * u * u) by (apply Rmult_le_pos; nra).
    assert (H3 : t * (1 - 3 * u) * (1 + u) <= t * (1 - u) * (1 - u)) by nra.
    apply (Rmult_le_reg_r (4 * (1 + u))); [lra|]. nra. }
  set (G := p * (1 - p) + t / 4).
  assert (HG0 : 0 <= G).
  { unfold G. apply Rplus_le_le_0_compat; [apply Rmult_le_pos; lra | lra]. }
  assert (HG : G - 3 * eps <= pm + b).
  { assert (Htu : t * u <= (4 + 8 * u) * u)
      by (apply Rmult_le_compat_r; assumption).
    assert (Huu : u * u <= u * / 1000) by (apply Rmult_le_compat_l; lra).
    unfold G. fold B0 in Hb. lra. }
  assert (HG1 : G <= 2).
  { unfold G. pose proof (Rle_0_sqr (p - / 2)) as Hsq. unfold Rsqr in Hsq. lra. }
  (* the two divisions and the square *)
  assert (Hr1 : s1 * w1 * (1 - u) <= r) by exact Hr.
  assert (Hs0 : 0 <= s1).
  { eapply Rle_trans; [|exact Hs1]. apply Rmult_le_pos; lra. }
  assert (Hr0 : 0 <= r).
  { eapply Rle_trans; [|exact Hr1].
    apply Rmult_le_pos; [apply Rmult_le_pos; lra | lra]. }
  assert (H1 : zz * (1 - 2 * u) * r <= z * z * r)
    by (apply Rmult_le_compat_r; assumption).
  assert (H2 : zz * (1 - 2 * u) * (s1 * w1 * (1 - u)) <= zz * (1 - 2 * u) * r).
  { apply Rmult_le_compat_l; [apply Rmult_le_pos; lra | assumption]. }
  assert (H3 : t * ((1 - 2 * u) * (1 - u)) * ((pm + b) * (1 - u))
               <= t * ((1 - 2 * u) * (1 - u)) * s1).
  { apply Rmult_le_compat_l; [|assumption].
    apply Rmult_le_pos; [lra|]. apply Rmult_le_pos; lra. }
  assert (H4 : zz * (1 - 2 * u) * (s1 * w1 * (1 - u))
               = t * ((1 - 2 * u) * (1 - u)) * s1) by (rewrite Ht; ring).
  set (k := (1 - 2 * u) * (1 - u) * (1 - u)).
  assert (Hk : 1 - 4 * u <= k <= 1).
  { unfold k. split.
    - assert (0 <= u * u * (5 - 2 * u)) by (apply Rmult_le_pos; nra). nra.
    - assert (H12 : 0 <= (1 - 2 * u) * (1 - u) <= 1 * 1)
        by (split; [apply Rmult_le_pos | apply Rmult_le_compat]; lra).
      replace 1 with (1 * 1) at 4 by ring.
      apply Rmult_le_compat; lra. }
  assert (H5 : t * k * (pm + b) <= z * z * r).
  { eapply Rle_trans; [|exact H1]. eapply Rle_trans; [|exact H2].
    rewrite H4. unfold k.
    replace (t * ((1 - 2 * u) * (1 - u) * (1 - u)) * (pm + b))
      with (t * ((1 - 2 * u) * (1 - u)) * ((pm + b) * (1 - u))) by ring.
    exact H3. }
  assert (H6 : t * k * (G - 3 * eps) <= t * k * (pm + b)).
  { apply Rmult_le_compat_l; [|assumption]. apply Rmult_le_pos; lra. }
  assert (H7 : t * (1 - 4 * u) * G <= t * k * G).
  { apply Rmult_le_compat_r; [assumption|]. apply Rmult_le_compat_l; lra. }
  assert (H8 : t * k * (3 * eps) <= t * 1 * (3 * eps)).
  { apply Rmult_le_compat_r; [lra|]. apply Rmult_le_compat_l; lra. }
  assert (H9 : t * (4 * u * G) <= t * (eps * 2)).
  { apply Rmult_le_compat_l; [lra|]. apply Rmult_le_compat; lra. }
  assert (H10 : 0 <= eps * t) by (apply Rmult_le_pos; lra).
  fold G. lra.
Qed.

End WilsonReal.

(** ** The Wilson interval on counts with [clicks <= impressions] *)

Section Wilson.

Local Open Scope R_scope.

Lemma F2R_ge_IZR (a k j : Z) :
  (0 <= k)%Z -> (j * 2 ^ k <= a)%Z -> IZR j <= F2R a (- k).
Proof.
  intros Hk H. unfold F2R. rewrite bpow_opp, bpow_IZR by assumption.
  assert (0 < IZR (2 ^ k)) by (apply IZR_lt, Z.pow_pos_nonneg; lia).
  apply IZR_le in H. rewrite mult_IZR in H.
  apply (Rmult_le_reg_r (IZR (2 ^ k))); [assumption|].
  field_simplify; lra.
Qed.

Lemma F2R_le_IZR (a k j : Z) :
  (0 <= k)%Z -> (a <= j * 2 ^ k)%Z -> F2R a (- k) <= IZR j.
Proof.
  intros Hk H. unfold F2R. rewrite bpow_opp, bpow_IZR by assumption.
  assert (0 < IZR (2 ^ k)) by (apply IZR_lt, Z.pow_pos_nonneg; lia).
  apply IZR_le in H. rewrite mult_IZR in H.
  apply (Rmult_le_reg_r (IZR (2 ^ k))); [assumption|].
  field_simplify; lra.
Qed.

(** The square of the default quantile. *)
Lemma zz_real : is_real (z_default * z_default)%float = true.
Proof. reflexivity. Qed.

Lemma zz_bounds : 2 <= B2R (z_default * z_default)%float <= 4.
Proof.
  assert (Hv : B2R (z_default * z_default)%float = F2R 8650514164253248 (-51))
    by reflexivity.
  rewrite Hv. split.
  - apply (F2R_ge_IZR _ 51 2); lia.
  - apply (F2R_le_IZR _ 51 4); lia.
Qed.

Lemma bpow_1023_lt_emax : bpow 1023 < bpow emax.
Proof. apply bpow_lt. reflexivity. Qed.

(** A count up to [2^1023] converts to a double that is at least one. *)
Lemma count_real (n : Z) :
  (1 <= n <= 2 ^ 1023)%Z ->
  exists f : float,
    float_of_int n = Ok f /\ is_real f = true /\ 1 <= B2R f <= bpow 1023
    /\ rounds_to (IZR n) (Prim2SF f).
Proof.
  intros Hn.
  apply (float_of_int_bounds n 1 (bpow 1023));
    [apply format_1 | apply format_bpow; unfold emin; simpl; lia | |
     | apply bpow_1023_lt_emax].
  - split; [apply IZR_le; lia|]. rewrite bpow_IZR by lia. apply IZR_le. lia.
  - pose proof (bpow_pos emax). lra.
Qed.

Lemma float_truediv_ok (a b : float) :
  is_real b = true -> B2R b <> 0 -> float_truediv a b = Ok (a / b)%float.
Proof.
  intros Hb Hb0. unfold float_truediv. now rewrite (eqb_zero_real b Hb Hb0).
Qed.

(** A non-negative double divided by a double that is at least one. *)
Lemma div_by_count (x f : float) :
  is_real x = true -> 0 <= B2R x -> is_real f = true -> 1 <= B2R f ->
  is_real (x / f)%float = true /\ 0 <= B2R (x / f)%float <= B2R x
  /\ rounds_to (B2R x / B2R f) (Prim2SF (x / f)%float).
Proof.
  intros Hx Hx0 Hf Hf1.
  assert (Hr : rounds_to (B2R x / B2R f) (Prim2SF (x / f)%float))
    by (apply div_rounds; auto; lra).
  destruct (prim_bounds _ 0 (B2R x) _ Hr) as [Hreal Hbd];
    [apply format_0 | apply B2R_format; assumption | | apply zero_gt_emax
     | apply B2R_range; assumption |].
  - split.
    + apply Rmult_le_pos; [assumption|]. apply Rlt_le, Rinv_0_lt_compat. lra.
    + apply (Rmult_le_reg_r (B2R f)); [lra|]. field_simplify; [|lra]. nra.
  - auto.
Qed.

(** Dividing by a larger count gives no more. *)
Lemma div_by_count_mono (x f g : float) :
  is_real x = true -> 0 <= B2R x ->
  is_real f = true -> 1 <= B2R f -> is_real g = true -> B2R f <= B2R g ->
  B2R (x / g)%float <= B2R (x / f)%float.
Proof.
  intros Hx Hx0 Hf Hf1 Hg Hfg.
  destruct (div_by_count x f Hx Hx0 Hf Hf1) as [Rf [_ Nf]].
  destruct (div_by_count x g Hx Hx0 Hg ltac:(lra)) as [Rg [_ Ng]].
  destruct (Rle_lt_or_eq_dec _ _ Hfg) as [Hlt|Heq].
  - destruct (Rle_lt_or_eq_dec _ _ Hx0) as [Hpos|Hzero].
    + apply (rounds_to_mono (B2R x / B2R g) (B2R x / B2R f)); auto.
      unfold Rdiv. apply Rmult_lt_compat_l; [assumption|].
      apply Rinv_lt_contravar; [|assumption]. nra.
    + rewrite <- Hzero in Nf, Ng. unfold Rdiv in Nf, Ng.
      rewrite Rmult_0_l in Nf, Ng.
      rewrite (nearest_exact 0 _ format_0 (rounds_to_nearest _ _ Rf Nf)).
      rewrite (nearest_exact 0 _ format_0 (rounds_to_nearest _ _ Rg Ng)). lra.
  - assert (f = g) by (apply B2R_inj; auto; lra). subst g. lra.
Qed.

(** The sum of two doubles is monotone in both. *)
Lemma add_mono (a b c d : float) :
  is_real a = true -> is_real b = true -> is_real c = true -> is_real d = true ->
  B2R a <= B2R c -> B2R b <= B2R d -> B2R c <> 0 -> B2R d <> 0 ->
  is_real (a + b)%float = true -> is_real (c + d)%float = true ->
  B2R (a + b)%float <= B2R (c + d)%float.
Proof.
  intros Ha Hb Hc Hd Hac Hbd Hc0 Hd0 Hab Hcd.
  destruct (Rle_lt_or_eq_dec _ _ Hac) as [Hlt|Heq].
  - apply (rounds_to_mono (B2R a + B2R b) (B2R c + B2R d));
      auto using add_rounds. lra.
  - assert (a = c) by (apply B2R_inj; auto; lra). subst c.
    destruct (Rle_lt_or_eq_dec _ _ Hbd) as [Hlt|Heq'].
    + apply (rounds_to_mono (B2R a + B2R b) (B2R a + B2R d));
        auto using add_rounds. lra.
    + assert (b = d) by (apply B2R_inj; auto; lra). subst d. lra.
Qed.

End Wilson.

Section WilsonMain.

Local Open Scope R_scope.

Lemma real_0 : is_real 0%float = true.
Proof. reflexivity. Qed.

Lemma real_1 : is_real 1%float = true.
Proof. reflexivity. Qed.

(** The two clamped bounds lie on either side of the centre, in [0, 1],
    for a half-width that is a non-negative double of moderate size. *)
Lemma clamped_bounds (c h : float) :
  is_real c = true -> 0 <= B2R c <= 1 -> is_real h = true -> 0 <= B2R h <= 6 ->
  is_real (py_max 0 (c - h))%float = true
  /\ is_real (py_min 1 (c + h))%float = true
  /\ 0 <= B2R (py_max 0 (c - h))%float <= B2R c
  /\ B2R c <= B2R (py_min 1 (c + h))%float <= 1.
Proof.
  intros Hc Hcv Hh Hhv. unfold py_max, py_min.
  pose proof (sub_rounds c h Hc Hh) as Hsub.
  destruct (prim_bounds _ (- B2R h) (B2R c) _ Hsub) as [Rm Bm];
    [apply format_opp, B2R_format; assumption | apply B2R_format; assumption
     | lra | pose proof (B2R_range h Hh); lra
     | apply B2R_range; assumption |].
  pose proof (ltb_real 0 (c - h) real_0 Rm) as Hlt. rewrite B2R_0 in Hlt.
  pose proof (add_rounds c h Hc Hh) as Hadd.
  destruct (prim_bounds _ (B2R c) 8 _ Hadd) as [Rp Bp];
    [apply B2R_format; assumption | apply (format_IZR 8); reflexivity
     | lra | pose proof (B2R_range c Hc); lra
     | apply (IZR_lt_emax 8); reflexivity |].
  pose proof (ltb_real (c + h) 1 Rp real_1) as Hlt'. rewrite B2R_1 in Hlt'.
  destruct (0 <? c - h)%float eqn:E1; destruct (c + h <? 1)%float eqn:E2;
    rewrite ?B2R_0, ?B2R_1; repeat split;
    try assumption; try reflexivity; try lra; try tauto;
    try (apply Hlt in E1; lra); try (apply Hlt' in E2; lra).
Qed.

(** [math.sqrt] returns when the square root is a real double. *)
Lemma math_sqrt_ok (r : float) :
  is_real (PrimFloat.sqrt r) = true -> math_sqrt r = Ok (PrimFloat.sqrt r).
Proof.
  intros Hs. unfold math_sqrt. rewrite (is_real_not_nan _ Hs). reflexivity.
Qed.

(** The estimate of a count of clicks that does not exceed the count of
    impressions. *)
Lemma phat_real (k n : Z) :
  (0 <= k <= n)%Z -> (0 < n)%Z ->
  exists p : float,
    int_truediv k n = Ok p /\ is_real p = true /\ 0 <= B2R p <= 1
    /\ rounds_to (IZR k / IZR n) (Prim2SF p).
Proof.
  intros Hk Hn.
  apply (int_truediv_bounds k n 0 1);
    [lia | apply format_0 | apply format_1 | | apply zero_gt_emax
     | apply one_lt_emax].
  assert (0 <= IZR k) by (apply IZR_le; lia).
  assert (IZR k <= IZR n) by (apply IZR_le; lia).
  assert (0 < IZR n) by (apply IZR_lt; lia).
  split.
  - apply Rmult_le_pos; [assumption|]. apply Rlt_le, Rinv_0_lt_compat. assumption.
  - apply (Rmult_le_reg_r (IZR n)); [assumption|]. field_simplify; lra.
Qed.

End WilsonMain.

(** ** Constants and tools of the error analysis *)

Section StepTools.

Local Open Scope R_scope.

Lemma bpow_neg_IZR (k : positive) : bpow (Zneg k) = / IZR (2 ^ Zpos k).
Proof.
  change (Zneg k) with (- Zpos k)%Z. rewrite bpow_opp, bpow_IZR by lia.
  reflexivity.
Qed.

Lemma eps_small : 0 < bpow (-51) <= / 1000.
Proof.
  split; [apply bpow_pos|].
  apply Rle_trans with (bpow (-10)); [apply bpow_le; lia|].
  rewrite (bpow_neg_IZR 10). change (2 ^ 10)%Z with 1024%Z. lra.
Qed.

Lemma eps_u : 4 * bpow (-53) = bpow (-51).
Proof.
  change (-51)%Z with (-53 + 1 + 1)%Z. rewrite !bpow_succ. ring.
Qed.

Lemma eps_45 : 64 * bpow (-51) = bpow (-45).
Proof.
  change (-45)%Z with (-51 + 1 + 1 + 1 + 1 + 1 + 1)%Z. rewrite !bpow_succ. ring.
Qed.

Lemma eight_lt_emax : 8 < bpow emax.
Proof. apply (IZR_lt_emax 8). reflexivity. Qed.

(** One correctly rounded step whose exact value lies between two points
    of the grid within [-8, 8]: the result is a real double between the
    same points, within [2^-51] of the exact value. *)
Lemma step_8 (y lo hi : R) (c : float) :
  rounds_to y (Prim2SF c) -> format lo -> format hi -> lo <= y <= hi ->
  - 8 <= lo -> hi <= 8 ->
  is_real c = true /\ lo <= B2R c <= hi /\ Rabs (B2R c - y) <= bpow (-51).
Proof.
  intros Hr Hlo Hhi Hy Hl8 Hh8. pose proof eight_lt_emax as H8.
  destruct (prim_bounds y lo hi c Hr Hlo Hhi Hy) as [Hc Hb]; [lra|lra|].
  repeat split; try tauto.
  apply abs_error_8; [apply Rabs_le; lra|assumption|assumption].
Qed.

(** The same in the normal range, with the relative error. *)
Lemma step_rel (y : R) (c : float) :
  bpow (-1022) <= y -> is_real c = true -> rounds_to y (Prim2SF c) ->
  y * (1 - bpow (-53)) <= B2R c <= y * (1 + bpow (-53)).
Proof.
  intros Hy Hc Hr. pose proof (rel_error y c Hy Hc Hr) as H.
  apply Rabs_bound in H. lra.
Qed.

Lemma format_3 : format 3.
Proof. apply (format_IZR 3). reflexivity. Qed.

Lemma format_4 : format 4.
Proof. apply (format_IZR 4). reflexivity. Qed.

Lemma format_6 : format 6.
Proof. apply (format_IZR 6). reflexivity. Qed.

Lemma format_8 : format 8.
Proof. apply (format_IZR 8). reflexivity. Qed.

(** The default quantile and its square. *)
Lemma z_value : B2R z_default = F2R 8827055269646172 (-52).
Proof. reflexivity. Qed.

Lemma zz_value : B2R (z_default * z_default)%float = F2R 8650514164253248 (-51).
Proof. reflexivity. Qed.

Lemma z_bounds : 1 <= B2R z_default <= 2.
Proof.
  rewrite z_value. split.
  - apply (F2R_ge_IZR _ 52 1); lia.
  - apply (F2R_le_IZR _ 52 2); lia.
Qed.

Lemma zz_below_square :
  B2R (z_default * z_default)%float * (1 - 2 * bpow (-53))
  <= B2R z_default * B2R z_default.
Proof.
  rewrite z_value, zz_value. unfold F2R.
  rewrite (bpow_neg_IZR 51), (bpow_neg_IZR 52), (bpow_neg_IZR 53).
  change (2 ^ 51)%Z with 2251799813685248%Z.
  change (2 ^ 52)%Z with 4503599627370496%Z.
  change (2 ^ 53)%Z with 9007199254740992%Z.
  lra.
Qed.

End StepTools.

(** ** The steps of the Wilson interval, one rounding at a time *)

Section WilsonSteps.

Local Open Scope R_scope.

(** A count between [1] and [2^e], converted. *)
Lemma count_facts (f : float) (M : R) (e : Z) :
  (0 <= e <= 1023)%Z -> 1 <= M <= bpow e -> rounds_to M (Prim2SF f) ->
  is_real f = true /\ 1 <= B2R f <= bpow e
  /\ M * (1 - bpow (-53)) <= B2R f <= M * (1 + bpow (-53)).
Proof.
  intros He HM Hr.
  destruct (prim_bounds M 1 (bpow e) f Hr) as [Hf Hb];
    [apply format_1 | apply format_bpow; unfold emin; simpl; lia | assumption
     | pose proof (bpow_pos emax); lra | apply bpow_lt; unfold emax; lia |].
  repeat split; try tauto; apply step_rel; auto;
    (apply Rle_trans with (bpow 0); [apply bpow_le; lia | rewrite bpow_0; tauto]).
Qed.

Lemma div_lower (x f : R) (i j : Z) :
  bpow i <= x -> 0 < f <= bpow j -> bpow (i - j) <= x / f.
Proof.
  intros Hx Hf. pose proof (bpow_pos i) as Hi. pose proof (bpow_pos (i - j)) as Hij.
  apply (Rmult_le_reg_r f); [lra|]. unfold Rdiv.
  rewrite Rmult_assoc, Rinv_l, Rmult_1_r by lra.
  apply Rle_trans with (bpow (i - j) * bpow j); [nra|].
  rewrite <- bpow_add. replace (i - j + j)%Z with i by lia. assumption.
Qed.

Lemma half_bpow (e : Z) : bpow e * (1 - bpow (-53)) >= bpow (e - 1).
Proof.
  replace e with (e - 1 + 1)%Z at 1 by lia. rewrite bpow_succ.
  pose proof (bpow_pos (e - 1)). pose proof eps_small. pose proof eps_u.
  pose proof (bpow_pos (-53)). nra.
Qed.

(** The estimate [p] and the three counts converted to doubles, for a
    count [N]; the abbreviations name the intermediate doubles after the
    source. *)
Variables (p f1 f2 f4 : float) (N : R).

Hypothesis Rp : is_real p = true.
Hypothesis Bp : 0 <= B2R p <= 1.
Hypothesis HN : 1 <= N <= bpow 1021.
Hypothesis N1 : rounds_to N (Prim2SF f1).
Hypothesis N2 : rounds_to (2 * N) (Prim2SF f2).
Hypothesis N4 : rounds_to (4 * N) (Prim2SF f4).

Local Abbreviation zz := (z_default * z_default)%float.
Local Abbreviation q := (zz / f1)%float.
Local Abbreviation denom := (1 + q)%float.
Local Abbreviation a := (zz / f2)%float.
Local Abbreviation pa := (p + a)%float.
Local Abbreviation center := (pa / denom)%float.
Local Abbreviation eps := (bpow (-51)).
Local Abbreviation u := (bpow (-53)).
Local Abbreviation t := (B2R zz / B2R f1).

Lemma f1_facts :
  is_real f1 = true /\ 1 <= B2R f1 <= bpow 1021
  /\ N * (1 - u) <= B2R f1 <= N * (1 + u).
Proof. apply (count_facts f1 N 1021); auto. lia. Qed.

Lemma f2_facts :
  is_real f2 = true /\ 1 <= B2R f2 <= bpow 1022
  /\ 2 * N * (1 - u) <= B2R f2 <= 2 * N * (1 + u).
Proof.
  apply (count_facts f2 (2 * N) 1022); auto; [lia|].
  change 1022%Z with (1021 + 1)%Z. rewrite bpow_succ. lra.
Qed.

Lemma f4_facts :
  is_real f4 = true /\ 1 <= B2R f4 <= bpow 1023
  /\ 4 * N * (1 - u) <= B2R f4 <= 4 * N * (1 + u).
Proof.
  apply (count_facts f4 (4 * N) 1023); auto; [lia|].
  change 1023%Z with (1021 + 1 + 1)%Z. rewrite !bpow_succ. lra.
Qed.

Lemma t_bounds : bpow (-1022) <= t <= 4.
Proof.
  destruct f1_facts as [R1 [B1 _]]. pose proof zz_bounds as Hzz.
  assert (Hw : 0 < / B2R f1 <= 1).
  { split; [apply Rinv_0_lt_compat; lra|].
    rewrite <- Rinv_1. apply Rinv_le_contravar; lra. }
  unfold Rdiv. split; [|nra].
  apply (Rmult_le_reg_r (B2R f1)); [lra|].
  rewrite Rmult_assoc, Rinv_l, Rmult_1_r by lra.
  apply Rle_trans with (bpow (-1022) * bpow 1021).
  - apply Rmult_le_compat_l; [apply Rlt_le, bpow_pos | tauto].
  - rewrite <- bpow_add. change (-1022 + 1021)%Z with (-1)%Z.
    rewrite (bpow_neg_IZR 1). change (2 ^ 1)%Z with 2%Z. lra.
Qed.

Lemma q_step :
  is_real q = true /\ 0 < B2R q <= 4 /\ Rabs (B2R q - t) <= eps.
Proof.
  destruct f1_facts as [R1 [B1 _]]. pose proof t_bounds as Ht.
  pose proof (div_rounds zz f1 zz_real R1 ltac:(lra)) as Hr.
  destruct (step_8 _ (bpow (-1022)) 4 _ Hr) as [Rq [Bq Eq]];
    [apply format_bpow; unfold emin; simpl; lia | apply format_4 | assumption
     | pose proof (bpow_pos (-1022)); lra | lra |].
  pose proof (bpow_pos (-1022)). repeat split; try tauto; lra.
Qed.

Lemma denom_step :
  is_real denom = true /\ 1 <= B2R denom <= 8
  /\ Rabs (B2R denom - (1 + B2R q)) <= eps.
Proof.
  destruct q_step as [Rq [Bq _]].
  pose proof (add_rounds 1 q real_1 Rq) as Hr. rewrite B2R_1 in Hr.
  apply (step_8 _ 1 8 _ Hr); [apply format_1 | apply format_8 | lra | lra | lra].
Qed.

Lemma count_order : B2R f1 <= B2R f2.
Proof.
  destruct f1_facts as [R1 _]. destruct f2_facts as [R2 _].
  apply (rounds_to_mono N (2 * N)); auto. lra.
Qed.

Lemma a_step :
  is_real a = true /\ 0 <= B2R a <= B2R q /\ Rabs (B2R a - t / 2) <= 3 * eps.
Proof.
  destruct f1_facts as [R1 [B1 E1]]. destruct f2_facts as [R2 [B2 E2]].
  pose proof zz_bounds as Hzz. pose proof count_order as H12.
  destruct (div_by_count zz f2 zz_real ltac:(lra) R2 (proj1 B2)) as [Ra [Ba Na]].
  assert (Haq : B2R a <= B2R q)
    by (apply div_by_count_mono; auto using zz_real; lra).
  repeat split; try tauto.
  assert (Hy : Rabs (B2R zz / B2R f2) <= 8).
  { apply Rabs_le. split.
    - apply Rle_trans with 0; [lra|].
      apply Rmult_le_pos; [lra|]. apply Rlt_le, Rinv_0_lt_compat. lra.
    - apply (Rmult_le_reg_r (B2R f2)); [lra|]. unfold Rdiv.
      rewrite Rmult_assoc, Rinv_l, Rmult_1_r by lra. nra. }
  pose proof (abs_error_8 _ a Hy Ra Na) as Ea. apply Rabs_bound in Ea.
  (* the quotient by the double count against the half of the first *)
  pose proof eps_small as He. pose proof eps_u as Hu.
  set (w1 := / B2R f1). set (w2 := / B2R f2).
  assert (Hw1 : 0 < w1 <= 1).
  { unfold w1. split; [apply Rinv_0_lt_compat; lra|].
    rewrite <- Rinv_1. apply Rinv_le_contravar; lra. }
  assert (Hw2 : 0 < w2 <= 1).
  { unfold w2. split; [apply Rinv_0_lt_compat; lra|].
    rewrite <- Rinv_1. apply Rinv_le_contravar; lra. }
  assert (Hf1 : B2R f1 * w1 = 1) by (unfold w1; field; lra).
  assert (Hf2 : B2R f2 * w2 = 1) by (unfold w2; field; lra).
  assert (Hd : - (4 * u) * (B2R f2) <= 2 * B2R f1 - B2R f2 <= 4 * u * B2R f2).
  { assert (0 <= N * u) by nra. assert (N * u <= B2R f2 * u) by nra. lra. }
  assert (Hw : - (4 * u) <= 2 * w2 - w1 <= 4 * u).
  { assert (Hid : 2 * w2 - w1 = (2 * B2R f1 - B2R f2) * w2 * w1).
    { unfold w1, w2. field. lra. }
    rewrite Hid.
    assert (H1 : (2 * B2R f1 - B2R f2) * w2 <= 4 * u * B2R f2 * w2)
      by (apply Rmult_le_compat_r; lra).
    assert (H2 : - (4 * u) * B2R f2 * w2 <= (2 * B2R f1 - B2R f2) * w2)
      by (apply Rmult_le_compat_r; lra).
    replace (4 * u * B2R f2 * w2) with (4 * u) in H1 by nra.
    replace (- (4 * u) * B2R f2 * w2) with (- (4 * u)) in H2 by nra.
    nra. }
  assert (Hzw : - (4 * u) * (B2R zz / 2) <= (2 * w2 - w1) * (B2R zz / 2)
                <= 4 * u * (B2R zz / 2))
    by (split; apply Rmult_le_compat_r; lra).
  assert (Huz : u * B2R zz <= u * 4)
    by (apply Rmult_le_compat_l; [apply Rlt_le, bpow_pos | lra]).
  unfold Rdiv in *. fold w1 w2 in Ea |- *.
  apply Rabs_le. lra.
Qed.

Lemma pa_step :
  is_real pa = true /\ 0 <= B2R pa <= B2R denom
  /\ Rabs (B2R pa - (B2R p + B2R a)) <= eps.
Proof.
  destruct q_step as [Rq [Bq _]]. destruct denom_step as [Rd [Bd _]].
  destruct a_step as [Ra [Ba _]].
  pose proof (add_rounds p a Rp Ra) as Hr.
  destruct (step_8 _ 0 8 _ Hr) as [Rpa [Bpa Epa]];
    [apply format_0 | apply format_8 | lra | lra | lra |].
  repeat split; try tauto.
  apply add_mono; auto using real_1; rewrite ?B2R_1; lra.
Qed.

Lemma center_step :
  is_real center = true /\ 0 <= B2R center <= 1
  /\ Rabs (B2R center - B2R pa / B2R denom) <= eps.
Proof.
  destruct denom_step as [Rd [Bd _]]. destruct pa_step as [Rpa [Bpa _]].
  pose proof (div_rounds pa denom Rpa Rd ltac:(lra)) as Hr.
  apply (step_8 _ 0 1 _ Hr); [apply format_0 | apply format_1 | | lra | lra].
  split.
  - apply Rmult_le_pos; [tauto|]. apply Rlt_le, Rinv_0_lt_compat. lra.
  - apply (Rmult_le_reg_r (B2R denom)); [lra|]. unfold Rdiv.
    rewrite Rmult_assoc, Rinv_l, Rmult_1_r by lra. lra.
Qed.

(** The estimate against the centre. *)
Lemma centre_distance :
  Rabs (B2R p - B2R center)
  <= t * Rabs (B2R p - / 2) / B2R denom + 7 * eps.
Proof.
  destruct q_step as [_ [_ Eq]]. destruct denom_step as [_ [Bd Ed]].
  destruct a_step as [_ [_ Ea]]. destruct pa_step as [_ [_ Epa]].
  destruct center_step as [_ [_ Ec]]. pose proof t_bounds as Ht.
  pose proof (bpow_pos (-1022)). pose proof eps_small.
  apply (centre_error _ _ (B2R q) _ (B2R a) (B2R pa)); auto; lra.
Qed.

Local Abbreviation b := (zz / f4)%float.
Local Abbreviation om := (1 - p)%float.
Local Abbreviation pm := (p * om)%float.
Local Abbreviation s1 := (pm + b)%float.
Local Abbreviation r := (s1 / f1)%float.
Local Abbreviation s := (PrimFloat.sqrt r).
Local Abbreviation zs := (z_default * s)%float.
Local Abbreviation half := (zs / denom)%float.

Lemma b_step :
  is_real b = true /\ 0 <= B2R b <= 4
  /\ rounds_to (B2R zz / B2R f4) (Prim2SF b).
Proof.
  destruct f4_facts as [R4 [B4 _]]. pose proof zz_bounds as Hzz.
  destruct (div_by_count zz f4 zz_real ltac:(lra) R4 (proj1 B4)) as [Rb [Bb Nb]].
  repeat split; try tauto; lra.
Qed.

Lemma om_step :
  is_real om = true /\ 0 <= B2R om <= 1
  /\ Rabs (B2R om - (1 - B2R p)) <= eps.
Proof.
  pose proof (sub_rounds 1 p real_1 Rp) as Hr. rewrite B2R_1 in Hr.
  apply (step_8 _ 0 1 _ Hr); [apply format_0 | apply format_1 | lra | lra | lra].
Qed.

Lemma pm_step :
  is_real pm = true /\ 0 <= B2R pm <= 1
  /\ B2R p * (1 - B2R p) - 2 * eps <= B2R pm.
Proof.
  destruct om_step as [Rom [Bom Eom]].
  pose proof (mul_rounds p om Rp Rom) as Hr.
  destruct (step_8 _ 0 1 _ Hr) as [Rpm [Bpm Epm]];
    [apply format_0 | apply format_1 | nra | lra | lra |].
  repeat split; try tauto.
  apply Rabs_bound in Eom, Epm. pose proof eps_small. nra.
Qed.

Lemma s1_step :
  is_real s1 = true /\ 0 <= B2R s1 <= 8
  /\ rounds_to (B2R pm + B2R b) (Prim2SF s1).
Proof.
  destruct pm_step as [Rpm [Bpm _]]. destruct b_step as [Rb [Bb _]].
  pose proof (add_rounds pm b Rpm Rb) as Hr.
  destruct (step_8 _ 0 8 _ Hr) as [Rs1 [Bs1 _]];
    [apply format_0 | apply format_8 | lra | lra | lra |].
  tauto.
Qed.

Lemma r_step :
  is_real r = true /\ 0 <= B2R r <= 8
  /\ rounds_to (B2R s1 / B2R f1) (Prim2SF r).
Proof.
  destruct f1_facts as [R1 [B1 _]]. destruct s1_step as [Rs1 [Bs1 _]].
  destruct (div_by_count s1 f1 Rs1 (proj1 Bs1) R1 (proj1 B1)) as [Rr [Br Nr]].
  repeat split; try tauto; lra.
Qed.

Lemma s_step :
  is_real s = true /\ 0 <= B2R s <= 3
  /\ Rabs (B2R s - R_sqrt.sqrt (B2R r)) <= eps.
Proof.
  destruct r_step as [Rr [Br _]].
  pose proof (sqrt_rounds r Rr (proj1 Br)) as Hr.
  apply (step_8 _ 0 3 _ Hr); [apply format_0 | apply format_3 | | lra | lra].
  split; [apply sqrt_pos|].
  rewrite <- (sqrt_square 3) by lra. apply sqrt_le_1_alt. lra.
Qed.

Lemma zs_step :
  is_real zs = true /\ 0 <= B2R zs <= 6
  /\ Rabs (B2R zs - B2R z_default * B2R s) <= eps.
Proof.
  destruct s_step as [Rs [Bs _]]. pose proof z_bounds as Hz.
  assert (Rz : is_real z_default = true) by reflexivity.
  pose proof (mul_rounds z_default s Rz Rs) as Hr.
  apply (step_8 _ 0 6 _ Hr); [apply format_0 | apply format_6 | nra | lra | lra].
Qed.

Lemma half_step :
  is_real half = true /\ 0 <= B2R half <= 6
  /\ Rabs (B2R half - B2R zs / B2R denom) <= eps.
Proof.
  destruct zs_step as [Rzs [Bzs _]]. destruct denom_step as [Rd [Bd _]].
  pose proof (div_rounds zs denom Rzs Rd ltac:(lra)) as Hr.
  apply (step_8 _ 0 6 _ Hr); [apply format_0 | apply format_6 | | lra | lra].
  split.
  - apply Rmult_le_pos; [tauto|]. apply Rlt_le, Rinv_0_lt_compat. lra.
  - apply (Rmult_le_reg_r (B2R denom)); [lra|]. unfold Rdiv.
    rewrite Rmult_assoc, Rinv_l, Rmult_1_r by lra. nra.
Qed.

(** The half-width is at most [4 eps] below the exact quotient. *)
Lemma half_lower :
  B2R z_default * R_sqrt.sqrt (B2R r) / B2R denom - 4 * eps <= B2R half.
Proof.
  destruct s_step as [_ [_ Es]]. destruct zs_step as [_ [_ Ezs]].
  destruct half_step as [_ [_ Eh]]. destruct denom_step as [_ [Bd _]].
  pose proof z_bounds as Hz. pose proof eps_small as He.
  apply Rabs_bound in Es, Ezs, Eh.
  set (w := / B2R denom).
  assert (Hw : 0 < w <= 1).
  { unfold w. split; [apply Rinv_0_lt_compat; lra|].
    rewrite <- Rinv_1. apply Rinv_le_contravar; lra. }
  unfold Rdiv in *. fold w in Eh |- *.
  assert (H1 : B2R z_default * R_sqrt.sqrt (B2R r) - 3 * eps <= B2R zs) by nra.
  assert (H2 : (B2R z_default * R_sqrt.sqrt (B2R r) - 3 * eps) * w <= B2R zs * w)
    by (apply Rmult_le_compat_r; lra).
  nra.
Qed.

(** While the count is below [2^100] every step under the square root is
    in the normal range, and the half-width covers the distance. *)
Lemma half_covers_small :
  N <= bpow 100 ->
  t * Rabs (B2R p - / 2)
  <= B2R z_default * R_sqrt.sqrt (B2R r) + 32 * eps.
Proof.
  intros Hs.
  destruct (count_facts f1 N 100 ltac:(lia) ltac:(lra) N1) as [R1 [B1 E1]].
  assert (H4N : 1 <= 4 * N <= bpow 102).
  { change 102%Z with (100 + 1 + 1)%Z. rewrite !bpow_succ. lra. }
  destruct (count_facts f4 (4 * N) 102 ltac:(lia) H4N N4) as [R4 [B4 E4]].
  pose proof zz_bounds as Hzz. pose proof eps_small as He. pose proof eps_u as Hu.
  pose proof (bpow_pos (-53)) as Hu0.
  destruct b_step as [Rb [Bb Nb]]. destruct pm_step as [Rpm [Bpm Epm]].
  destruct s1_step as [Rs1 [Bs1 Ns1]]. destruct r_step as [Rr [Br Nr]].
  (* the three relative errors *)
  assert (Hq4 : bpow (-101) <= B2R zz / B2R f4).
  { apply (div_lower _ _ 1 102); [rewrite bpow_1; lra | lra]. }
  assert (Hb : B2R zz / B2R f4 * (1 - u) <= B2R b).
  { apply step_rel; auto.
    apply Rle_trans with (bpow (-101)); [apply bpow_le; lia | assumption]. }
  assert (Hb' : bpow (-102) <= B2R b).
  { pose proof (half_bpow (-101)) as H. change (-101 - 1)%Z with (-102)%Z in H.
    apply Rle_trans with (bpow (-101) * (1 - u)); [lra|].
    apply Rle_trans with (B2R zz / B2R f4 * (1 - u)); [|assumption].
    apply Rmult_le_compat_r; lra. }
  assert (Hs1 : (B2R pm + B2R b) * (1 - u) <= B2R s1).
  { apply step_rel; auto.
    apply Rle_trans with (bpow (-102)); [apply bpow_le; lia | lra]. }
  assert (Hs1' : bpow (-103) <= B2R s1).
  { pose proof (half_bpow (-102)) as H. change (-102 - 1)%Z with (-103)%Z in H.
    apply Rle_trans with (bpow (-102) * (1 - u)); [lra|].
    apply Rle_trans with ((B2R pm + B2R b) * (1 - u)); [|assumption].
    apply Rmult_le_compat_r; lra. }
  assert (Hr : B2R s1 / B2R f1 * (1 - u) <= B2R r).
  { apply step_rel; auto.
    apply Rle_trans with (bpow (-103 - 100)); [apply bpow_le; lia|].
    apply div_lower; [assumption | lra]. }
  (* the radicand and its root *)
  pose proof (radicand_error (B2R p) N (B2R f1) (B2R f4) (B2R zz)
                (B2R z_default) (B2R b) (B2R pm) (B2R s1) (B2R r) u eps
                Bp (proj1 HN) (Rlt_le _ _ Hu0) ltac:(lra) (proj2 He)) as Hrad.
  cbv zeta in Hrad.
  pose proof t_bounds as Ht. pose proof (bpow_pos (-1022)) as Hmin.
  pose proof z_bounds as Hz.
  apply half_covers; try lra.
  - apply Rmult_le_pos; [lra | apply sqrt_pos].
  - replace (B2R z_default * R_sqrt.sqrt (B2R r)
             * (B2R z_default * R_sqrt.sqrt (B2R r)))
      with (B2R z_default * B2R z_default
            * (R_sqrt.sqrt (B2R r) * R_sqrt.sqrt (B2R r))) by ring.
    rewrite sqrt_sqrt by tauto.
    apply Hrad; try assumption; try lra.
    + apply Rabs_le. lra.
    + apply Rabs_le. lra.
    + apply zz_below_square.
Qed.

(** From [2^100] on the distance itself is negligible. *)
Lemma distance_large :
  bpow 100 <= N -> t * Rabs (B2R p - / 2) <= eps.
Proof.
  intros Hl. destruct f1_facts as [R1 [B1 E1]]. pose proof zz_bounds as Hzz.
  assert (H99 : bpow 99 <= B2R f1).
  { pose proof (half_bpow 100) as H. change (100 - 1)%Z with 99%Z in H.
    pose proof (bpow_pos (-53)). pose proof eps_small. pose proof eps_u.
    apply Rle_trans with (bpow 100 * (1 - u)); [lra|].
    apply Rle_trans with (N * (1 - u)); [|tauto].
    apply Rmult_le_compat_r; lra. }
  pose proof (bpow_pos 99) as H99p.
  assert (Ht : t <= bpow (-97)).
  { apply (Rmult_le_reg_r (B2R f1)); [lra|]. unfold Rdiv.
    rewrite Rmult_assoc, Rinv_l, Rmult_1_r by lra.
    apply Rle_trans with (bpow (-97) * bpow 99).
    - rewrite <- bpow_add. change (-97 + 99)%Z with (1 + 1)%Z.
      rewrite bpow_succ, bpow_1. lra.
    - apply Rmult_le_compat_l; [apply Rlt_le, bpow_pos | assumption]. }
  pose proof t_bounds as Ht0. pose proof (bpow_pos (-1022)).
  assert (Hp : 0 <= Rabs (B2R p - / 2) <= 1).
  { split; [apply Rabs_pos|]. apply Rabs_le. lra. }
  assert (H97 : bpow (-97) <= eps) by (apply bpow_le; lia).
  nra.
Qed.

(** In both cases the estimate is no further from the centre than the
    half-width, up to 43 roundings. *)
Lemma estimate_within_half :
  Rabs (B2R p - B2R center) <= B2R half + 43 * eps.
Proof.
  pose proof centre_distance as Hc. pose proof half_lower as Hh.
  destruct half_step as [_ [Bh _]]. destruct denom_step as [_ [Bd _]].
  pose proof eps_small as He.
  set (w := / B2R denom).
  assert (Hw : 0 < w <= 1).
  { unfold w. split; [apply Rinv_0_lt_compat; lra|].
    rewrite <- Rinv_1. apply Rinv_le_contravar; lra. }
  set (X := t * Rabs (B2R p - / 2)) in *.
  unfold Rdiv in Hc, Hh. fold w in Hc, Hh.
  assert (HX : 0 <= X).
  { unfold X. pose proof t_bounds. pose proof (bpow_pos (-1022)).
    apply Rmult_le_pos; [lra | apply Rabs_pos]. }
  destruct (Rle_or_lt N (bpow 100)) as [Hs|Hl].
  - pose proof (half_covers_small Hs) as Hcov. fold X in Hcov.
    set (Y := B2R z_default * R_sqrt.sqrt (B2R r)) in *.
    assert (X * w <= (Y + 32 * eps) * w) by (apply Rmult_le_compat_r; lra).
    assert (32 * eps * w <= 32 * eps * 1) by (apply Rmult_le_compat_l; lra).
    lra.
  - pose proof (distance_large (Rlt_le _ _ Hl)) as Hd. fold X in Hd.
    assert (X * w <= X * 1) by (apply Rmult_le_compat_l; lra).
    lra.
Qed.

(** The two clamped bounds against the estimate. *)
Lemma bounds_around_estimate :
  B2R (py_max 0 (center - half)) <= B2R p + 44 * eps
  /\ B2R p <= B2R (py_min 1 (center + half)) + 44 * eps.
Proof.
  pose proof estimate_within_half as Hd. apply Rabs_bound in Hd.
  destruct center_step as [Rc [Bc _]]. destruct half_step as [Rh [Bh _]].
  pose proof eps_small as He.
  pose proof (sub_rounds center half Rc Rh) as Hsub.
  destruct (step_8 _ (-8) 8 _ Hsub) as [_ [_ Es]];
    [apply format_opp, format_8 | apply format_8 | lra | lra | lra |].
  pose proof (add_rounds center half Rc Rh) as Hadd.
  destruct (step_8 _ 0 8 _ Hadd) as [_ [_ Ea]];
    [apply format_0 | apply format_8 | lra | lra | lra |].
  apply Rabs_bound in Es, Ea.
  unfold py_max, py_min. split.
  - destruct (0 <? center - half)%float; rewrite ?B2R_0; lra.
  - destruct (center + half <? 1)%float; rewrite ?B2R_1; lra.
Qed.

End WilsonSteps.

(** ** The whole computation *)

Section WilsonTotal.

Local Open Scope R_scope.

(** The whole computation, for [0 <= k <= n], [0 < n <= 2^1021]: no step
    raises, the bounds are ordered within [0, 1], and the estimate lies
    between them up to 44 roundings of [2^-51]. *)
Lemma wilson_interval_steps (k n : Z) :
  (0 <= k <= n)%Z -> (0 < n <= 2 ^ 1021)%Z ->
  exists p l u : float,
    wilson_interval k n z_default = Ok (p, l, u)
    /\ int_truediv k n = Ok p
    /\ is_real p = true /\ is_real l = true /\ is_real u = true
    /\ 0 <= B2R p <= 1 /\ 0 <= B2R l /\ B2R l <= B2R u /\ B2R u <= 1
    /\ B2R l <= B2R p + 44 * bpow (-51)
    /\ B2R p <= B2R u + 44 * bpow (-51).
Proof.
  intros Hk Hn. unfold wilson_interval.
  destruct (Z.eqb_spec n 0) as [|_]; [lia|].
  destruct (phat_real k n Hk (proj1 Hn)) as [p [Ep [Rp [Bp _]]]].
  rewrite Ep. cbn [bind].
  change (float_pow2 z_default) with (Ok (z_default * z_default)%float).
  cbn [bind].
  (* the three counts *)
  assert (H1023 : (2 ^ 1021 * 4 = 2 ^ 1023)%Z) by reflexivity.
  destruct (count_real n ltac:(lia)) as [f1 [E1 [R1 [B1 N1]]]].
  destruct (count_real (2 * n) ltac:(lia)) as [f2 [E2 [R2 [B2 N2]]]].
  destruct (count_real (4 * n) ltac:(lia)) as [f4 [E4 [R4 [B4 N4]]]].
  rewrite mult_IZR in N2, N4.
  assert (HN : 1 <= IZR n <= bpow 1021).
  { split; [apply IZR_le; lia|]. rewrite bpow_IZR by lia. apply IZR_le. lia. }
  unfold float_truediv_int. rewrite E1, E2, E4. cbn [bind].
  (* the steps *)
  destruct (denom_step p f1 _ Bp HN N1) as [Rd [Bd _]].
  destruct (center_step p f1 f2 _ Rp Bp HN N1 N2) as [Rc [Bc _]].
  destruct (s_step p f1 f4 _ Rp Bp HN N1 N4) as [Rs _].
  destruct (half_step p f1 f4 _ Rp Bp HN N1 N4) as [Rh [Bh _]].
  destruct (bounds_around_estimate p f1 f2 f4 _ Rp Bp HN N1 N2 N4) as [Tl Tu].
  rewrite (float_truediv_ok _ f1 R1) by lra. cbn [bind].
  rewrite (float_truediv_ok _ f2 R2) by lra. cbn [bind].
  rewrite (float_truediv_ok _ _ Rd) by lra. cbn [bind].
  rewrite (float_truediv_ok _ f4 R4) by lra. cbn [bind].
  rewrite (float_truediv_ok _ f1 R1) by lra. cbn [bind].
  rewrite (math_sqrt_ok _ Rs). cbn [bind].
  rewrite (float_truediv_ok _ _ Rd) by lra. cbn [bind].
  destruct (clamped_bounds _ _ Rc Bc Rh Bh) as [Rl [Ru [Bl Bu]]].
  eexists _, _, _. split; [reflexivity|].
  repeat split; try assumption; try tauto; lra.
Qed.

(** The constant of the tolerance, and the comparison of doubles that
    expresses it. *)
Lemma tolerance_value : B2R 0x1p-45%float = bpow (-45).
Proof.
  change (B2R 0x1p-45%float) with (F2R 4503599627370496 (-97)).
  unfold F2R. change 4503599627370496%Z with (2 ^ 52)%Z.
  rewrite <- bpow_IZR, <- bpow_add by lia. reflexivity.
Qed.

Lemma within_tolerance (x y : float) :
  is_real x = true -> is_real y = true -> 0 <= B2R y <= 1 ->
  B2R x <= B2R y + 44 * bpow (-51) ->
  (x <=? y + 0x1p-45)%float = true.
Proof.
  intros Hx Hy By Hxy. pose proof eps_small as He. pose proof eps_45 as H45.
  assert (Rt : is_real 0x1p-45%float = true) by reflexivity.
  pose proof (add_rounds y 0x1p-45%float Hy Rt) as Hr.
  rewrite tolerance_value in Hr.
  destruct (step_8 _ 0 8 _ Hr) as [Rs [_ Es]];
    [apply format_0 | apply format_8 | lra | lra | lra |].
  apply Rabs_bound in Es. apply (leb_real x _ Hx Rs). lra.
Qed.

End WilsonTotal.

Section Reference.

Lemma qfloor_normalize_3 (i : Z) :
  Qfloor (Spec.normalize i * inject_Z 3)%Q = (3 * i / 4294967295)%Z.
Proof.
  unfold Spec.normalize, Qfloor, Qdiv, Qmult, Qinv, inject_Z. cbn [Qnum Qden].
  change Spec.max_uint32 with 4294967295%Z. cbn [Qnum Qden].
  change (Z.pos (4294967295 * 1)) with 4294967295%Z.
  f_equal. lia.
Qed.

Lemma spec_select_three (c0 c1 c2 : string) (i : Z) :
  Spec.select [c0; c1; c2] (Spec.normalize i)
  = nth_error [c0; c1; c2] (Z.to_nat ((3 * i / 4294967295) mod 3)).
Proof.
  unfold Spec.select. change (Z.of_nat (List.length [c0; c1; c2])) with 3%Z.
  rewrite qfloor_normalize_3. reflexivity.
Qed.

(** The float computation of the source selects the element that the exact
    computation of the specification selects. *)
Lemma pick_matches_select (c0 c1 c2 : string) (x : Z) :
  exists (b : float) (c : string),
    int_truediv (Spec.be_uint (SHA256.bytes_of_word x)) 0xFFFFFFFF = Ok b
    /\ pick [c0; c1; c2] b = Ok c
    /\ Spec.select [c0; c1; c2]
         (Spec.normalize (Spec.be_uint (SHA256.bytes_of_word x))) = Some c.
Proof.
  destruct (bucket_of_word x) as [b [E [R [V N]]]].
  destruct (pick_three c0 c1 c2 b R V) as [j [c [Hj [Ht [Hp [Hn _]]]]]].
  exists b, c. split; [assumption|]. split; [assumption|].
  rewrite spec_select_three.
  rewrite <- (bucket_index_exact _ b j (be_uint_range x) E R V N Ht).
  assumption.
Qed.

End Reference.

Section Results.

Lemma bind_ok_inv {A B : Type} (r : result A) (k : A -> result B) (b : B) :
  bind r k = Ok b -> exists a : A, r = Ok a /\ k a = Ok b.
Proof. destruct r as [a|e]; cbn [bind]; [eauto | discriminate]. Qed.

(** The estimate returned by the function is the quotient it starts with. *)
Lemma wilson_interval_estimate (k n : Z) (z p l u : float) :
  n <> 0 -> wilson_interval k n z = Ok (p, l, u) -> int_truediv k n = Ok p.
Proof.
  intros Hn. unfold wilson_interval.
  destruct (Z.eqb_spec n 0) as [|_]; [contradiction|]. intros H.
  apply bind_ok_inv in H. destruct H as [p0 [Ep H]].
  repeat (apply bind_ok_inv in H; destruct H as [? [_ H]]).
  injection H as <- _ _. assumption.
Qed.

(** A quotient of integers that is returned is a real double, correctly
    rounded. *)
Lemma int_truediv_ok (a b : Z) (p : float) :
  b <> 0 -> int_truediv a b = Ok p ->
  is_real p = true /\ rounds_to (IZR a / IZR b) (Prim2SF p).
Proof.
  intros Hb. unfold int_truediv.
  destruct (Z.eqb_spec b 0) as [|_]; [contradiction|].
  pose proof (int_div_rounds a b Hb) as Hr.
  pose proof (rounds_to_valid _ _ Hr) as Hv.
  set (r := SFdiv prec emax (Z2SF_raw a) (Z2SF_raw b)) in *.
  destruct (SF_is_infinity r) eqn:Hinf; [discriminate|].
  intros H. injection H as <-. unfold is_real.
  rewrite Prim2SF_SF2Prim by assumption. split; [|assumption].
  destruct r; try reflexivity; try discriminate. contradiction.
Qed.

Lemma int_truediv_mono (a1 a2 n : Z) (p1 p2 : float) :
  0 < n -> a1 <= a2 ->
  int_truediv a1 n = Ok p1 -> int_truediv a2 n = Ok p2 ->
  (p1 <=? p2)%float = true.
Proof.
  intros Hn Ha E1 E2.
  destruct (int_truediv_ok a1 n p1 ltac:(lia) E1) as [R1 N1].
  destruct (int_truediv_ok a2 n p2 ltac:(lia) E2) as [R2 N2].
  apply (leb_real p1 p2 R1 R2).
  destruct (Z.eq_dec a1 a2) as [->|Hne].
  - rewrite E1 in E2. injection E2 as <-. apply Rle_refl.
  - apply (rounds_to_mono (IZR a1 / IZR n) (IZR a2 / IZR n)); auto.
    unfold Rdiv. apply Rmult_lt_compat_r.
    + apply Rinv_0_lt_compat, IZR_lt. assumption.
    + apply IZR_lt. lia.
Qed.

Lemma wilson_interval_floats (k n : Z) :
  0 <= k <= n -> 0 < n <= 2 ^ 1021 ->
  exists p l u : float,
    wilson_interval k n z_default = Ok (p, l, u)
    /\ (0 <=? p)%float = true /\ (p <=? 1)%float = true
    /\ (0 <=? l)%float = true /\ (l <=? 1)%float = true
    /\ (0 <=? u)%float = true /\ (u <=? 1)%float = true
    /\ (l <=? u)%float = true
    /\ (l <=? p + 0x1p-45)%float = true
    /\ (p <=? u + 0x1p-45)%float = true.
Proof.
  intros Hk Hn.
  destruct (wilson_interval_steps k n Hk Hn)
    as [p [l [u [E [_ [Rp [Rl [Ru [Bp [Bl [Blu [Bu [Tl Tu]]]]]]]]]]]]].
  exists p, l, u. split; [assumption|].
  pose proof real_0 as H0. pose proof real_1 as H1.
  repeat split;
    first [apply (leb_real 0 _ H0) | apply (leb_real _ 1); [|exact H1]
           | apply within_tolerance | apply leb_real];
    rewrite ?B2R_0, ?B2R_1; auto; lra.
Qed.

End Results.

Section Example.

Local Open Scope R_scope.

(** The exact interval of the specification at 10 clicks on 100
    impressions, between two decimals. *)
Lemma wilson_exact_example :
  0.05522 < Spec.wilson_lower 10 100 (196 / 100) < 0.05523
  /\ 0.17436 < Spec.wilson_upper 10 100 (196 / 100) < 0.17437.
Proof.
  unfold Spec.wilson_lower, Spec.wilson_upper, Spec.wilson_center, Spec.wilson_half.
  set (r := (10 / 100 * (1 - 10 / 100) + 196 / 100 * (196 / 100) / (4 * 100)) / 100).
  assert (Hr : r = 99604 / 100000000) by (unfold r; field).
  assert (Hs : 0.03156 <= R_sqrt.sqrt r <= 0.031561).
  { split.
    - rewrite <- (sqrt_square 0.03156) by lra.
      apply sqrt_le_1_alt. rewrite Hr. lra.
    - rewrite <- (sqrt_square 0.031561) by lra.
      apply sqrt_le_1_alt. rewrite Hr. lra. }
  set (s := R_sqrt.sqrt r) in *.
  assert (Hd : 1 + 196 / 100 * (196 / 100) / 100 = 1038416 / 1000000) by field.
  rewrite Hd.
  assert (Hc : (10 / 100 + 196 / 100 * (196 / 100) / (2 * 100)) / (1038416 / 1000000)
               = 119208 / 1038416) by field.
  rewrite Hc.
  assert (Hh : 196 / 100 * s / (1038416 / 1000000) = s * (1960000 / 1038416))
    by field.
  rewrite Hh.
  rewrite Rmax_right by lra. rewrite Rmin_right by lra. lra.
Qed.

End Example.

(** ** Outcomes of the numeric primitives *)

Section Outcomes.

Local Open Scope R_scope.

Lemma ltb_leb (a b : float) : (a <? b)%float = true -> (a <=? b)%float = true.
Proof.
  rewrite ltb_spec, leb_spec. unfold SFltb, SFleb.
  destruct (SFcompare (Prim2SF a) (Prim2SF b)) as [[| |]|]; auto.
Qed.

(** [float(n)] returns a correctly rounded real double or raises
    [OverflowError]. *)
Lemma float_of_int_cases (n : Z) :
  float_of_int n = Raise OverflowError
  \/ exists f : float,
       float_of_int n = Ok f /\ is_real f = true
       /\ rounds_to (IZR n) (Prim2SF f).
Proof.
  unfold float_of_int. pose proof (int_conv_rounds n) as Hr.
  pose proof (rounds_to_valid _ _ Hr) as Hv.
  set (r := binary_normalize prec emax n 0 false) in *.
  destruct (SF_is_infinity r) eqn:Hinf; [left; reflexivity|right].
  exists (SF2Prim r). unfold is_real. rewrite Prim2SF_SF2Prim by assumption.
  repeat split; [|assumption].
  destruct r; try reflexivity; try discriminate. contradiction.
Qed.

Lemma int_truediv_cases (a b : Z) :
  b <> 0%Z ->
  int_truediv a b = Raise OverflowError
  \/ exists p : float, int_truediv a b = Ok p.
Proof.
  intros Hb. unfold int_truediv. destruct (Z.eqb_spec b 0) as [|_]; [contradiction|].
  destruct (SF_is_infinity _); [left | right; eexists]; reflexivity.
Qed.

(** An integer of [2^1024] or more is too large for a double. *)
Lemma float_of_int_overflow (n : Z) :
  (2 ^ 1024 <= n)%Z -> float_of_int n = Raise OverflowError.
Proof.
  intros Hn. destruct (float_of_int_cases n) as [|[f [_ [Hf Hr]]]]; [assumption|].
  exfalso. pose proof (B2R_lt_emax f Hf) as Hlt.
  assert (Hge : bpow emax <= B2R f).
  { apply (nearest_ge (IZR n)); [apply rounds_to_nearest; assumption | |].
    - apply format_bpow. unfold emin, emax, prec. lia.
    - rewrite bpow_IZR by (unfold emax; lia). apply IZR_le. assumption. }
  pose proof (bpow_pos emax). rewrite Rabs_right in Hlt by lra. lra.
Qed.

(** The conversion of a positive integer is at least one. *)
Lemma conv_pos (n : Z) (f : float) :
  (0 < n)%Z -> is_real f = true -> rounds_to (IZR n) (Prim2SF f) -> 1 <= B2R f.
Proof.
  intros Hn Hf Hr.
  apply (nearest_ge (IZR n)); [apply rounds_to_nearest; assumption | apply format_1 |].
  apply IZR_le. lia.
Qed.

(** The conversion of an integer of [-4] or less is at most [-4]. *)
Lemma conv_neg (n : Z) (f : float) :
  (n <= -4)%Z -> is_real f = true -> rounds_to (IZR n) (Prim2SF f) -> B2R f <= -4.
Proof.
  intros Hn Hf Hr.
  apply (nearest_le (IZR n)); [apply rounds_to_nearest; assumption | |].
  - apply (format_IZR (-4)). reflexivity.
  - apply IZR_le. lia.
Qed.

End Outcomes.

Section Denominator.

Local Open Scope R_scope.

Lemma conv_nonzero (n : Z) (f : float) :
  n <> 0%Z -> is_real f = true -> rounds_to (IZR n) (Prim2SF f) -> B2R f <> 0.
Proof.
  intros Hn Hf Hr. destruct (Z_lt_le_dec 0 n) as [Hpos|Hneg].
  - pose proof (conv_pos n f Hpos Hf Hr). lra.
  - assert (B2R f <= -1); [|lra].
    apply (nearest_le (IZR n)); [apply rounds_to_nearest; assumption | |].
    + apply (format_IZR (-1)). reflexivity.
    + apply IZR_le. lia.
Qed.

Lemma zz_upper : B2R (z_default * z_default)%float <= 31 / 8.
Proof.
  rewrite zz_value. unfold F2R. rewrite (bpow_neg_IZR 51).
  change (2 ^ 51)%Z with 2251799813685248%Z. lra.
Qed.

(** The denominator [1 + z**2/n] is never zero: it is at least one for a
    positive count, at least [1/32] from [-4] down, and is computed for the
    three counts between. *)
Lemma denom_nonzero (n : Z) (f1 : float) :
  n <> 0%Z -> float_of_int n = Ok f1 ->
  is_real f1 = true -> rounds_to (IZR n) (Prim2SF f1) ->
  ((1 + z_default * z_default / f1) =? 0)%float = false.
Proof.
  intros Hn E1 R1 N1. pose proof zz_bounds as Hzz. pose proof zz_upper as Hzu.
  pose proof eight_lt_emax as H8.
  destruct (Z_lt_le_dec 0 n) as [Hpos|Hneg].
  - (* a positive count *)
    pose proof (conv_pos n f1 Hpos R1 N1) as B1.
    destruct (div_by_count _ f1 zz_real ltac:(lra) R1 B1) as [Rq [Bq _]].
    pose proof (add_rounds 1 _ real_1 Rq) as Hr. rewrite B2R_1 in Hr.
    destruct (step_8 _ 1 8 _ Hr) as [Rd [Bd _]];
      [apply format_1 | apply format_8 | lra | lra | lra |].
    apply eqb_zero_real; [assumption | lra].
  - destruct (Z_le_gt_dec n (-4)) as [H4|H4].
    + (* from -4 down *)
      pose proof (conv_neg n f1 H4 R1 N1) as B1.
      pose proof (div_rounds _ f1 zz_real R1 ltac:(lra)) as Hq.
      assert (Hw : - / 4 <= / B2R f1 < 0).
      { assert (Hg : 0 < / (- B2R f1) <= / 4).
        { split; [apply Rinv_0_lt_compat; lra|].
          apply Rinv_le_contravar; lra. }
        replace (/ B2R f1) with (- / (- B2R f1)) by (field; lra). lra. }
      destruct (prim_bounds _ (F2R (-31) (-5)) 0 _ Hq) as [Rq Bq];
        [apply format_F2R; [reflexivity | unfold emin; simpl; lia]
         | apply format_0
         | | | pose proof (bpow_pos emax); lra |].
      * unfold F2R. rewrite (bpow_neg_IZR 5). change (2 ^ 5)%Z with 32%Z.
        unfold Rdiv. split; nra.
      * unfold F2R. rewrite (bpow_neg_IZR 5). change (2 ^ 5)%Z with 32%Z. lra.
      * pose proof (add_rounds 1 _ real_1 Rq) as Hr. rewrite B2R_1 in Hr.
        assert (H32 : F2R (-31) (-5) = - (31 / 32)).
        { unfold F2R. rewrite (bpow_neg_IZR 5). change (2 ^ 5)%Z with 32%Z. lra. }
        rewrite H32 in Bq.
        destruct (prim_bounds _ (bpow (-5)) 1 _ Hr) as [Rd Bd];
          [apply format_bpow; unfold emin; simpl; lia | apply format_1
           | rewrite (bpow_neg_IZR 5); change (2 ^ 5)%Z with 32%Z; lra
           | pose proof (bpow_pos (-5)); lra | lra |].
        pose proof (bpow_pos (-5)).
        apply eqb_zero_real; [assumption | lra].
    + (* the three counts between *)
      assert (n = -1 \/ n = -2 \/ n = -3)%Z as [-> | [-> | ->]] by lia;
        vm_compute in E1; injection E1 as <-; vm_compute; reflexivity.
Qed.

End Denominator.

Lemma float_truediv_nonzero (a b : float) :
  (b =? 0)%float = false -> float_truediv a b = Ok (a / b)%float.
Proof. intros H. unfold float_truediv. rewrite H. reflexivity. Qed.

Section Estimate.

(** A call that returns has converted four times the count. *)
Lemma wilson_interval_count_converted (k n : Z) (z : float)
      (t : float * float * float) :
  n <> 0 -> wilson_interval k n z = Ok t -> 4 * n < 2 ^ 1024.
Proof.
  intros Hn. unfold wilson_interval.
  destruct (Z.eqb_spec n 0) as [|_]; [contradiction|]. intros H.
  do 5 (apply bind_ok_inv in H; destruct H as [? [_ H]]).
  apply bind_ok_inv in H. destruct H as [b [E4 _]].
  unfold float_truediv_int in E4.
  apply bind_ok_inv in E4. destruct E4 as [f4 [E4 _]].
  destruct (Z_lt_le_dec (4 * n) (2 ^ 1024)) as [|Hge]; [assumption|].
  rewrite (float_of_int_overflow _ Hge) in E4. discriminate.
Qed.

End Estimate.

Section Ends.

Local Open Scope R_scope.

Lemma int_truediv_zero (n : Z) (p : float) :
  (0 < n)%Z -> int_truediv 0 n = Ok p -> p = 0%float.
Proof.
  intros Hn H. unfold int_truediv in H. destruct n as [|q|q]; try lia.
  cbn in H. injection H as <-. reflexivity.
Qed.

Lemma int_truediv_same (n : Z) (p : float) :
  (0 < n)%Z -> int_truediv n n = Ok p -> p = 1%float.
Proof.
  intros Hn H. destruct (int_truediv_ok n n p ltac:(lia) H) as [Rp Np].
  assert (H1 : IZR n / IZR n = 1) by (field; apply not_0_IZR; lia).
  rewrite H1 in Np.
  pose proof (nearest_exact 1 _ format_1 (rounds_to_nearest _ _ Rp Np)) as Hv.
  apply B2R_inj; [assumption | apply real_1 | rewrite B2R_1; assumption | lra].
Qed.

Lemma below_one_value : B2R 0x1.fffffffffffp-1%float = 1 - bpow (-45).
Proof.
  change (B2R 0x1.fffffffffffp-1%float) with (F2R 9007199254740736 (-53)).
  unfold F2R. rewrite (bpow_neg_IZR 53), (bpow_neg_IZR 45).
  change (2 ^ 53)%Z with 9007199254740992%Z.
  change (2 ^ 45)%Z with 35184372088832%Z. lra.
Qed.

End Ends.

(** ** The choice among any number of entries *)

Section Choice.

Local Open Scope R_scope.

Lemma py_index_in {A : Type} (l : list A) (j : Z) :
  (0 <= j < py_len l)%Z -> exists c : A, py_index l j = Ok c /\ In c l.
Proof.
  unfold py_len, py_index. intros Hj.
  destruct (Z.ltb_spec j 0) as [|_]; [lia|].
  destruct (Z.ltb_spec j 0) as [|_]; [lia|].
  destruct (Z.leb_spec (Z.of_nat (List.length l)) j) as [|_]; [lia|].
  cbn [orb].
  destruct (nth_error l (Z.to_nat j)) as [c|] eqn:E.
  - exists c. split; [reflexivity|]. eapply nth_error_In; eassumption.
  - apply nth_error_None in E. lia.
Qed.

(** The index computed from a bucket of [0, 1] is in range for every
    non-empty list. *)
Lemma pick_member (choices : list string) (b : float) :
  choices <> [] -> (py_len choices <= 2 ^ 1023)%Z ->
  is_real b = true -> 0 <= B2R b <= 1 ->
  exists c : string, pick choices b = Ok c /\ In c choices.
Proof.
  intros Hne Hlen Rb Vb. unfold pick.
  assert (Hn : (1 <= py_len choices)%Z).
  { unfold py_len. destruct choices; [contradiction|]. cbn [List.length]. lia. }
  destruct (count_real (py_len choices) ltac:(lia)) as [f [Ef [Rf [Bf _]]]].
  rewrite Ef. cbn [bind].
  pose proof (mul_rounds b f Rb Rf) as Hr.
  destruct (prim_bounds _ 0 (B2R f) _ Hr) as [Rx Bx];
    [apply format_0 | apply B2R_format; assumption | nra | apply zero_gt_emax
     | apply B2R_range; assumption |].
  pose proof (SF_trunc_spec (Prim2SF (b * f)%float) Rx (proj1 Bx)) as Ht.
  fold (B2R (b * f)%float) in Ht.
  set (t := SF_trunc (Prim2SF (b * f)%float)) in *.
  assert (Ht0 : (0 <= t)%Z).
  { assert (H : IZR (-1) < IZR t) by lra.
    apply lt_IZR in H. lia. }
  rewrite (py_int_real _ t Rx Ht Ht0). cbn [bind].
  unfold py_mod. destruct (Z.eqb_spec (py_len choices) 0) as [|_]; [lia|].
  cbn [bind]. apply py_index_in. apply Z.mod_pos_bound. lia.
Qed.

(** With no entry the index is reduced modulo zero. *)
Lemma pick_empty (b : float) :
  is_real b = true -> 0 <= B2R b <= 1 -> pick [] b = Raise ZeroDivisionError.
Proof.
  intros Rb Vb. unfold pick. change (py_len []) with 0%Z.
  change (float_of_int 0) with (Ok 0%float). cbn [bind].
  pose proof (mul_rounds b 0%float Rb real_0) as Hr. rewrite B2R_0 in Hr.
  destruct (prim_bounds _ 0 0 _ Hr) as [Rx Bx];
    [apply format_0 | apply format_0 | lra | apply zero_gt_emax
     | pose proof (bpow_pos emax); lra |].
  rewrite (py_int_real _ 0 Rx); [reflexivity | lra | lia].
Qed.

End Choice.

(** ** Exact operations: zeros and the unit *)

Section ExactOps.

Local Open Scope R_scope.

(** A double that is [+0.0] or positive. *)
Local Abbreviation plain p :=
  (Prim2SF p = S754_zero false
   \/ exists (m : positive) (e : Z), Prim2SF p = S754_finite false m e).

Lemma shape_of_pos (f : float) :
  is_real f = true -> 0 < B2R f ->
  exists (m : positive) (e : Z), Prim2SF f = S754_finite false m e.
Proof.
  unfold is_real, B2R. destruct (Prim2SF f) as [s|s| |s m e]; try discriminate.
  - simpl. lra.
  - intros _ H. rewrite SF2R_cond_opp in H. pose proof (F2R_pos m e).
    destruct s; [lra|]. eauto.
Qed.

Lemma plain_real (p : float) : plain p -> is_real p = true /\ 0 <= B2R p.
Proof.
  unfold is_real, B2R. intros [E|[m [e E]]]; rewrite E; split;
    try reflexivity; cbn [SF2R cond_Zopp];
    first [lra | apply Rlt_le, F2R_pos].
Qed.

Lemma zero_div_pos (f : float) :
  is_real f = true -> 0 < B2R f -> (0 / f)%float = 0%float.
Proof.
  intros Hf Hp. destruct (shape_of_pos f Hf Hp) as [m [e E]].
  apply Prim2SF_inj. rewrite div_spec, E. reflexivity.
Qed.

Lemma add_zero_plain (p : float) : plain p -> (p + 0)%float = p.
Proof.
  intros Hp. apply Prim2SF_inj. rewrite add_spec.
  destruct Hp as [E|[m [e E]]]; rewrite E; reflexivity.
Qed.

Lemma div_one_plain (p : float) : plain p -> (p / 1)%float = p.
Proof.
  intros Hp. destruct Hp as [E|[m [e E]]].
  - apply Prim2SF_inj. rewrite div_spec, E. reflexivity.
  - assert (Rp : is_real p = true) by (unfold is_real; rewrite E; reflexivity).
    assert (Vp : 0 < B2R p).
    { unfold B2R. rewrite E. cbn [SF2R cond_Zopp]. apply F2R_pos. }
    pose proof (div_rounds p 1 Rp real_1) as Hr. rewrite B2R_1 in Hr.
    specialize (Hr ltac:(lra)).
    replace (B2R p / 1) with (B2R p) in Hr by field.
    destruct (prim_bounds _ (B2R p) (B2R p) _ Hr) as [Rq Bq];
      [apply B2R_format; assumption | apply B2R_format; assumption | lra
       | apply B2R_range; assumption | apply B2R_range; assumption |].
    apply B2R_inj; [assumption | assumption | lra | lra].
Qed.

(** Adding or subtracting a zero of either sign. *)
Lemma plus_minus_zero (p h : float) (s : bool) :
  plain p -> Prim2SF h = S754_zero s ->
  (p - h)%float = p /\ (p + h)%float = p.
Proof.
  intros Hp Hh. split; apply Prim2SF_inj; rewrite ?sub_spec, ?add_spec, Hh;
    destruct Hp as [E|[m [e E]]]; rewrite E; destruct s; reflexivity.
Qed.

Lemma zero_times_real (x : float) :
  is_real x = true -> exists s : bool, Prim2SF (0 * x)%float = S754_zero s.
Proof.
  unfold is_real. rewrite mul_spec.
  change (Prim2SF 0%float) with (S754_zero false).
  destruct (Prim2SF x) as [s|s| |s m e]; try discriminate; intros _;
    cbn [SFmul]; eexists; reflexivity.
Qed.

Lemma zero_div_one (h : float) (s : bool) :
  Prim2SF h = S754_zero s -> exists s' : bool, Prim2SF (h / 1)%float = S754_zero s'.
Proof.
  intros Hh. rewrite div_spec, Hh.
  change (Prim2SF 1%float) with (S754_finite false 4503599627370496 (-52)).
  cbn [SFdiv]. eexists. reflexivity.
Qed.

(** The clamps leave a double of [0, 1] as it is. *)
Lemma clamps_plain (p : float) :
  plain p -> B2R p <= 1 -> py_max 0 p = p /\ py_min 1 p = p.
Proof.
  intros Hp H1. destruct (plain_real p Hp) as [Rp H0].
  unfold py_max, py_min. split.
  - destruct Hp as [E|[m [e E]]].
    + assert (p = 0%float) by (apply Prim2SF_inj; rewrite E; reflexivity).
      subst p. reflexivity.
    + assert (Vp : 0 < B2R p).
      { unfold B2R. rewrite E. cbn [SF2R cond_Zopp]. apply F2R_pos. }
      pose proof (ltb_real 0 p real_0 Rp) as Hlt. rewrite B2R_0 in Hlt.
      rewrite (proj2 Hlt Vp). reflexivity.
  - pose proof (ltb_real p 1 Rp real_1) as Hlt. rewrite B2R_1 in Hlt.
    destruct (p <? 1)%float eqn:E; [reflexivity|].
    assert (Hv : B2R p = 1).
    { destruct (Rlt_or_le (B2R p) 1) as [Hl|Hl]; [|lra].
      apply Hlt in Hl. congruence. }
    symmetry. apply B2R_inj; [assumption | apply real_1 | | lra].
    rewrite B2R_1. assumption.
Qed.

End ExactOps.

Section ZeroQuantile.

Local Open Scope R_scope.

(** The estimate of [0 <= k <= n <= 2^1021] is [+0.0] or positive. *)
Lemma phat_plain (k n : Z) (p : float) :
  (0 <= k <= n)%Z -> (0 < n <= 2 ^ 1021)%Z -> int_truediv k n = Ok p ->
  Prim2SF p = S754_zero false
  \/ exists (m : positive) (e : Z), Prim2SF p = S754_finite false m e.
Proof.
  intros Hk Hn E. destruct (Z.eq_dec k 0) as [->|Hk0].
  - left. apply int_truediv_zero in E; [|lia]. subst p. reflexivity.
  - right. destruct (int_truediv_ok k n p ltac:(lia) E) as [Rp Np].
    apply shape_of_pos; [assumption|].
    assert (Hlow : bpow (0 - 1021) <= IZR k / IZR n).
    { apply div_lower.
      - rewrite bpow_0. apply IZR_le. lia.
      - split; [apply IZR_lt; lia|]. rewrite bpow_IZR by lia. apply IZR_le. lia. }
    assert (bpow (0 - 1021) <= B2R p).
    { apply (nearest_ge (IZR k / IZR n));
        [apply rounds_to_nearest; assumption | | assumption].
      apply format_bpow. unfold emin, emax, prec. lia. }
    pose proof (bpow_pos (0 - 1021)). lra.
Qed.

(** The radicand of the zero quantile and its square root. *)
Lemma zero_radicand (p f1 : float) :
  is_real p = true -> 0 <= B2R p <= 1 -> is_real f1 = true -> 1 <= B2R f1 ->
  is_real (PrimFloat.sqrt ((p * (1 - p) + 0) / f1))%float = true.
Proof.
  intros Rp Bp R1 B1. pose proof eight_lt_emax as H8.
  pose proof (sub_rounds 1 p real_1 Rp) as Hom. rewrite B2R_1 in Hom.
  destruct (prim_bounds _ 0 1 _ Hom) as [Rom Bom];
    [apply format_0 | apply format_1 | lra | lra | lra |].
  pose proof (mul_rounds p _ Rp Rom) as Hpm.
  destruct (prim_bounds _ 0 1 _ Hpm) as [Rpm Bpm];
    [apply format_0 | apply format_1 | nra | lra | lra |].
  pose proof (add_rounds _ 0 Rpm real_0) as Hx. rewrite B2R_0 in Hx.
  destruct (prim_bounds _ 0 1 _ Hx) as [Rx Bx];
    [apply format_0 | apply format_1 | lra | lra | lra |].
  destruct (div_by_count _ f1 Rx (proj1 Bx) R1 B1) as [Rr [Br _]].
  pose proof (sqrt_rounds _ Rr (proj1 Br)) as Hs.
  destruct (prim_bounds _ 0 1 _ Hs) as [Rs _];
    [apply format_0 | apply format_1 | | lra | lra | assumption].
  split; [apply sqrt_pos|].
  rewrite <- sqrt_1. apply sqrt_le_1_alt. lra.
Qed.

End ZeroQuantile.

(** ** Sorting by score *)

Section Ranking.

Local Open Scope R_scope.

Import ApiSearch.

Lemma insert_desc_perm (x : float * Doc) (l : list (float * Doc)) :
  Permutation (insert_desc x l) (x :: l).
Proof.
  induction l as [|y l IH]; cbn [insert_desc]; [reflexivity|].
  destruct (fst x <? fst y)%float; [|reflexivity].
  rewrite IH. apply perm_swap.
Qed.

Lemma sorted_desc_perm (l : list (float * Doc)) : Permutation (sorted_desc l) l.
Proof.
  induction l as [|x l IH]; cbn [sorted_desc fold_right]; [reflexivity|].
  fold (sorted_desc l). rewrite insert_desc_perm, IH. reflexivity.
Qed.

(** Keys that are real doubles come out in descending order. *)
Lemma insert_desc_sorted (x : float * Doc) (l : list (float * Doc)) :
  is_real (fst x) = true -> Forall (fun y => is_real (fst y) = true) l ->
  StronglySorted (fun a b => B2R (fst b) <= B2R (fst a)) l ->
  StronglySorted (fun a b => B2R (fst b) <= B2R (fst a)) (insert_desc x l).
Proof.
  intros Hx Hl Hs. induction l as [|y l IH]; cbn [insert_desc].
  - constructor; constructor.
  - inversion Hl as [|? ? Hy Hl']; subst. inversion Hs as [|? ? Hs' Hall]; subst.
    pose proof (ltb_real (fst x) (fst y) Hx Hy) as Hlt.
    destruct (fst x <? fst y)%float eqn:E.
    + pose proof (proj1 Hlt eq_refl) as Hr.
      constructor; [apply IH; assumption|].
      eapply Permutation_Forall; [symmetry; apply insert_desc_perm|].
      constructor; [lra | assumption].
    + assert (Hge : B2R (fst y) <= B2R (fst x)).
      { destruct (Rlt_or_le (B2R (fst x)) (B2R (fst y))) as [H|H]; [|assumption].
        apply Hlt in H. discriminate. }
      constructor; [assumption|].
      constructor; [assumption|].
      eapply Forall_impl; [|exact Hall]. cbn beta. intros a Ha. lra.
Qed.

Lemma sorted_desc_sorted (l : list (float * Doc)) :
  Forall (fun y => is_real (fst y) = true) l ->
  StronglySorted (fun a b => B2R (fst b) <= B2R (fst a)) (sorted_desc l).
Proof.
  induction l as [|x l IH]; cbn [sorted_desc fold_right]; intros Hl.
  - constructor.
  - fold (sorted_desc l). inversion Hl; subst.
    apply insert_desc_sorted; auto.
    eapply Permutation_Forall; [symmetry; apply sorted_desc_perm | assumption].
Qed.

(** In a descending list an entry with a strictly larger key comes first. *)
Lemma sorted_before (l : list (float * Doc)) (x y : float * Doc) :
  StronglySorted (fun a b => B2R (fst b) <= B2R (fst a)) l ->
  In x l -> In y l -> B2R (fst y) < B2R (fst x) ->
  exists l1 l2 l3, l = l1 ++ x :: l2 ++ y :: l3.
Proof.
  intros Hs. induction Hs as [|a l Hs IH Hall]; intros Hx Hy Hlt; [contradiction|].
  destruct Hx as [->|Hx].
  - destruct Hy as [->|Hy]; [lra|].
    apply in_split in Hy. destruct Hy as [l2 [l3 ->]].
    exists [], l2, l3. reflexivity.
  - destruct Hy as [->|Hy].
    + exfalso. rewrite Forall_forall in Hall. specialize (Hall x Hx).
      cbn beta in Hall. lra.
    + destruct (IH Hx Hy Hlt) as [l1 [l2 [l3 ->]]].
      exists (a :: l1), l2, l3. reflexivity.
Qed.

End Ranking.

Section Scores.

Local Open Scope R_scope.

Import ApiSearch.

Lemma matches_range (toks : list string) (doc : Doc) :
  (0 <= matches toks doc <= py_len toks)%Z.
Proof.
  unfold matches, py_len. set (f := fun t => contains t _).
  pose proof (filter_length_le f toks). lia.
Qed.

(** A value of [random.random()]: a double of [0, 1). *)
Lemma draw_real (x : float) :
  (0 <=? x)%float = true -> (x <? 1)%float = true ->
  is_real x = true /\ 0 <= B2R x < 1.
Proof.
  intros H0 H1.
  assert (Hx : is_real x = true).
  { unfold is_real. rewrite leb_spec in H0. rewrite ltb_spec in H1.
    destruct (Prim2SF x) as [s|[|]| |s m e]; try reflexivity;
      try discriminate H0; discriminate H1. }
  split; [assumption|].
  apply (leb_real 0 x real_0 Hx) in H0. apply (ltb_real x 1 Hx real_1) in H1.
  rewrite B2R_0 in H0. rewrite B2R_1 in H1. lra.
Qed.

Lemma hundredth_bounds : is_real hundredth = true /\ 0 <= B2R hundredth <= / 64.
Proof.
  split; [reflexivity|].
  change (B2R hundredth) with (F2R 5764607523034235 (-59)).
  unfold F2R. rewrite (bpow_neg_IZR 59).
  change (2 ^ 59)%Z with 576460752303423488%Z. lra.
Qed.

(** The score of a document is returned whatever the draw, for a query of
    fewer than [2^1023] tokens. *)
Lemma score_ok (toks : list string) (draw : float) (doc : Doc) :
  (py_len toks < 2 ^ 1023)%Z -> exists k : float, score toks draw doc = Ok k.
Proof.
  intros Hlen. unfold score. pose proof (matches_range toks doc) as Hm.
  destruct (count_real (1 + matches toks doc) ltac:(lia)) as [b [Eb _]].
  rewrite Eb. cbn [bind]. eauto.
Qed.

(** With a draw of [0, 1) the score is the integer [base] plus at most a
    half, for a query of fewer than [2^52] tokens. *)
Lemma score_bounds (toks : list string) (draw : float) (doc : Doc) :
  (py_len toks < 2 ^ 51)%Z -> is_real draw = true -> 0 <= B2R draw < 1 ->
  exists k : float,
    score toks draw doc = Ok k /\ is_real k = true
    /\ IZR (1 + matches toks doc) <= B2R k <= IZR (1 + matches toks doc) + / 2.
Proof.
  intros Hlen Rd Vd. unfold score. pose proof (matches_range toks doc) as Hm.
  set (base := (1 + matches toks doc)%Z) in *.
  assert (Hb : (1 <= base < 2 ^ 51 + 1)%Z) by (unfold base; lia).
  assert (H51 : (2 ^ 51 = 2251799813685248)%Z) by reflexivity.
  assert (Hfb : format (IZR base)).
  { apply format_IZR. change (2 ^ prec)%Z with 9007199254740992%Z. lia. }
  assert (Hlt : IZR base < bpow emax).
  { apply IZR_lt_emax.
    assert (2 ^ 51 + 1 < 2 ^ emax)%Z by reflexivity. lia. }
  assert (Hpos : 1 <= IZR base) by (apply IZR_le; lia).
  destruct (float_of_int_bounds base (IZR base) (IZR base) Hfb Hfb ltac:(lra)
              ltac:(pose proof (bpow_pos emax); lra) Hlt)
    as [b [Eb [Rb [Bb _]]]].
  rewrite Eb. cbn [bind]. eexists. split; [reflexivity|].
  destruct hundredth_bounds as [Rh Bh].
  pose proof (mul_rounds draw hundredth Rd Rh) as He.
  pose proof one_lt_emax as H1.
  destruct (prim_bounds _ 0 (bpow (-1)) _ He) as [Re Be];
    [apply format_0 | apply format_bpow; unfold emin; simpl; lia
     | rewrite (bpow_neg_IZR 1); change (2 ^ 1)%Z with 2%Z; nra
     | apply zero_gt_emax
     | rewrite (bpow_neg_IZR 1); change (2 ^ 1)%Z with 2%Z; lra |].
  rewrite (bpow_neg_IZR 1) in Be. change (2 ^ 1)%Z with 2%Z in Be.
  pose proof (add_rounds b _ Rb Re) as Hk.
  assert (Hhi : F2R (2 * base + 1) (-1) = IZR base + / 2).
  { unfold F2R. rewrite (bpow_neg_IZR 1). change (2 ^ 1)%Z with 2%Z.
    rewrite plus_IZR, mult_IZR. lra. }
  destruct (prim_bounds _ (IZR base) (F2R (2 * base + 1) (-1)) _ Hk) as [Rk Bk];
    [assumption
     | apply format_F2R;
       [change (2 ^ prec)%Z with 9007199254740992%Z; lia
       | unfold emin; simpl; lia]
     | rewrite Hhi; lra
     | pose proof (bpow_pos emax); lra
     | rewrite Hhi; assert (IZR base + 1 <= IZR (2 ^ 51 + 2))
         by (rewrite <- (plus_IZR base 1); apply IZR_le; lia);
       assert (IZR (2 ^ 51 + 2) < bpow emax)
         by (apply IZR_lt_emax; reflexivity); lra |].
  rewrite Hhi in Bk. split; assumption.
Qed.

(** The keys, when every score is returned with a property [P]. *)
Lemma keys_spec (toks : list string) (draw : nat -> float)
      (P : float -> Doc -> Prop) :
  (forall (i : nat) (d : Doc), exists k, score toks (draw i) d = Ok k /\ P k d) ->
  forall (docs : list Doc) (i : nat),
  exists ks : list (float * Doc),
    keys toks draw i docs = Ok ks /\ map snd ks = docs
    /\ Forall (fun kd => P (fst kd) (snd kd)) ks.
Proof.
  intros Hs docs. induction docs as [|d ds IH]; intros i; cbn [keys].
  - exists []. repeat split. constructor.
  - destruct (Hs i d) as [k [Ek Pk]]. destruct (IH (S i)) as [ks [Eks [Hm HP]]].
    rewrite Ek, Eks. cbn [bind]. exists ((k, d) :: ks).
    repeat split; [cbn; congruence | constructor; assumption].
Qed.

Lemma mock_docs_length : List.length MOCK_DOCS = 8%nat.
Proof. reflexivity. Qed.

End Scores.

Section TokenOrder.

Import ApiSearch.

(** The tokens that occur in a text, up to their order. *)
Lemma filter_perm (A : Type) (f : A -> bool) (l l' : list A) :
  Permutation l l' -> Permutation (filter f l) (filter f l').
Proof.
  induction 1 as [|x l l' _ IH|x y l|l l' l'' _ IH1 _ IH2]; cbn [filter].
  - constructor.
  - destruct (f x); [constructor|]; assumption.
  - destruct (f x), (f y); try reflexivity. constructor.
  - etransitivity; eassumption.
Qed.

Lemma matches_perm (toks toks' : list string) (doc : Doc) :
  Permutation toks toks' -> matches toks doc = matches toks' doc.
Proof.
  intros H. unfold matches, py_len. f_equal.
  apply Permutation_length, filter_perm, H.
Qed.

Lemma keys_perm (toks toks' : list string) (draw : nat -> float)
      (docs : list Doc) (i : nat) :
  Permutation toks toks' -> keys toks draw i docs = keys toks' draw i docs.
Proof.
  intros H. revert i. induction docs as [|d ds IH]; intros i; cbn [keys].
  - reflexivity.
  - unfold score. rewrite (matches_perm toks toks' d H), IH. reflexivity.
Qed.

End TokenOrder.

(** ** Slices of a hexadecimal digest *)

Section HexSlices.

Lemma int16_from_hex (bs : list Z) (acc : Z) :
  Forall (fun b => 0 <= b < 256) bs ->
  int16_from acc (HMAC.hex_of_bytes bs)
  = Ok (fold_left (fun a b => 256 * a + b) bs acc).
Proof.
  intros H. revert acc. induction H as [|b bs Hb _ IH]; intros acc.
  - reflexivity.
  - cbn [HMAC.hex_of_bytes fold_left]. rewrite int16_from_byte by assumption.
    apply IH.
Qed.

Lemma str_slice_hex_prefix (bs : list Z) (j : nat) :
  str_slice 0 (2 * j) (HMAC.hex_of_bytes bs) = HMAC.hex_of_bytes (firstn j bs).
Proof.
  revert bs. induction j as [|j IH]; intros bs.
  - reflexivity.
  - replace (2 * S j)%nat with (S (S (2 * j))) by lia.
    destruct bs as [|b bs]; [reflexivity|].
    cbn [HMAC.hex_of_bytes str_slice firstn]. rewrite IH. reflexivity.
Qed.

Lemma str_slice_hex (bs : list Z) (i j : nat) :
  (i <= j)%nat ->
  str_slice (2 * i) (2 * j) (HMAC.hex_of_bytes bs)
  = HMAC.hex_of_bytes (firstn (j - i) (skipn i bs)).
Proof.
  revert bs j. induction i as [|i IH]; intros bs j Hij.
  - rewrite Nat.sub_0_r. apply str_slice_hex_prefix.
  - destruct j as [|j]; [lia|].
    replace (2 * S i)%nat with (S (S (2 * i))) by lia.
    replace (2 * S j)%nat with (S (S (2 * j))) by lia.
    destruct bs as [|b bs].
    + cbn [HMAC.hex_of_bytes str_slice skipn]. rewrite firstn_nil. reflexivity.
    + rewrite str_slice_skip_byte. cbn [skipn Nat.sub]. apply IH. lia.
Qed.

End HexSlices.

(** ** More clicks than impressions *)

Section Excess.

Local Open Scope R_scope.

(** A rounding of a value below a point of the grid is a real double below
    it or minus infinity. *)
Lemma prim_upper (y hi : R) (c : float) :
  rounds_to y (Prim2SF c) -> format hi -> y <= hi -> hi < bpow emax ->
  (is_real c = true /\ B2R c <= hi) \/ Prim2SF c = S754_infinity true.
Proof.
  unfold is_real, B2R. intros Hr Hf Hy Hhi.
  destruct (Prim2SF c) as [s|s| |s m e]; cbn [rounds_to] in Hr.
  - left. split; [reflexivity|]. cbn [SF2R]. apply (nearest_le y 0 hi); assumption.
  - right. destruct Hr as [r [Hn [Hr Hs]]].
    pose proof (nearest_le y r hi Hn Hf Hy) as Hle.
    destruct s; [reflexivity|]. exfalso.
    assert (0 < r) by (apply Hs; reflexivity).
    rewrite Rabs_right in Hr by lra. lra.
  - contradiction.
  - left. split; [reflexivity|]. apply (nearest_le y _ hi); tauto.
Qed.

(** [math.sqrt] of a negative double or of minus infinity is a domain
    error. *)
Lemma sqrt_negative (r : float) :
  (is_real r = true /\ B2R r < 0) \/ Prim2SF r = S754_infinity true ->
  math_sqrt r = Raise ValueError.
Proof.
  intros H. unfold math_sqrt. rewrite !is_nan_spec, sqrt_spec.
  destruct H as [[Hr Hv]|E].
  - unfold is_real, B2R in *.
    destruct (Prim2SF r) as [s|s| |s m e]; try discriminate.
    + simpl in Hv. lra.
    + rewrite SF2R_cond_opp in Hv. pose proof (F2R_pos m e).
      destruct s; [reflexivity | lra].
  - rewrite E. reflexivity.
Qed.

Lemma inf_plus_real (x b : float) :
  Prim2SF x = S754_infinity true -> is_real b = true ->
  Prim2SF (x + b)%float = S754_infinity true.
Proof.
  unfold is_real. intros Hx Hb. rewrite add_spec, Hx.
  destruct (Prim2SF b); try discriminate; reflexivity.
Qed.

Lemma inf_div_pos (x f : float) :
  Prim2SF x = S754_infinity true -> is_real f = true -> 0 < B2R f ->
  Prim2SF (x / f)%float = S754_infinity true.
Proof.
  intros Hx Hf Hp. destruct (shape_of_pos f Hf Hp) as [m [e E]].
  rewrite div_spec, Hx, E. reflexivity.
Qed.

(** The radicand for [n < k]: negative, or minus infinity. *)
Lemma radicand_negative (p f1 f4 : float) (n m : Z) :
  (0 < n <= 2 ^ 40)%Z -> (m = 2 ^ 52 / n)%Z ->
  is_real p = true -> 1 + F2R m (-52) <= B2R p <= bpow 1023 ->
  is_real f1 = true -> B2R f1 = IZR n ->
  is_real f4 = true -> B2R f4 = 4 * IZR n ->
  let r := ((p * (1 - p) + z_default * z_default / f4) / f1)%float in
  (is_real r = true /\ B2R r < 0) \/ Prim2SF r = S754_infinity true.
Proof.
  intros Hn Hm Rp Bp R1 B1 R4 B4 r.
  pose proof zz_bounds as Hzz. pose proof zz_upper as Hzu.
  pose proof eps_small as He. pose proof eps_u as Hu.
  pose proof (bpow_pos (-53)) as Hu0. pose proof (bpow_pos emax) as Hmax.
  pose proof bpow_1023_lt_emax as H1023. pose proof (bpow_pos 1023) as H1023p.
  (* the count and its inverse *)
  assert (HN : 1 <= IZR n <= bpow 40).
  { split; [apply IZR_le; lia|]. rewrite bpow_IZR by lia. apply IZR_le. lia. }
  set (w := / IZR n).
  assert (Hw1 : IZR n * w = 1) by (unfold w; field; lra).
  assert (Hw : bpow (-40) <= w <= 1).
  { split.
    - change (-40)%Z with (- (40))%Z. rewrite bpow_opp.
      apply Rinv_le_contravar; lra.
    - unfold w. rewrite <- Rinv_1. apply Rinv_le_contravar; lra. }
  pose proof (bpow_pos (-40)) as H40.
  (* the excess of the estimate over one *)
  set (d := F2R m (-52)) in *.
  assert (Hm0 : (0 <= m <= 2 ^ 52)%Z).
  { subst m. split; [apply Z.div_pos; lia|].
    apply Z.div_le_upper_bound; lia. }
  assert (Hfd : format d).
  { apply format_pow2; [|unfold emin; simpl; lia].
    change (2 ^ prec)%Z with (2 * 2 ^ 52)%Z. lia. }
  assert (Hd : w - bpow (-52) <= d).
  { unfold d, F2R.
    assert (Hz : (2 ^ 52 < (m + 1) * n)%Z).
    { subst m. pose proof (Z.mod_pos_bound (2 ^ 52) n ltac:(lia)).
      pose proof (Z.div_mod (2 ^ 52) n ltac:(lia)). nia. }
    apply IZR_lt in Hz. rewrite mult_IZR, plus_IZR, <- bpow_IZR in Hz by lia.
    assert (H52 : bpow 52 * bpow (-52) = 1).
    { rewrite <- bpow_add. reflexivity. }
    pose proof (bpow_pos (-52)) as Hb.
    assert (Hz' : bpow 52 * w < IZR m + 1).
    { apply (Rmult_lt_reg_r (IZR n)); [lra|].
      rewrite Rmult_assoc, (Rmult_comm w), Hw1. lra. }
    assert (bpow 52 * w * bpow (-52) <= (IZR m + 1) * bpow (-52))
      by (apply Rmult_le_compat_r; lra).
    replace (bpow 52 * w * bpow (-52)) with (bpow 52 * bpow (-52) * w) in H by ring.
    rewrite H52 in H. lra. }
  assert (H5240 : bpow (-52) = bpow (-12) * bpow (-40)).
  { rewrite <- bpow_add. reflexivity. }
  assert (H12 : bpow (-12) = / 4096).
  { rewrite (bpow_neg_IZR 12). reflexivity. }
  assert (Hdw : w * (1 - / 4096) <= d).
  { assert (bpow (-12) * bpow (-40) <= bpow (-12) * w)
      by (apply Rmult_le_compat_l; [rewrite H12|]; lra).
    rewrite H12 in *. lra. }
  assert (Hd0 : 0 < d) by nra.
  (* one minus the estimate *)
  pose proof (sub_rounds 1 p real_1 Rp) as Hom. rewrite B2R_1 in Hom.
  destruct (prim_bounds _ (- bpow 1023) (- d) _ Hom) as [Rom Bom];
    [apply format_opp, format_bpow; unfold emin; simpl; lia
     | apply format_opp; assumption | lra | lra | lra |].
  (* the product *)
  pose proof (mul_rounds p _ Rp Rom) as Hpm.
  assert (Hprod : B2R p * B2R (1 - p)%float <= - d).
  { assert (0 <= (B2R p - 1) * (- B2R (1 - p)%float))
      by (apply Rmult_le_pos; lra).
    lra. }
  (* the quarter term *)
  destruct (div_by_count _ f4 zz_real ltac:(lra) R4 ltac:(lra)) as [Rb [Bb Nb]].
  assert (Hb : B2R (z_default * z_default / f4)%float
               <= B2R (z_default * z_default)%float / B2R f4 * (1 + bpow (-53))).
  { apply step_rel; auto.
    apply Rle_trans with (bpow (1 - 42)); [apply bpow_le; lia|].
    apply div_lower; [rewrite bpow_1; lra|].
    rewrite B4. split; [lra|].
    change 42%Z with (40 + 1 + 1)%Z. rewrite !bpow_succ. lra. }
  assert (Hq : B2R (z_default * z_default)%float / B2R f4
               = B2R (z_default * z_default)%float / 4 * w).
  { rewrite B4. unfold w. field. lra. }
  rewrite Hq in Hb.
  assert (Hbw : B2R (z_default * z_default / f4)%float <= w * (63 / 64 - / 4096)).
  { assert (HX : B2R (z_default * z_default)%float / 4 * w <= 31 / 32 * w)
      by (apply Rmult_le_compat_r; lra).
    assert (B2R (z_default * z_default)%float / 4 * w * (1 + bpow (-53))
            <= 31 / 32 * w * (1 + bpow (-53)))
      by (apply Rmult_le_compat_r; lra).
    assert (31 / 32 * w * bpow (-53) <= 31 / 32 * w * / 4000)
      by (apply Rmult_le_compat_l; lra).
    lra. }
  assert (H46 : bpow (-46) = / 64 * bpow (-40)).
  { change (-46)%Z with (-6 + -40)%Z. rewrite bpow_add, (bpow_neg_IZR 6).
    reflexivity. }
  assert (H86 : bpow (-86) = bpow (-46) * bpow (-40)).
  { rewrite <- bpow_add. reflexivity. }
  pose proof (bpow_pos (-46)) as H46p. pose proof (bpow_pos (-86)) as H86p.
  assert (R1p : 0 < B2R f1) by lra.
  (* the sum and the quotient *)
  assert (Hs1 : (is_real (p * (1 - p) + z_default * z_default / f4)%float = true
                 /\ B2R (p * (1 - p) + z_default * z_default / f4)%float
                    <= - bpow (-46))
                \/ Prim2SF (p * (1 - p) + z_default * z_default / f4)%float
                   = S754_infinity true).
  { destruct (prim_upper _ (- d) _ Hpm (format_opp _ Hfd) Hprod ltac:(lra))
      as [[Rpm Bpm]|Epm].
    - pose proof (add_rounds _ _ Rpm Rb) as Hs.
      apply (prim_upper _ _ _ Hs);
        [apply format_opp, format_bpow; unfold emin; simpl; lia | | lra].
      rewrite H46. lra.
    - right. apply inf_plus_real; assumption. }
  destruct Hs1 as [[Rs1 Bs1]|Es1].
  - pose proof (div_rounds _ f1 Rs1 R1 ltac:(lra)) as Hr.
    destruct (prim_upper _ (- bpow (-86)) _ Hr) as [[Rr Br]|Er];
      [apply format_opp, format_bpow; unfold emin; simpl; lia | | lra | |].
    + unfold Rdiv. rewrite B1. fold w. rewrite H86.
      assert (bpow (-46) * bpow (-40) <= bpow (-46) * w)
        by (apply Rmult_le_compat_l; lra).
      assert (B2R (p * (1 - p) + z_default * z_default / f4)%float * w
              <= - bpow (-46) * w) by (apply Rmult_le_compat_r; lra).
      lra.
    + left. split; [assumption|]. unfold r. lra.
    + right. assumption.
  - right. apply inf_div_pos; assumption.
Qed.

End Excess.

(** ** Encoding a [str] *)

Section Encoding.

Lemma encode_cases (s : string) :
  encode s = Ok (str_bytes s) \/ encode s = Raise UnicodeEncodeError.
Proof. unfold encode. destruct (has_surrogate s); auto. Qed.

Lemma encode_ok_inv (s : string) (bs : list Z) :
  encode s = Ok bs -> bs = str_bytes s.
Proof.
  unfold encode. destruct (has_surrogate s); [discriminate|].
  intros H. injection H as <-. reflexivity.
Qed.

Lemma byte_char_value (b : Z) :
  0 <= b < 256 -> N_of_ascii (byte_char b) = Z.to_N b.
Proof. intros Hb. unfold byte_char. apply N_ascii_embedding. lia. Qed.

(** The one code point of [chr(c)] is found exactly when it is a
    surrogate. *)
Lemma chr_surrogate (c : Z) :
  0 <= c <= 0x10FFFF ->
  has_surrogate (py_chr c) = (0xD800 <=? c) && (c <=? 0xDFFF).
Proof.
  intros Hc.
  assert (Hneq : forall a b : N, a <> b -> (a =? b)%N = false)
    by (intros a b; apply N.eqb_neq).
  unfold py_chr.
  destruct (Z.ltb_spec c 0x80) as [H1|H1].
  { destruct (Z.leb_spec 0xD800 c); [lia | reflexivity]. }
  destruct (Z.ltb_spec c 0x800) as [H2|H2].
  { cbn [has_surrogate]. rewrite !byte_char_value
      by (Z.div_mod_to_equations; lia).
    rewrite Hneq by (Z.div_mod_to_equations; lia).
    destruct (Z.leb_spec 0xD800 c); [lia | reflexivity]. }
  destruct (Z.ltb_spec c 0x10000) as [H3|H3].
  { cbn [has_surrogate]. rewrite !byte_char_value
      by (Z.div_mod_to_equations; lia).
    rewrite (Hneq (Z.to_N (0x80 + c / 64 mod 64)))
      by (Z.div_mod_to_equations; lia).
    rewrite andb_false_l, orb_false_r.
    destruct (Z.leb_spec 0xD800 c) as [H4|H4];
      [destruct (Z.leb_spec c 0xDFFF) as [H5|H5]|]; cbn [andb].
    - replace (Z.to_N (0xE0 + c / 4096)) with 237%N
        by (Z.div_mod_to_equations; lia).
      rewrite N.eqb_refl. cbn [andb].
      apply andb_true_intro. split; apply N.leb_le;
        Z.div_mod_to_equations; lia.
    - rewrite Hneq by (Z.div_mod_to_equations; lia). reflexivity.
    - destruct (N.eqb_spec (Z.to_N (0xE0 + c / 4096)) 237) as [E|E];
        [|reflexivity].
      cbn [andb]. apply andb_false_intro1. apply N.leb_gt.
      Z.div_mod_to_equations; lia. }
  cbn [has_surrogate]. rewrite !byte_char_value
    by (Z.div_mod_to_equations; lia).
  rewrite !Hneq by (Z.div_mod_to_equations; lia).
  destruct (Z.leb_spec 0xD800 c) as [H4|H4];
    [destruct (Z.leb_spec c 0xDFFF) as [H5|H5]; [lia|]|]; reflexivity.
Qed.

(** One code point encodes unless it is a surrogate. *)
Lemma encode_chr (c : Z) :
  0 <= c <= 0x10FFFF ->
  encode (py_chr c)
  = if (0xD800 <=? c) && (c <=? 0xDFFF) then Raise UnicodeEncodeError
    else Ok (str_bytes (py_chr c)).
Proof. intros Hc. unfold encode. rewrite chr_surrogate by assumption. reflexivity. Qed.

End Encoding.

(** ** The embedding against known values *)

Example sha256_abc :
  HMAC.hex_of_bytes (SHA256.sha256 (str_bytes "abc"))
  = "ba7816bf8f01cfea414140de5dae2223b00361a396177a9cb410ff61f20015ad"%string.
Proof. vm_compute. reflexivity. Qed.

Example sha256_empty :
  HMAC.hex_of_bytes (SHA256.sha256 [])
  = "e3b0c44298fc1c149afbf4c8996fb92427ae41e4649b934ca495991b7852b855"%string.
Proof. vm_compute. reflexivity. Qed.

(** RFC 4231, test case 2. *)
Example hmac_sha256_jefe :
  HMAC.hexdigest (str_bytes "Jefe") (str_bytes "what do ya want for nothing?")
  = "5bdcc146bf60754e6a042426089575c75a003f089d2739839dec58b964ec3843"%string.
Proof. vm_compute. reflexivity. Qed.

(** The euro sign, [U+20AC], and the first of the surrogates. *)
Example encode_euro : encode (py_chr 0x20AC) = Ok [0xE2; 0x82; 0xAC].
Proof. vm_compute. reflexivity. Qed.

Example encode_surrogate : encode (py_chr 0xD800) = Raise UnicodeEncodeError.
Proof. vm_compute. reflexivity. Qed.

Example assign_user_42 :
  assign_variant_and_placement (module_globals None None) "user-42"
  = Ok ("C", "P1")%string.
Proof. vm_compute. reflexivity. Qed.

Example wilson_interval_10_100 :
  wilson_interval 10 100 z_default
  = Ok (0x1.999999999999ap-4, 0x1.c46ea581181fap-5, 0x1.651aaf6e01a3ep-3)%float.
Proof. vm_compute. reflexivity. Qed.

Example search_anc :
  option_map (map ApiSearch.id)
    (match ApiSearch.api_search_docs ["anc"; "ipx"; "anc"]%string (fun _ => 0x1p-1%float) with
     | Ok l => Some l | Raise _ => None end)
  = Some ["r3"; "r4"; "r1"; "r2"; "r5"; "r6"; "r7"; "r8"]%string.
Proof. vm_compute. reflexivity. Qed.

(** * The properties of the specification *)

(** C1, as stated, fails: with two clicks on one impression the argument
    of the square root is negative, and the call raises [ValueError]. *)
Theorem wilson_interval_raises_beyond_impressions :
  wilson_interval 2 1 z_default = Raise ValueError.
Proof. vm_compute. reflexivity. Qed.

(** C2, as stated, fails: with six clicks on six impressions the estimate
    is [1.0] and the upper bound is the double just below it. *)
Lemma wilson_upper_below_estimate :
  exists l : float,
    wilson_interval 6 6 z_default = Ok (1%float, l, 0x1.fffffffffffffp-1%float)
    /\ (1 <=? 0x1.fffffffffffffp-1)%float = false.
Proof. eexists. split; vm_compute; reflexivity. Qed.

(** C2, amended: for [0 <= clicks <= impressions] and
    [0 < impressions <= 2^1021] the call returns a triple with
    [0 <= lowerBound <= upperBound <= 1] and [0 <= pointEstimate <= 1], and
    the estimate lies between the two bounds up to [2^-45]:
    [lowerBound <= pointEstimate + 2^-45] and
    [pointEstimate <= upperBound + 2^-45], the sums being sums of doubles. *)
Theorem wilson_interval_bounds (k n : Z) :
  0 <= k <= n -> 0 < n <= 2 ^ 1021 ->
  exists p l u : float,
    wilson_interval k n z_default = Ok (p, l, u)
    /\ (0 <=? l)%float = true /\ (l <=? u)%float = true
    /\ (u <=? 1)%float = true
    /\ (0 <=? p)%float = true /\ (p <=? 1)%float = true
    /\ (l <=? p + 0x1p-45)%float = true
    /\ (p <=? u + 0x1p-45)%float = true.
Proof.
  intros Hk Hn.
  destruct (wilson_interval_floats k n Hk Hn)
    as [p [l [u [E [P0 [P1 [L0 [L1 [U0 [U1 [LU [TL TU]]]]]]]]]]]].
  exists p, l, u. auto 10.
Qed.

Lemma wilson_interval_bounds_witness :
  exists p l u : float,
    wilson_interval 10 100 z_default = Ok (p, l, u)
    /\ (0 <=? l)%float = true /\ (l <=? u)%float = true
    /\ (u <=? 1)%float = true
    /\ (0 <=? p)%float = true /\ (p <=? 1)%float = true
    /\ (l <=? p + 0x1p-45)%float = true
    /\ (p <=? u + 0x1p-45)%float = true.
Proof. apply (wilson_interval_bounds 10 100); lia. Defined.

(** C3: the cell is a function of the secret key, the two lists and the
    identifier alone: two calls that agree on these return the same pair,
    whatever else the globals hold. The function reads no other state and
    writes none. *)
Theorem assign_deterministic (g1 g2 : Globals) (user_id : string) :
  SECRET g1 = SECRET g2 ->
  VARIANTS g1 = VARIANTS g2 ->
  PLACEMENTS g1 = PLACEMENTS g2 ->
  assign_variant_and_placement g1 user_id
  = assign_variant_and_placement g2 user_id.
Proof.
  intros Hs Hv Hp. unfold assign_variant_and_placement.
  rewrite Hs, Hv, Hp. reflexivity.
Qed.

Lemma assign_deterministic_witness :
  assign_variant_and_placement (module_globals None None) "user-42"
  = assign_variant_and_placement
      (module_globals (Some "other.db"%string) (Some "changeme"%string)) "user-42".
Proof.
  apply (assign_deterministic (module_globals None None)
           (module_globals (Some "other.db"%string) (Some "changeme"%string))
           "user-42"); reflexivity.
Defined.

(** C4: with no impressions the interval is the degenerate triple
    [(0.0, 0.0, 0.0)], whatever the clicks and the quantile, and nothing is
    raised. *)
Theorem wilson_interval_no_impressions (k : Z) (z : float) :
  wilson_interval k 0 z = Ok (0%float, 0%float, 0%float).
Proof. reflexivity. Qed.

(** C5, as stated, fails also below the impressions: with no click on
    eleven impressions the lower bound is a positive double and the
    estimate is zero. *)
Lemma wilson_lower_above_estimate :
  exists u : float,
    wilson_interval 0 11 z_default = Ok (0%float, 0x1p-55%float, u)
    /\ (0x1p-55 <=? 0)%float = false.
Proof. eexists. split; vm_compute; reflexivity. Qed.

(** C5, amended: for non-negative counts with
    [clicks <= impressions <= 2^1021], no impression included, the call
    returns a triple whose three components are in [0, 1], with
    [lowerBound <= upperBound], and with the estimate between the bounds
    up to [2^-45]: [lowerBound <= pointEstimate + 2^-45] and
    [pointEstimate <= upperBound + 2^-45], the sums being sums of doubles. *)
Theorem wilson_interval_unit_triple (k n : Z) :
  0 <= k -> k <= n -> n <= 2 ^ 1021 ->
  exists p l u : float,
    wilson_interval k n z_default = Ok (p, l, u)
    /\ (0 <=? p)%float = true /\ (p <=? 1)%float = true
    /\ (0 <=? l)%float = true /\ (l <=? 1)%float = true
    /\ (0 <=? u)%float = true /\ (u <=? 1)%float = true
    /\ (l <=? u)%float = true
    /\ (l <=? p + 0x1p-45)%float = true
    /\ (p <=? u + 0x1p-45)%float = true.
Proof.
  intros Hk Hkn Hn. destruct (Z.eq_dec n 0) as [->|Hn0].
  - exists 0%float, 0%float, 0%float. repeat split; reflexivity.
  - apply wilson_interval_floats; lia.
Qed.

Lemma wilson_interval_unit_triple_witness :
  exists p l u : float,
    wilson_interval 3 10 z_default = Ok (p, l, u)
    /\ (0 <=? p)%float = true /\ (p <=? 1)%float = true
    /\ (0 <=? l)%float = true /\ (l <=? 1)%float = true
    /\ (0 <=? u)%float = true /\ (u <=? 1)%float = true
    /\ (l <=? u)%float = true
    /\ (l <=? p + 0x1p-45)%float = true
    /\ (p <=? u + 0x1p-45)%float = true.
Proof. apply (wilson_interval_unit_triple 3 10); lia. Defined.

(** C6, as stated, fails: a digest that starts with [ffffffff] gives the
    bucket [1.0], which is not below one. *)
Lemma bucket_reaches_one :
  buckets_of_hexdigest
    "ffffffff00000000000000000000000000000000000000000000000000000000"
  = Ok (1%float, 0%float)
  /\ (1 <? 1)%float = false.
Proof. split; vm_compute; reflexivity. Qed.

(** C6, amended: for every digest both buckets are doubles of the closed
    interval [0, 1], and a bucket is below one exactly when its four bytes
    are not all [ff]. *)
Theorem buckets_in_closed_unit_interval (h : SHA256.regs) :
  exists b1 b2 : float,
    buckets_of_hexdigest (HMAC.hex_of_bytes (SHA256.bytes_of_regs h)) = Ok (b1, b2)
    /\ (0 <=? b1)%float = true /\ (b1 <=? 1)%float = true
    /\ (0 <=? b2)%float = true /\ (b2 <=? 1)%float = true
    /\ ((b1 <? 1)%float = true
        <-> Spec.be_uint (firstn 4 (SHA256.bytes_of_regs h)) <> 0xFFFFFFFF)
    /\ ((b2 <? 1)%float = true
        <-> Spec.be_uint (firstn 4 (skipn 4 (SHA256.bytes_of_regs h))) <> 0xFFFFFFFF).
Proof.
  rewrite buckets_of_digest, firstn_4_digest, second_4_digest.
  assert (H0 : is_real 0%float = true) by reflexivity.
  assert (H1 : is_real 1%float = true) by reflexivity.
  assert (Hone : int_truediv 0xFFFFFFFF 0xFFFFFFFF = Ok 1%float)
    by (vm_compute; reflexivity).
  assert (Hside : forall x b,
             int_truediv (Spec.be_uint (SHA256.bytes_of_word x)) 0xFFFFFFFF = Ok b ->
             is_real b = true -> (0 <= B2R b <= 1)%R ->
             rounds_to (IZR (Spec.be_uint (SHA256.bytes_of_word x)) / 4294967295)
                       (Prim2SF b) ->
             (0 <=? b)%float = true /\ (b <=? 1)%float = true
             /\ ((b <? 1)%float = true
                 <-> Spec.be_uint (SHA256.bytes_of_word x) <> 0xFFFFFFFF)).
  { intros x b Hdiv Hb Hv Hr. pose proof (be_uint_range x) as Hx.
    split; [apply (leb_real 0 b H0 Hb); rewrite B2R_0; tauto|].
    split; [apply (leb_real b 1 Hb H1); rewrite B2R_1; tauto|].
    split.
    - intros Hlt Heq. rewrite Heq, Hone in Hdiv.
      injection Hdiv as <-. vm_compute in Hlt. discriminate.
    - intros Hne. apply (ltb_real b 1 Hb H1). rewrite B2R_1.
      apply (bucket_below_one (Spec.be_uint (SHA256.bytes_of_word x))); auto.
      lia. }
  destruct (bucket_of_word (SHA256.ra h)) as [b1 [E1 [R1 [V1 N1]]]].
  destruct (bucket_of_word (SHA256.rb h)) as [b2 [E2 [R2 [V2 N2]]]].
  exists b1, b2. rewrite E1, E2. cbn [bind].
  destruct (Hside _ _ E1 R1 V1 N1) as [A1 [A2 A3]].
  destruct (Hside _ _ E2 R2 V2 N2) as [B1 [B2 B3]].
  repeat split; try assumption; try apply A3; try apply B3.
Qed.

(** C7, as stated, fails: an identifier can hold a lone surrogate, as the
    JSON text [\ud800] gives one; it is not empty, and on it the function
    returns no cell, that of the reference or another: encoding it
    raises. *)
Lemma assign_rejects_lone_surrogate :
  py_chr 0xD800 <> EmptyString
  /\ assign_variant_and_placement (module_globals None None) (py_chr 0xD800)
     = Raise UnicodeEncodeError.
Proof. split; [vm_compute; discriminate | vm_compute; reflexivity]. Qed.

(** C7, amended: for every non-empty identifier that encodes to UTF-8,
    under a secret that does, the function returns the cell of the
    reference algorithm of the specification on the encoded bytes:
    HMAC-SHA256 of the identifier under the secret key, the first and the
    next four bytes of the digest as big-endian integers divided by
    [2^32 - 1], and the elements of index [floor(bucket * 3) mod 3], all in
    exact arithmetic. *)
Theorem assign_refines_reference (env_db_path env_secret : option string)
        (user_id : string) (key msg : list Z) :
  user_id <> ""%string ->
  encode (SECRET (module_globals env_db_path env_secret)) = Ok key ->
  encode user_id = Ok msg ->
  exists cell : string * string,
    Spec.assign key
                (VARIANTS (module_globals env_db_path env_secret))
                (PLACEMENTS (module_globals env_db_path env_secret))
                msg = Some cell
    /\ assign_variant_and_placement (module_globals env_db_path env_secret) user_id
       = Ok cell.
Proof.
  intros _ Hkey Hmsg.
  unfold assign_variant_and_placement. rewrite Hkey, Hmsg. cbn [bind].
  unfold Spec.assign, HMAC.hexdigest, HMAC.digest.
  rewrite buckets_of_digest, firstn_4_digest, second_4_digest.
  set (h := HMAC.hmac_regs _ _).
  cbn [VARIANTS PLACEMENTS module_globals].
  destruct (pick_matches_select "A" "B" "C" (SHA256.ra h)) as [b1 [v [E1 [P1 S1]]]].
  destruct (pick_matches_select "P1" "P2" "P3" (SHA256.rb h)) as [b2 [p [E2 [P2 S2]]]].
  exists (v, p). rewrite S1, S2, E1, E2. cbn [bind]. rewrite P1, P2.
  split; reflexivity.
Qed.

Lemma assign_refines_reference_witness :
  "user-42"%string <> ""%string
  /\ exists cell : string * string,
      Spec.assign (str_bytes "changeme") ["A"; "B"; "C"]%string
                  ["P1"; "P2"; "P3"]%string (str_bytes "user-42") = Some cell
      /\ assign_variant_and_placement (module_globals None None) "user-42"
         = Ok cell.
Proof.
  split; [discriminate|].
  apply (assign_refines_reference None None "user-42");
    [discriminate | reflexivity | reflexivity].
Defined.

(** C8: with the impressions fixed and positive, more clicks never give a
    smaller point estimate: whenever the two calls return, for any
    quantile, the estimates are ordered; and with the default quantile they
    do return for clicks between zero and the impressions. *)
Theorem point_estimate_monotone (n c1 c2 : Z) :
  0 < n -> c1 <= c2 ->
  (forall z p1 l1 u1 p2 l2 u2,
      wilson_interval c1 n z = Ok (p1, l1, u1) ->
      wilson_interval c2 n z = Ok (p2, l2, u2) ->
      (p1 <=? p2)%float = true)
  /\ (0 <= c1 -> c2 <= n -> n <= 2 ^ 1021 ->
      exists p1 l1 u1 p2 l2 u2,
        wilson_interval c1 n z_default = Ok (p1, l1, u1)
        /\ wilson_interval c2 n z_default = Ok (p2, l2, u2)
        /\ (p1 <=? p2)%float = true).
Proof.
  intros Hn Hc.
  assert (Hmono : forall z p1 l1 u1 p2 l2 u2,
             wilson_interval c1 n z = Ok (p1, l1, u1) ->
             wilson_interval c2 n z = Ok (p2, l2, u2) ->
             (p1 <=? p2)%float = true).
  { intros z p1 l1 u1 p2 l2 u2 E1 E2.
    apply wilson_interval_estimate in E1, E2; try lia.
    exact (int_truediv_mono c1 c2 n p1 p2 Hn Hc E1 E2). }
  split; [exact Hmono|].
  intros H0 Hle Hbig.
  destruct (wilson_interval_steps c1 n ltac:(lia) ltac:(lia))
    as [p1 [l1 [u1 [E1 _]]]].
  destruct (wilson_interval_steps c2 n ltac:(lia) ltac:(lia))
    as [p2 [l2 [u2 [E2 _]]]].
  exists p1, l1, u1, p2, l2, u2. split; [assumption|]. split; [assumption|].
  exact (Hmono _ _ _ _ _ _ _ E1 E2).
Qed.

Lemma point_estimate_monotone_witness :
  (forall z p1 l1 u1 p2 l2 u2,
      wilson_interval 3 10 z = Ok (p1, l1, u1) ->
      wilson_interval 7 10 z = Ok (p2, l2, u2) ->
      (p1 <=? p2)%float = true)
  /\ (0 <= 3 -> 7 <= 10 -> 10 <= 2 ^ 1021 ->
      exists p1 l1 u1 p2 l2 u2,
        wilson_interval 3 10 z_default = Ok (p1, l1, u1)
        /\ wilson_interval 7 10 z_default = Ok (p2, l2, u2)
        /\ (p1 <=? p2)%float = true).
Proof. apply (point_estimate_monotone 10 3 7); lia. Defined.

(** C9, as stated, fails: to four decimal places the bounds the call
    returns are not 0.0554 and 0.1737. *)
Lemma wilson_example_differs :
  exists p l u : float,
    wilson_interval 10 100 z_default = Ok (p, l, u)
    /\ Decimal.round4 l <> 554 /\ Decimal.round4 u <> 1737.
Proof.
  eexists _, _, _. split; [vm_compute; reflexivity|].
  split; vm_compute; discriminate.
Qed.

(** C9, amended: the call returns the double nearest to 0.10 as the
    estimate and bounds that read 0.0552 and 0.1744 to four decimal
    places, as the exact Wilson formula of the specification does. *)
Theorem wilson_example :
  exists l u : float,
    wilson_interval 10 100 z_default = Ok (0x1.999999999999ap-4%float, l, u)
    /\ Decimal.round4 l = 552 /\ Decimal.round4 u = 1744
    /\ (552 - / 2 <= 10000 * Spec.wilson_lower 10 100 (196 / 100) < 552 + / 2)%R
    /\ (1744 - / 2 <= 10000 * Spec.wilson_upper 10 100 (196 / 100) < 1744 + / 2)%R.
Proof.
  eexists _, _. split; [vm_compute; reflexivity|].
  split; [vm_compute; reflexivity|]. split; [vm_compute; reflexivity|].
  pose proof wilson_exact_example as [Hl Hu]. split; lra.
Qed.

(** C10, as stated, fails: the function is not total on identifier
    strings. On an identifier with a lone surrogate in it, here [U+DC80]
    after [user-], it returns no pair but raises. *)
Lemma assign_not_total :
  assign_variant_and_placement (module_globals None None)
    ("user-" ++ py_chr 0xDC80)
  = Raise UnicodeEncodeError.
Proof. vm_compute. reflexivity. Qed.

(** C10, amended: for every identifier, empty or not, and whatever the
    environment sets the secret to: when both encode to UTF-8 the function
    returns a variant of [VARIANTS] and a placement of [PLACEMENTS], also
    when a bucket is exactly [1.0]; when one of them does not, it raises
    [UnicodeEncodeError]. In no case is an index out of range. *)
Theorem assign_returns_member (env_db_path env_secret : option string)
        (user_id : string) :
  match encode (SECRET (module_globals env_db_path env_secret)),
        encode user_id with
  | Ok _, Ok _ =>
      exists v p : string,
        assign_variant_and_placement
          (module_globals env_db_path env_secret) user_id = Ok (v, p)
        /\ In v (VARIANTS (module_globals env_db_path env_secret))
        /\ In p (PLACEMENTS (module_globals env_db_path env_secret))
  | _, _ =>
      assign_variant_and_placement
        (module_globals env_db_path env_secret) user_id
      = Raise UnicodeEncodeError
  end.
Proof.
  unfold assign_variant_and_placement.
  destruct (encode_cases (SECRET (module_globals env_db_path env_secret)))
    as [Hk|Hk]; rewrite Hk; [|reflexivity].
  destruct (encode_cases user_id) as [Hm|Hm]; rewrite Hm; [|reflexivity].
  cbn [bind]. unfold HMAC.hexdigest, HMAC.digest.
  rewrite buckets_of_digest.
  set (h := HMAC.hmac_regs _ _).
  destruct (bucket_of_word (SHA256.ra h)) as [b1 [E1 [R1 [V1 _]]]].
  destruct (bucket_of_word (SHA256.rb h)) as [b2 [E2 [R2 [V2 _]]]].
  rewrite E1, E2. cbn [bind VARIANTS PLACEMENTS module_globals].
  destruct (pick_three "A" "B" "C" b1 R1 V1) as [j1 [v [_ [_ [Pv [_ Iv]]]]]].
  destruct (pick_three "P1" "P2" "P3" b2 R2 V2) as [j2 [p [_ [_ [Pp [_ Ip]]]]]].
  exists v, p. rewrite Pv, Pp. cbn [bind]. auto.
Qed.

(** * Further properties of the code *)

(** ** The aggregator [wilson_interval] *)

(** X1: whatever the counts and the quantile, a triple that is returned has
    a lower bound that is not below zero and an upper bound that is not
    above one: the two clamps hold even where the estimate is out of range
    or an intermediate value is not a number. *)
Theorem wilson_interval_clamped (k n : Z) (z p l u : float) :
  wilson_interval k n z = Ok (p, l, u) ->
  (0 <=? l)%float = true /\ (u <=? 1)%float = true.
Proof.
  unfold wilson_interval. destruct (n =? 0).
  - intros H. injection H as <- <- <-. split; reflexivity.
  - intros H.
    repeat (apply bind_ok_inv in H; destruct H as [? [_ H]]).
    injection H as _ <- <-. unfold py_max, py_min. split.
    + destruct (0 <? _)%float eqn:E; [apply ltb_leb; assumption | reflexivity].
    + destruct (_ <? 1)%float eqn:E; [apply ltb_leb; assumption | reflexivity].
Qed.

Lemma wilson_interval_clamped_witness :
  (0 <=? 0x1.c46ea581181fap-5)%float = true
  /\ (0x1.651aaf6e01a3ep-3 <=? 1)%float = true.
Proof.
  apply (wilson_interval_clamped 10 100 z_default 0x1.999999999999ap-4).
  vm_compute. reflexivity.
Defined.

(** X2: for every pair of integers the call with the default quantile
    returns, or raises [ValueError] (a negative radicand) or
    [OverflowError] (a count or a quotient too large for a double). The
    test [n == 0] is the only guard that is needed against a division by
    zero: no count makes a divisor zero. *)
Theorem wilson_interval_failure_modes (k n : Z) :
  (exists t, wilson_interval k n z_default = Ok t)
  \/ wilson_interval k n z_default = Raise ValueError
  \/ wilson_interval k n z_default = Raise OverflowError.
Proof.
  unfold wilson_interval. destruct (Z.eqb_spec n 0) as [|Hn]; [left; eauto|].
  destruct (int_truediv_cases k n Hn) as [E|[p E]]; rewrite E; cbn [bind];
    [right; right; reflexivity|].
  change (float_pow2 z_default) with (Ok (z_default * z_default)%float).
  cbn [bind]. unfold float_truediv_int.
  destruct (float_of_int_cases n) as [E1|[f1 [E1 [R1 N1]]]]; rewrite E1; cbn [bind];
    [right; right; reflexivity|].
  pose proof (conv_nonzero n f1 Hn R1 N1) as Z1.
  pose proof (denom_nonzero n f1 Hn E1 R1 N1) as Zd.
  rewrite (float_truediv_ok _ f1 R1 Z1). cbn [bind].
  destruct (float_of_int_cases (2 * n)) as [E2|[f2 [E2 [R2 N2]]]]; rewrite E2;
    cbn [bind]; [right; right; reflexivity|].
  rewrite (float_truediv_ok _ f2 R2 (conv_nonzero (2 * n) f2 ltac:(lia) R2 N2)).
  cbn [bind]. rewrite (float_truediv_nonzero _ _ Zd). cbn [bind].
  destruct (float_of_int_cases (4 * n)) as [E4|[f4 [E4 [R4 N4]]]]; rewrite E4;
    cbn [bind]; [right; right; reflexivity|].
  rewrite (float_truediv_ok _ f4 R4 (conv_nonzero (4 * n) f4 ltac:(lia) R4 N4)).
  cbn [bind]. rewrite (float_truediv_ok _ f1 R1 Z1). cbn [bind].
  unfold math_sqrt. destruct (is_nan _ && negb _); cbn [bind];
    [right; left; reflexivity|].
  rewrite (float_truediv_nonzero _ _ Zd). cbn [bind]. left. eauto.
Qed.

(** X3: from [2^1022] impressions on, with [0 <= clicks <= impressions], the
    call raises [OverflowError]: four times the count is too large for a
    double, if the count or its double is not already. *)
Theorem wilson_interval_overflow (k n : Z) :
  0 <= k <= n -> 2 ^ 1022 <= n ->
  wilson_interval k n z_default = Raise OverflowError.
Proof.
  intros Hk Hbig.
  assert (Hpos : 0 < n).
  { assert (0 < 2 ^ 1022) by (apply Z.pow_pos_nonneg; lia). lia. }
  assert (Hn : n <> 0) by lia.
  unfold wilson_interval. destruct (Z.eqb_spec n 0) as [|_]; [contradiction|].
  destruct (phat_real k n Hk Hpos) as [p [E _]]. rewrite E. cbn [bind].
  change (float_pow2 z_default) with (Ok (z_default * z_default)%float).
  cbn [bind]. unfold float_truediv_int.
  destruct (float_of_int_cases n) as [E1|[f1 [E1 [R1 N1]]]]; rewrite E1; cbn [bind];
    [reflexivity|].
  pose proof (conv_nonzero n f1 Hn R1 N1) as Z1.
  pose proof (denom_nonzero n f1 Hn E1 R1 N1) as Zd.
  rewrite (float_truediv_ok _ f1 R1 Z1). cbn [bind].
  destruct (float_of_int_cases (2 * n)) as [E2|[f2 [E2 [R2 N2]]]]; rewrite E2;
    cbn [bind]; [reflexivity|].
  rewrite (float_truediv_ok _ f2 R2 (conv_nonzero (2 * n) f2 ltac:(lia) R2 N2)).
  cbn [bind]. rewrite (float_truediv_nonzero _ _ Zd). cbn [bind].
  rewrite (float_of_int_overflow (4 * n)); [reflexivity|].
  change (2 ^ 1024) with (4 * 2 ^ 1022). lia.
Qed.

Lemma wilson_interval_overflow_witness :
  wilson_interval 0 (2 ^ 1022) z_default = Raise OverflowError.
Proof.
  apply (wilson_interval_overflow 0 (2 ^ 1022)); lia.
Defined.

(** X4: more clicks than impressions never give an interval: for
    [0 < impressions <= 2^40] and [impressions < clicks <= 2^1023] the
    radicand is negative (or minus infinity) and [math.sqrt] raises the
    domain error. *)
Theorem wilson_excess_clicks (k n : Z) :
  0 < n <= 2 ^ 40 -> n < k <= 2 ^ 1023 ->
  wilson_interval k n z_default = Raise ValueError.
Proof.
  intros Hn Hk. unfold wilson_interval.
  destruct (Z.eqb_spec n 0) as [|_]; [lia|].
  pose proof bpow_1023_lt_emax as H1023. pose proof (bpow_pos emax) as Hmax.
  set (m := 2 ^ 52 / n).
  assert (Hm0 : 0 <= m <= 2 ^ 52).
  { unfold m. split; [apply Z.div_pos; lia|].
    apply Z.div_le_upper_bound; lia. }
  assert (Hmn : m * n <= 2 ^ 52).
  { unfold m. rewrite Z.mul_comm. apply Z.mul_div_le. lia. }
  assert (Hlo : (1 + F2R m (-52) = F2R (2 ^ 52 + m) (-52))%R).
  { rewrite F2R_plus. f_equal. symmetry. apply (F2R_int 1 52). lia. }
  assert (HN : (1 <= IZR n)%R) by (apply IZR_le; lia).
  (* the estimate *)
  destruct (int_truediv_bounds k n (F2R (2 ^ 52 + m) (-52)) (bpow 1023))
    as [p [Ep [Rp [Bp _]]]].
  - lia.
  - apply format_pow2; [|unfold emin; simpl; lia].
    change (2 ^ prec) with (2 * 2 ^ 52). lia.
  - apply format_bpow. unfold emin. simpl. lia.
  - split.
    + apply (F2R_le_div k n (2 ^ 52 + m) 52); nia.
    + apply Rle_trans with (IZR k).
      * assert (0 <= IZR k)%R by (apply IZR_le; lia).
        assert (/ IZR n <= 1)%R
          by (rewrite <- Rinv_1; apply Rinv_le_contravar; lra).
        assert (IZR k * / IZR n <= IZR k * 1)%R
          by (apply Rmult_le_compat_l; assumption).
        unfold Rdiv. lra.
      * rewrite bpow_IZR by lia. apply IZR_le. lia.
  - rewrite <- Hlo. pose proof (bpow_pos (-52)).
    assert (0 <= F2R m (-52))%R
      by (unfold F2R; apply Rmult_le_pos; [apply IZR_le; lia | lra]).
    lra.
  - assumption.
  - rewrite <- Hlo in Bp. rewrite Ep. cbn [bind].
    change (float_pow2 z_default) with (Ok (z_default * z_default)%float).
    cbn [bind].
    (* the counts convert exactly *)
    assert (H4n : (4 * IZR n <= bpow 1023)%R).
    { rewrite <- (mult_IZR 4 n), bpow_IZR by lia. apply IZR_le. lia. }
    destruct (float_of_int_bounds n (IZR n) (IZR n)) as [f1 [E1 [R1 [B1 N1]]]];
      [apply format_IZR; change (2 ^ prec) with (2 ^ 53); lia
      | apply format_IZR; change (2 ^ prec) with (2 ^ 53); lia
      | lra | lra | lra |].
    assert (B1' : B2R f1 = IZR n) by lra.
    destruct (count_real (2 * n) ltac:(lia)) as [f2 [E2 [R2 [B2 _]]]].
    destruct (float_of_int_bounds (4 * n) (IZR (4 * n)) (IZR (4 * n)))
      as [f4 [E4 [R4 [B4 _]]]];
      [apply format_IZR; change (2 ^ prec) with (2 ^ 53); lia
      | apply format_IZR; change (2 ^ prec) with (2 ^ 53); lia
      | lra
      | rewrite mult_IZR; lra | rewrite mult_IZR; lra |].
    assert (B4' : (B2R f4 = 4 * IZR n)%R) by (rewrite mult_IZR in B4; lra).
    unfold float_truediv_int. rewrite E1, E2, E4. cbn [bind].
    rewrite (float_truediv_ok _ f1 R1) by lra. cbn [bind].
    rewrite (float_truediv_ok _ f2 R2) by lra. cbn [bind].
    assert (Hden : ((1 + z_default * z_default / f1) =? 0)%float = false).
    { apply (denom_nonzero n); [lia | assumption..]. }
    rewrite (float_truediv_nonzero _ _ Hden). cbn [bind].
    rewrite (float_truediv_ok _ f4 R4) by lra. cbn [bind].
    rewrite (float_truediv_ok _ f1 R1) by lra. cbn [bind].
    rewrite (sqrt_negative _
               (radicand_negative p f1 f4 n m Hn eq_refl Rp Bp R1 B1' R4 B4')).
    reflexivity.
Qed.

(** Three clicks on two impressions. *)
Lemma wilson_excess_clicks_witness :
  wilson_interval 3 2 z_default = Raise ValueError.
Proof. apply wilson_excess_clicks; lia. Defined.

(** X5: whenever the call returns for [0 <= clicks <= impressions] and a
    positive count of impressions, whatever the quantile, the estimate is a
    real double within a relative [2^-53] of the exact quotient
    [clicks / impressions]. *)
Theorem wilson_estimate_accuracy (k n : Z) (z p l u : float) :
  0 <= k <= n -> 0 < n -> wilson_interval k n z = Ok (p, l, u) ->
  is_real p = true
  /\ (Rabs (B2R p - IZR k / IZR n) <= bpow (-53) * (IZR k / IZR n))%R.
Proof.
  intros Hk Hn H.
  pose proof (wilson_interval_count_converted k n z _ ltac:(lia) H) as Hbig.
  apply wilson_interval_estimate in H; [|lia].
  destruct (int_truediv_ok k n p ltac:(lia) H) as [Rp Np].
  split; [assumption|].
  assert (HN : (0 < IZR n <= bpow 1022)%R).
  { split; [apply IZR_lt; assumption|].
    rewrite bpow_IZR by lia. apply IZR_le.
    change (2 ^ 1024) with (4 * 2 ^ 1022) in Hbig. lia. }
  destruct (Z.eq_dec k 0) as [->|Hk0].
  - unfold Rdiv in *. rewrite Rmult_0_l in *.
    rewrite (nearest_exact 0 _ format_0 (rounds_to_nearest _ _ Rp Np)).
    rewrite Rminus_0_r, Rabs_R0. lra.
  - apply rel_error; [|assumption|assumption].
    apply (div_lower _ _ 0 1022); [|assumption].
    rewrite bpow_0. apply IZR_le. lia.
Qed.

Lemma wilson_estimate_accuracy_witness :
  is_real 0x1.999999999999ap-4 = true
  /\ (Rabs (B2R 0x1.999999999999ap-4 - IZR 10 / IZR 100)
      <= bpow (-53) * (IZR 10 / IZR 100))%R.
Proof.
  apply (wilson_estimate_accuracy 10 100 z_default _ 0x1.c46ea581181fap-5
           0x1.651aaf6e01a3ep-3); [lia | lia |].
  vm_compute. reflexivity.
Defined.

(** X6: at the two ends the estimate is exact and the bound next to it is
    close: for [0 < impressions <= 2^1021], with no click the call returns
    the estimate [0.0] and a lower bound of at most [2^-45]; with as many
    clicks as impressions it returns the estimate [1.0] and an upper bound
    of at least [1 - 2^-45]. *)
Theorem wilson_estimate_ends (n : Z) :
  0 < n <= 2 ^ 1021 ->
  (exists l u : float,
      wilson_interval 0 n z_default = Ok (0%float, l, u)
      /\ (l <=? 0x1p-45)%float = true)
  /\ (exists l u : float,
         wilson_interval n n z_default = Ok (1%float, l, u)
         /\ (0x1.fffffffffffp-1 <=? u)%float = true).
Proof.
  intros Hn. pose proof eps_45 as H45. pose proof eps_small as He. split.
  - destruct (wilson_interval_steps 0 n ltac:(lia) Hn)
      as [p [l [u [E [Ep [_ [Rl [_ [_ [_ [_ [_ [Tl _]]]]]]]]]]]]].
    apply int_truediv_zero in Ep; [|lia]. subst p. exists l, u.
    split; [assumption|].
    apply (leb_real l _ Rl); [reflexivity|].
    rewrite tolerance_value. rewrite B2R_0 in Tl. lra.
  - destruct (wilson_interval_steps n n ltac:(lia) Hn)
      as [p [l [u [E [Ep [_ [_ [Ru [_ [_ [_ [_ [_ Tu]]]]]]]]]]]]].
    apply int_truediv_same in Ep; [|lia]. subst p. exists l, u.
    split; [assumption|].
    apply (leb_real _ u); [reflexivity | assumption|].
    rewrite below_one_value. rewrite B2R_1 in Tu. lra.
Qed.

Lemma wilson_estimate_ends_witness :
  (exists l u : float,
      wilson_interval 0 7 z_default = Ok (0%float, l, u)
      /\ (l <=? 0x1p-45)%float = true)
  /\ (exists l u : float,
         wilson_interval 7 7 z_default = Ok (1%float, l, u)
         /\ (0x1.fffffffffffp-1 <=? u)%float = true).
Proof. apply (wilson_estimate_ends 7). lia. Defined.

(** X7: with the quantile [0.0] the interval collapses onto the estimate:
    for [0 <= clicks <= impressions] and [0 < impressions <= 2^1021] the
    call returns the quotient of the counts three times, as estimate, as
    lower and as upper bound. *)
Theorem wilson_zero_quantile (k n : Z) :
  0 <= k <= n -> 0 < n <= 2 ^ 1021 ->
  exists p : float,
    int_truediv k n = Ok p /\ wilson_interval k n 0 = Ok (p, p, p).
Proof.
  intros Hk Hn. unfold wilson_interval.
  destruct (Z.eqb_spec n 0) as [|_]; [lia|].
  destruct (phat_real k n Hk (proj1 Hn)) as [p [Ep [Rp [Bp _]]]].
  pose proof (phat_plain k n p Hk Hn Ep) as Hp.
  exists p. split; [assumption|]. rewrite Ep. cbn [bind].
  change (float_pow2 0) with (Ok 0%float). cbn [bind].
  change (0 * 0)%float with 0%float.
  assert (H1023 : 2 ^ 1021 * 4 = 2 ^ 1023) by reflexivity.
  destruct (count_real n ltac:(lia)) as [f1 [E1 [R1 [B1 _]]]].
  destruct (count_real (2 * n) ltac:(lia)) as [f2 [E2 [R2 [B2 _]]]].
  destruct (count_real (4 * n) ltac:(lia)) as [f4 [E4 [R4 [B4 _]]]].
  unfold float_truediv_int. rewrite E1, E2, E4. cbn [bind].
  rewrite (float_truediv_ok 0 f1 R1) by lra. cbn [bind].
  rewrite (zero_div_pos f1 R1) by lra.
  change (1 + 0)%float with 1%float.
  rewrite (float_truediv_ok 0 f2 R2) by lra. cbn [bind].
  rewrite (zero_div_pos f2 R2) by lra.
  rewrite (add_zero_plain p Hp).
  rewrite (float_truediv_ok p 1 real_1) by (rewrite B2R_1; lra). cbn [bind].
  rewrite (div_one_plain p Hp).
  rewrite (float_truediv_ok 0 f4 R4) by lra. cbn [bind].
  rewrite (zero_div_pos f4 R4) by lra.
  rewrite (float_truediv_ok _ f1 R1) by lra. cbn [bind].
  pose proof (zero_radicand p f1 Rp Bp R1 (proj1 B1)) as Rs.
  rewrite (math_sqrt_ok _ Rs). cbn [bind].
  rewrite (float_truediv_ok _ 1 real_1) by (rewrite B2R_1; lra). cbn [bind].
  destruct (zero_times_real _ Rs) as [s0 Hz].
  destruct (zero_div_one _ s0 Hz) as [s1 Hh].
  destruct (plus_minus_zero p _ s1 Hp Hh) as [Hsub Hadd].
  rewrite Hsub, Hadd.
  destruct (clamps_plain p Hp (proj2 Bp)) as [Hmax Hmin].
  rewrite Hmax, Hmin. reflexivity.
Qed.

Lemma wilson_zero_quantile_witness :
  exists p : float,
    int_truediv 10 100 = Ok p /\ wilson_interval 10 100 0 = Ok (p, p, p).
Proof. apply (wilson_zero_quantile 10 100); lia. Defined.

(** ** The assignment engine [assign_variant_and_placement] *)

(** X8: for a secret and an identifier that encode to UTF-8, the cell is
    decided by the first eight bytes of the digest alone.
    The first four, read as a big-endian integer, give the variant: ["A"]
    below [1431655765], ["B"] below [2863311530], ["C"] below
    [4294967295], and ["A"] again for [4294967295] itself, where the bucket
    is [1.0] and the index [3] wraps around; the next four give the
    placement in the same way. *)
Theorem assign_thresholds (env_db_path env_secret : option string)
        (user_id : string) (key msg : list Z) :
  encode (SECRET (module_globals env_db_path env_secret)) = Ok key ->
  encode user_id = Ok msg ->
  let g := module_globals env_db_path env_secret in
  let d := HMAC.digest key msg in
  let cell (x : Z) : nat :=
    if x <? 1431655765 then 0%nat
    else if x <? 2863311530 then 1%nat
    else if x <? 4294967295 then 2%nat
    else 0%nat in
  assign_variant_and_placement g user_id
  = Ok (nth (cell (Spec.be_uint (firstn 4 d))) ["A"; "B"; "C"]%string ""%string,
        nth (cell (Spec.be_uint (firstn 4 (skipn 4 d))))
            ["P1"; "P2"; "P3"]%string ""%string).
Proof.
  intros Hkey Hmsg g d cell. unfold assign_variant_and_placement.
  fold g in Hkey. rewrite Hkey, Hmsg. cbn [bind]. unfold HMAC.hexdigest.
  unfold d, HMAC.digest.
  rewrite buckets_of_digest, firstn_4_digest, second_4_digest.
  set (h := HMAC.hmac_regs _ _).
  assert (Hcell : forall (c0 c1 c2 : string) (x : Z),
             exists b : float,
               int_truediv (Spec.be_uint (SHA256.bytes_of_word x)) 0xFFFFFFFF = Ok b
               /\ pick [c0; c1; c2] b
                  = Ok (nth (cell (Spec.be_uint (SHA256.bytes_of_word x)))
                            [c0; c1; c2] ""%string)).
  { intros c0 c1 c2 x. pose proof (be_uint_range x) as Hx.
    destruct (bucket_of_word x) as [b [E [R [V N]]]].
    destruct (pick_three c0 c1 c2 b R V) as [j [c [Hj [Ht [Hp [Hn _]]]]]].
    exists b. split; [assumption|]. rewrite Hp. f_equal.
    rewrite (bucket_index_exact _ b j Hx E R V N Ht) in Hn.
    set (i := Spec.be_uint (SHA256.bytes_of_word x)) in *.
    change 0xFFFFFFFF with 4294967295 in Hx.
    assert (Hm : (3 * i / 4294967295) mod 3 = Z.of_nat (cell i)).
    { unfold cell.
      destruct (Z.ltb_spec i 1431655765);
        [|destruct (Z.ltb_spec i 2863311530);
          [|destruct (Z.ltb_spec i 4294967295)]];
        cbn [Z.of_nat]; Z.div_mod_to_equations; lia. }
    rewrite Hm, Nat2Z.id in Hn.
    symmetry. apply nth_error_nth. assumption. }
  destruct (Hcell "A"%string "B"%string "C"%string (SHA256.ra h)) as [b1 [E1 P1]].
  destruct (Hcell "P1"%string "P2"%string "P3"%string (SHA256.rb h))
    as [b2 [E2 P2]].
  rewrite E1, E2. cbn [bind VARIANTS PLACEMENTS module_globals g].
  rewrite P1, P2. reflexivity.
Qed.

(** The default secret and the identifier [user-42]: the digest starts
    with the words [3398163064], not below the second threshold, and
    [300661845], below the first. *)
Lemma assign_thresholds_witness :
  encode "changeme" = Ok (str_bytes "changeme")
  /\ encode "user-42" = Ok (str_bytes "user-42")
  /\ Spec.be_uint
       (firstn 4 (HMAC.digest (str_bytes "changeme") (str_bytes "user-42")))
     = 3398163064
  /\ Spec.be_uint
       (firstn 4 (skipn 4 (HMAC.digest (str_bytes "changeme")
                                       (str_bytes "user-42"))))
     = 300661845
  /\ assign_variant_and_placement (module_globals None None) "user-42"
     = Ok ("C", "P1")%string.
Proof.
  split; [reflexivity|]. split; [reflexivity|].
  split; [vm_compute; reflexivity|]. split; [vm_compute; reflexivity|].
  rewrite (assign_thresholds None None "user-42" _ _ eq_refl eq_refl).
  vm_compute. reflexivity.
Defined.

(** X9: the choice does not depend on there being three entries: for any
    secret and any identifier that encode to UTF-8 and any two non-empty
    lists (of at most [2^1023] entries) the function returns an entry of
    each, and no index is out of range. *)
Theorem assign_any_lists (g : Globals) (user_id : string) (key msg : list Z) :
  encode (SECRET g) = Ok key -> encode user_id = Ok msg ->
  VARIANTS g <> [] -> PLACEMENTS g <> [] ->
  py_len (VARIANTS g) <= 2 ^ 1023 -> py_len (PLACEMENTS g) <= 2 ^ 1023 ->
  exists v p : string,
    assign_variant_and_placement g user_id = Ok (v, p)
    /\ In v (VARIANTS g) /\ In p (PLACEMENTS g).
Proof.
  intros Hkey Hmsg Hv Hp Lv Lp.
  unfold assign_variant_and_placement. rewrite Hkey, Hmsg. cbn [bind].
  unfold HMAC.hexdigest, HMAC.digest.
  rewrite buckets_of_digest.
  set (h := HMAC.hmac_regs _ _).
  destruct (bucket_of_word (SHA256.ra h)) as [b1 [E1 [R1 [V1 _]]]].
  destruct (bucket_of_word (SHA256.rb h)) as [b2 [E2 [R2 [V2 _]]]].
  rewrite E1, E2. cbn [bind].
  destruct (pick_member (VARIANTS g) b1 Hv Lv R1 V1) as [v [Pv Iv]].
  destruct (pick_member (PLACEMENTS g) b2 Hp Lp R2 V2) as [p [Pp Ip]].
  exists v, p. rewrite Pv, Pp. cbn [bind]. auto.
Qed.

Lemma assign_any_lists_witness :
  exists v p : string,
    assign_variant_and_placement
      {| DB_PATH := "ctr.db"; SECRET := "changeme";
         VARIANTS := ["A"; "B"]%string;
         PLACEMENTS := ["P1"; "P2"; "P3"; "P4"; "P5"]%string |} "user-42"
    = Ok (v, p)
    /\ In v ["A"; "B"]%string /\ In p ["P1"; "P2"; "P3"; "P4"; "P5"]%string.
Proof.
  apply (assign_any_lists
           {| DB_PATH := "ctr.db"; SECRET := "changeme";
              VARIANTS := ["A"; "B"]%string;
              PLACEMENTS := ["P1"; "P2"; "P3"; "P4"; "P5"]%string |} "user-42"
           (str_bytes "changeme") (str_bytes "user-42"));
    try reflexivity; cbn; try discriminate; lia.
Defined.

(** X10: with an empty list of variants, or with variants (at most [2^1023])
    and an empty list of placements, the function raises
    [ZeroDivisionError] for every secret and identifier that encode to
    UTF-8: the index is reduced modulo the length before the list is
    read. *)
Theorem assign_empty_list (g : Globals) (user_id : string) (key msg : list Z) :
  encode (SECRET g) = Ok key -> encode user_id = Ok msg ->
  py_len (VARIANTS g) <= 2 ^ 1023 ->
  VARIANTS g = [] \/ PLACEMENTS g = [] ->
  assign_variant_and_placement g user_id = Raise ZeroDivisionError.
Proof.
  intros Hkey Hmsg Lv Hempty.
  unfold assign_variant_and_placement. rewrite Hkey, Hmsg. cbn [bind].
  unfold HMAC.hexdigest, HMAC.digest.
  rewrite buckets_of_digest.
  set (h := HMAC.hmac_regs _ _).
  destruct (bucket_of_word (SHA256.ra h)) as [b1 [E1 [R1 [V1 _]]]].
  destruct (bucket_of_word (SHA256.rb h)) as [b2 [E2 [R2 [V2 _]]]].
  rewrite E1, E2. cbn [bind].
  destruct (VARIANTS g) as [|v0 vs] eqn:Ev.
  - rewrite (pick_empty b1 R1 V1). reflexivity.
  - destruct Hempty as [|Hp]; [discriminate|].
    destruct (pick_member (v0 :: vs) b1 ltac:(discriminate) Lv R1 V1) as [v [Pv _]].
    rewrite Pv, Hp. cbn [bind]. rewrite (pick_empty b2 R2 V2). reflexivity.
Qed.

Lemma assign_empty_list_witness :
  assign_variant_and_placement
    {| DB_PATH := "ctr.db"; SECRET := "changeme";
       VARIANTS := ["A"; "B"; "C"]%string; PLACEMENTS := [] |} "user-42"
  = Raise ZeroDivisionError.
Proof.
  apply (assign_empty_list
           {| DB_PATH := "ctr.db"; SECRET := "changeme";
              VARIANTS := ["A"; "B"; "C"]%string; PLACEMENTS := [] |} "user-42"
           (str_bytes "changeme") (str_bytes "user-42")).
  - reflexivity.
  - reflexivity.
  - cbn. lia.
  - right. reflexivity.
Defined.

(** X11: reading a slice of a hexadecimal digest gives back the bytes under
    it: for a list of bytes and [i < j] within it, [int(digest[2*i:2*j], 16)]
    of its hexadecimal form is the big-endian value of the bytes from [i]
    to [j]. The two buckets are the cases [0:8] and [8:16]. *)
Theorem hex_slice_round_trip (bs : list Z) (i j : nat) :
  Forall (fun b => 0 <= b < 256) bs -> (i < j <= List.length bs)%nat ->
  int16 (str_slice (2 * i) (2 * j) (HMAC.hex_of_bytes bs))
  = Ok (Spec.be_uint (firstn (j - i) (skipn i bs))).
Proof.
  intros Hb Hij. rewrite str_slice_hex by lia.
  assert (Hne : firstn (j - i) (skipn i bs) <> []).
  { intros E. apply (f_equal (@List.length Z)) in E.
    rewrite length_firstn, length_skipn in E. cbn [List.length] in E. lia. }
  assert (Hf : Forall (fun b => 0 <= b < 256) (firstn (j - i) (skipn i bs))).
  { rewrite <- (firstn_skipn i bs) in Hb. apply Forall_app in Hb as [_ Hb].
    rewrite <- (firstn_skipn (j - i) (skipn i bs)) in Hb.
    apply Forall_app in Hb as [Hb _]. assumption. }
  destruct (firstn (j - i) (skipn i bs)) as [|b l] eqn:El; [contradiction|].
  unfold int16. cbn [HMAC.hex_of_bytes].
  change (String (HMAC.hex_char (b / 16))
            (String (HMAC.hex_char (b mod 16)) (HMAC.hex_of_bytes l)))
    with (HMAC.hex_of_bytes (b :: l)).
  apply int16_from_hex. assumption.
Qed.

Lemma hex_slice_round_trip_witness :
  int16 (str_slice (2 * 1) (2 * 3) (HMAC.hex_of_bytes [0; 171; 205; 255]))
  = Ok (Spec.be_uint (firstn (3 - 1) (skipn 1 [0; 171; 205; 255]))).
Proof.
  apply (hex_slice_round_trip [0; 171; 205; 255] 1 3).
  - repeat constructor; lia.
  - cbn. lia.
Defined.

(** ** The ranking of [api_search] *)

(** X12: a search never drops a document: whatever the tokens of the query
    (fewer than [2^1023]) and whatever the random draws, the call returns a
    permutation of the eight documents of [MOCK_DOCS], so that the query
    only changes their order and the logged count of results is eight. *)
Theorem search_returns_every_document (toks : list string) (draw : nat -> float) :
  py_len toks < 2 ^ 1023 ->
  exists docs : list ApiSearch.Doc,
    ApiSearch.api_search_docs toks draw = Ok docs
    /\ Permutation docs ApiSearch.MOCK_DOCS
    /\ py_len docs = 8.
Proof.
  intros Hlen. unfold ApiSearch.api_search_docs.
  destruct (keys_spec toks draw (fun _ _ => True)
              (fun i d => match score_ok toks (draw i) d Hlen with
                          | ex_intro _ k Ek => ex_intro _ k (conj Ek I)
                          end)
              ApiSearch.MOCK_DOCS 0%nat) as [ks [Eks [Hm _]]].
  rewrite Eks. cbn [bind].
  assert (Hp : Permutation (map snd (ApiSearch.sorted_desc ks)) ApiSearch.MOCK_DOCS).
  { rewrite <- Hm. apply Permutation_map, sorted_desc_perm. }
  assert (Hl : List.length (map snd (ApiSearch.sorted_desc ks)) = 8%nat).
  { rewrite (Permutation_length Hp). reflexivity. }
  rewrite firstn_all2 by (rewrite Hl; apply le_n).
  eexists. split; [reflexivity|]. split; [assumption|].
  unfold py_len. rewrite Hl. reflexivity.
Qed.

Lemma search_returns_every_document_witness :
  exists docs : list ApiSearch.Doc,
    ApiSearch.api_search_docs ["anc"%string] (fun _ => 0x1p-1%float) = Ok docs
    /\ Permutation docs ApiSearch.MOCK_DOCS
    /\ py_len docs = 8.
Proof.
  apply (search_returns_every_document ["anc"%string] (fun _ => 0x1p-1%float)).
  reflexivity.
Defined.

(** X13: the random term never outweighs a match: for a query of fewer than
    [2^51] tokens and draws of [random.random()] in [0, 1), a document whose
    text holds more of the tokens than another (tokens counted as often as
    they occur in the query) is returned before it. *)
Theorem search_ranks_by_matches (toks : list string) (draw : nat -> float)
        (d1 d2 : ApiSearch.Doc) :
  py_len toks < 2 ^ 51 ->
  (forall i : nat, (0 <=? draw i)%float = true /\ (draw i <? 1)%float = true) ->
  In d1 ApiSearch.MOCK_DOCS -> In d2 ApiSearch.MOCK_DOCS ->
  ApiSearch.matches toks d2 < ApiSearch.matches toks d1 ->
  exists l1 l2 l3 : list ApiSearch.Doc,
    ApiSearch.api_search_docs toks draw = Ok (l1 ++ d1 :: l2 ++ d2 :: l3).
Proof.
  intros Hlen Hdraw H1 H2 Hm. unfold ApiSearch.api_search_docs.
  set (P := fun (k : float) (d : ApiSearch.Doc) =>
              is_real k = true
              /\ (IZR (1 + ApiSearch.matches toks d) <= B2R k
                  <= IZR (1 + ApiSearch.matches toks d) + / 2)%R).
  assert (Hs : forall (i : nat) (d : ApiSearch.Doc),
             exists k, ApiSearch.score toks (draw i) d = Ok k /\ P k d).
  { intros i d. destruct (Hdraw i) as [D0 D1].
    destruct (draw_real _ D0 D1) as [Rd Vd].
    destruct (score_bounds toks (draw i) d Hlen Rd Vd) as [k [Ek Pk]].
    exists k. split; assumption. }
  destruct (keys_spec toks draw P Hs ApiSearch.MOCK_DOCS 0%nat)
    as [ks [Eks [Hmap HP]]].
  rewrite Eks. cbn [bind].
  assert (Hp : Permutation (ApiSearch.sorted_desc ks) ks) by apply sorted_desc_perm.
  assert (Hl : List.length (map snd (ApiSearch.sorted_desc ks)) = 8%nat).
  { rewrite length_map, (Permutation_length Hp), <- (length_map snd), Hmap.
    reflexivity. }
  rewrite firstn_all2 by (rewrite Hl; apply le_n).
  rewrite <- Hmap in H1, H2. apply in_map_iff in H1, H2.
  destruct H1 as [x [Ex Ix]]. destruct H2 as [y [Ey Iy]].
  rewrite Forall_forall in HP.
  destruct (HP x Ix) as [Rx Bx]. destruct (HP y Iy) as [Ry By].
  rewrite Ex in Bx. rewrite Ey in By.
  assert (Hlt : (B2R (fst y) < B2R (fst x))%R).
  { assert (H : (IZR (1 + ApiSearch.matches toks d2) + 1
                 <= IZR (1 + ApiSearch.matches toks d1))%R).
    { rewrite <- (plus_IZR _ 1). apply IZR_le. lia. }
    lra. }
  assert (Hreal : Forall (fun kd => is_real (fst kd) = true) ks).
  { rewrite Forall_forall. intros kd Hkd. exact (proj1 (HP kd Hkd)). }
  destruct (sorted_before (ApiSearch.sorted_desc ks) x y
              (sorted_desc_sorted ks Hreal)
              (Permutation_in _ (Permutation_sym Hp) Ix)
              (Permutation_in _ (Permutation_sym Hp) Iy) Hlt)
    as [l1 [l2 [l3 E]]].
  exists (map snd l1), (map snd l2), (map snd l3).
  rewrite E, map_app. cbn [map]. rewrite map_app. cbn [map].
  rewrite Ex, Ey. reflexivity.
Qed.

Lemma search_ranks_by_matches_witness :
  exists l1 l2 l3 : list ApiSearch.Doc,
    ApiSearch.api_search_docs ["anc"%string] (fun _ => 0x1p-1%float)
    = Ok (l1 ++ nth 2 ApiSearch.MOCK_DOCS (ApiSearch.Build_Doc "" "" "" "")
             :: l2 ++ nth 0 ApiSearch.MOCK_DOCS (ApiSearch.Build_Doc "" "" "" "")
             :: l3).
Proof.
  apply (search_ranks_by_matches ["anc"%string] (fun _ => 0x1p-1%float)).
  - reflexivity.
  - intros _. split; reflexivity.
  - cbn. tauto.
  - cbn. tauto.
  - vm_compute. reflexivity.
Defined.

(** X14: the order of the words of the query does not matter: two token
    lists that are rearrangements of one another give, with the same random
    draws, the same result, error or list. *)
Theorem search_ignores_token_order (toks toks' : list string)
        (draw : nat -> float) :
  Permutation toks toks' ->
  ApiSearch.api_search_docs toks draw = ApiSearch.api_search_docs toks' draw.
Proof.
  intros H. unfold ApiSearch.api_search_docs.
  rewrite (keys_perm toks toks' draw ApiSearch.MOCK_DOCS 0 H). reflexivity.
Qed.

(** The query [anc ipx] and the query [ipx anc]. *)
Lemma search_ignores_token_order_witness :
  ApiSearch.api_search_docs ["anc"; "ipx"]%string (fun _ => 0x1p-1%float)
  = ApiSearch.api_search_docs ["ipx"; "anc"]%string (fun _ => 0x1p-1%float).
Proof. apply search_ignores_token_order. apply perm_swap. Defined.
